(** * Subgraph matching in gunrock: the join kernels and the SMProblem host code

    A shallow embedding of
    - [gunrock/util/join.cuh]: the CUDA kernels [Update], [debug], [Join]
      and [Label];
    - [gunrock/app/sm/sm_problem.cuh]: [SMProblem::Init],
      [SMProblem::Extract], [SMProblem::Reset] and the destructors of
      [SMProblem] and of its [DataSlice].

    Conventions of the embedding.
    - Integers are [Z].  The fixed-width types of the source are wrapped
      explicitly: [uint] for [unsigned int] (32 bits) and [ull] for
      [unsigned long long] (64 bits).  [SizeT], [Value] and [VertexId] are
      template parameters.  The values read from the arrays are
      mathematical integers, with C's truncating [/] and [%] written
      [Z.quot] and [Z.rem]; where the source converts a value of a fixed
      type to [VertexId] or [SizeT] (the store into [output] of [Join], the
      initialisation of [STRIDE] in [Join] and [Label] and of [x] in
      [Label]) the conversion [convert] of the instantiation is applied,
      the instantiation ([int_type]) being an argument of the kernel.
    - A pointer parameter carries no length: device memory reached through a
      pointer is a total map from index to value ([mem]).  The only array
      whose length the source declares, the local [edge_id[3]] of [Join], is
      bounds-checked: an access outside [0, 3) is the fault [Fault i].
    - A kernel is embedded as the code of one thread; the grid-stride
      [while] loop takes fuel.  The sequential embedding is the launch
      [<<<1, 1>>>]: one thread, [x] starting at 0, [STRIDE] equal to 1. *)

From Stdlib Require Import ZArith List Lia Bool.
From Stdlib Require Import Sorting.Permutation.
Import ListNotations.
Local Open Scope Z_scope.

(* ------------------------------------------------------------------ *)
(** ** Machine integers, memory, outcomes *)
(* ------------------------------------------------------------------ *)

Definition uint (z : Z) : Z := z mod 2 ^ 32.
Definition ull (z : Z) : Z := z mod 2 ^ 64.

(** An integral type that a template parameter is instantiated with: its
    size in bytes and whether it is signed. *)
Record int_type : Type := {
  sizeof : positive;
  is_signed : bool
}.

Definition bits (ty : int_type) : Z := 8 * Z.pos (sizeof ty).

Definition min_value (ty : int_type) : Z :=
  if is_signed ty then - 2 ^ (bits ty - 1) else 0.

Definition max_value (ty : int_type) : Z :=
  if is_signed ty then 2 ^ (bits ty - 1) - 1 else 2 ^ bits ty - 1.

(** The conversion of an integer to the type [ty]: the value of the type
    that is congruent to it modulo [2 ^ bits] (two's complement, as CUDA
    compilers convert to a signed type). *)
Definition convert (ty : int_type) (z : Z) : Z :=
  (z - min_value ty) mod 2 ^ bits ty + min_value ty.

(** [z] is a value of the type [ty]. *)
Definition fits (ty : int_type) (z : Z) : Prop :=
  min_value ty <= z <= max_value ty.

(** [int], [unsigned int] and [long long] of the CUDA targets. *)
Definition int32 : int_type := {| sizeof := 4; is_signed := true |}.
Definition uint32 : int_type := {| sizeof := 4; is_signed := false |}.
Definition int64 : int_type := {| sizeof := 8; is_signed := true |}.

(** Device memory behind a pointer. *)
Definition mem : Type := Z -> Z.

Definition store (m : mem) (i v : Z) : mem :=
  fun j => if j =? i then v else m j.

(** The contents of a host list seen through a pointer (0 past its end). *)
Definition of_list (l : list Z) : mem :=
  fun j => if j <? 0 then 0 else nth (Z.to_nat j) l 0.

(** The [n] consecutive integers from [lo]; the index range [0, n). *)
Fixpoint Zseq (lo : Z) (n : nat) : list Z :=
  match n with
  | O => []
  | S n' => lo :: Zseq (lo + 1) n'
  end.

Definition Zrange (n : Z) : list Z := Zseq 0 (Z.to_nat n).

Inductive outcome (A : Type) : Type :=
| Done (a : A)          (* ran to completion *)
| Fault (i : Z)         (* edge_id[i] accessed with i outside [0, 3) *)
| OutOfFuel.            (* the while loop was cut short by the fuel *)

Arguments Done {A} a.
Arguments Fault {A} i.
Arguments OutOfFuel {A}.

Definition bind {A B : Type} (m : outcome A) (k : A -> outcome B) : outcome B :=
  match m with
  | Done a => k a
  | Fault i => Fault i
  | OutOfFuel => OutOfFuel
  end.

Notation "x <- m ;; k" := (bind m (fun x => k))
  (at level 61, m at next level, right associativity).

(** The coordinates of one thread of a one-dimensional launch. *)
Record thread : Type := {
  gridDim_x : Z;
  blockDim_x : Z;
  blockIdx_x : Z;
  threadIdx_x : Z
}.

(** [blockIdx.x * blockDim.x + threadIdx.x], computed in [unsigned int]. *)
Definition thread_x (t : thread) : Z :=
  uint (blockIdx_x t * blockDim_x t + threadIdx_x t).

(** [gridDim.x * blockDim.x], computed in [unsigned int]: the value that
    initialises [const SizeT STRIDE] in each kernel.  [Join] and [Label]
    convert it to the [SizeT] of their instantiation.  In [Update] the
    stride is only ever added to the [unsigned int x], so that for a
    [SizeT] of at least 32 bits the conversion to [SizeT] and back leaves
    the sum unchanged (lemma [uint_add_convert]). *)
Definition thread_STRIDE (t : thread) : Z :=
  uint (gridDim_x t * blockDim_x t).

(** The launch [<<<1, 1>>>] and its only thread. *)
Definition sequential : thread :=
  {| gridDim_x := 1; blockDim_x := 1; blockIdx_x := 0; threadIdx_x := 0 |}.

(* ------------------------------------------------------------------ *)
(** ** join.cuh: the Join kernel *)
(* ------------------------------------------------------------------ *)

Module JoinKernel.

(** The instantiation of [VertexId] and [SizeT] and the read-only
    arguments of the kernel. *)
Record args : Type := {
  VertexId : int_type;
  SizeT : int_type;
  edges_data : Z;
  edges_query : Z;
  pos : mem;
  intersect : mem;
  froms : mem;
  tos : mem;
  edges : mem
}.

(** The memory the kernel writes: [counts[0]] and [output]. *)
Record global : Type := {
  counts : Z;
  output : mem
}.

(** [unsigned long long edge_id[3]]. *)
Definition EDGE_ID_LEN : Z := 3.

Definition edge_id_get (edge_id : mem) (i : Z) : outcome Z :=
  if (0 <=? i) && (i <? EDGE_ID_LEN) then Done (edge_id i) else Fault i.

Definition edge_id_set (edge_id : mem) (i v : Z) : outcome mem :=
  if (0 <=? i) && (i <? EDGE_ID_LEN) then Done (store edge_id i v) else Fault i.

(** Lines 76-78: [size = pos[0]; for (i = 0; i < edges_query-1; i++)
    size *= (pos[i+1] - pos[i]);] in [unsigned long long]. *)
Fixpoint Join_size_loop (a : args) (n : nat) (i size : Z) : Z :=
  match n with
  | O => size
  | S n' =>
      Join_size_loop a n' (i + 1) (ull (size * ull (pos a (i + 1) - pos a i)))
  end.

Definition Join_size (a : args) : Z :=
  Join_size_loop a (Z.to_nat (edges_query a - 1)) 0 (ull (pos a 0)).

(** [pos[iter] - pos[iter-1]] as the [unsigned long long] divisor of lines
    90-91.  It is nonzero whenever the loop body runs (lemma
    [Join_size_seg_len]), so the division is defined. *)
Definition seg_len (a : args) (iter : Z) : Z :=
  ull (pos a iter - pos a (iter - 1)).

(** Lines 88-93: [for (iter = edges_query-1; iter > 0; iter--)]; [n] is the
    number of iterations left.  Returns the final [iter], [id] and buffer. *)
Fixpoint Join_decode (a : args) (n : nat) (iter id : Z) (edge_id : mem)
  : outcome (Z * Z * mem) :=
  match n with
  | O => Done (iter, id, edge_id)
  | S n' =>
      edge_id <- edge_id_set edge_id iter
                   (ull (pos a (iter - 1) + id mod seg_len a iter)) ;;
      let id := id / seg_len a iter in
      slot <- edge_id_get edge_id iter ;;
      edge_id <- edge_id_set edge_id iter (ull (edges a slot)) ;;
      Join_decode a n' (iter - 1) id edge_id
  end.

(** Lines 106-119: the test on [c]; [true] means [break]. *)
Definition Join_break_c (a : args) (c e_old e_new : Z) : bool :=
  if negb (c =? 0) then
    if Z.rem c 2 =? 1
    then negb (froms a e_old =? froms a e_new)
    else negb (tos a e_old =? froms a e_new)
  else
    (froms a e_new =? froms a e_old) || (froms a e_new =? tos a e_old).

(** Lines 121-134: the test on [d]; [true] means [break]. *)
Definition Join_break_d (a : args) (d e_old e_new : Z) : bool :=
  if negb (d =? 0) then
    if Z.rem d 2 =? 1
    then negb (froms a e_old =? tos a e_new)
    else negb (tos a e_old =? tos a e_new)
  else
    (tos a e_new =? froms a e_old) || (tos a e_new =? tos a e_old).

(** Lines 100-136: [for (edge = 0; edge < iter+1; edge++)]; returns the value
    of [edge] when the loop is left. *)
Fixpoint Join_inner (a : args) (n : nat) (iter offset edge : Z) (edge_id : mem)
  : outcome Z :=
  match n with
  | O => Done edge
  | S n' =>
      e_new <- edge_id_get edge_id (iter + 1) ;;
      e_old <- edge_id_get edge_id edge ;;
      if e_new =? e_old then Done edge
      else
        let c := intersect a ((offset + edge) * 2) in
        let d := intersect a ((offset + edge) * 2 + 1) in
        if Join_break_c a c e_old e_new then Done edge
        else if Join_break_d a d e_old e_new then Done edge
        else Join_inner a n' iter offset (edge + 1) edge_id
  end.

(** Lines 96-140: [for (iter = 0; iter < edges_query-1; iter++)]; returns the
    value of [iter] when the loop is left. *)
Fixpoint Join_outer (a : args) (n : nat) (iter : Z) (edge_id : mem)
  : outcome Z :=
  match n with
  | O => Done iter
  | S n' =>
      let offset := Z.quot (iter * (iter + 1)) 2 in
      edge <- Join_inner a (Z.to_nat (iter + 1)) iter offset 0 edge_id ;;
      if negb (edge =? iter + 1) then Done iter
      else Join_outer a n' (iter + 1) edge_id
  end.

(** Lines 144-145: [for (iter = 0; iter < edges_query; iter++)
    output[counts[0]*edges_query + iter] = edge_id[iter];].  [output] is a
    [VertexId*]: the [unsigned long long] entry of [edge_id] is converted
    to [VertexId] by the store. *)
Fixpoint Join_emit (a : args) (n : nat) (iter : Z) (cnt : Z) (edge_id : mem)
    (out : mem) : outcome mem :=
  match n with
  | O => Done out
  | S n' =>
      v <- edge_id_get edge_id iter ;;
      Join_emit a n' (iter + 1) cnt edge_id
        (store out (ull (ull (cnt * edges_query a) + iter))
           (convert (VertexId a) v))
  end.

(** Lines 87-141: decoding the tuple index [x] and validating the tuple;
    returns the value of the test [iter == edges_query - 1] of line 141. *)
Definition Join_check (a : args) (edge_id : mem) (x : Z)
  : outcome (bool * mem) :=
  let id := x in
  r <- Join_decode a (Z.to_nat (edges_query a - 1)) (edges_query a - 1) id
         edge_id ;;
  let '(iter, id, edge_id) := r in
  edge_id <- edge_id_set edge_id iter (ull (edges a id)) ;;
  iter <- Join_outer a (Z.to_nat (edges_query a - 1)) 0 edge_id ;;
  Done (iter =? edges_query a - 1, edge_id).

(** Lines 87-148: the body of the [while] loop for the tuple index [x]. *)
Definition Join_body (a : args) (g : global) (edge_id : mem) (x : Z)
  : outcome (global * mem) :=
  r <- Join_check a edge_id x ;;
  let '(succeeds, edge_id) := r in
  if succeeds then
    out <- Join_emit a (Z.to_nat (edges_query a)) 0 (counts g) edge_id
             (output g) ;;
    Done ({| counts := ull (counts g + 1); output := out |}, edge_id)
  else Done (g, edge_id).

(** Lines 85-151: [while (x < size) { ...; x += STRIDE; }]; the sum of the
    [unsigned long long x] and the [SizeT] stride is taken in [unsigned
    long long]. *)
Fixpoint Join_while (a : args) (fuel : nat) (STRIDE size x : Z) (g : global)
    (edge_id : mem) : outcome global :=
  if x <? size then
    match fuel with
    | O => OutOfFuel
    | S fuel' =>
        r <- Join_body a g edge_id x ;;
        Join_while a fuel' STRIDE size (ull (x + STRIDE)) (fst r) (snd r)
    end
  else Done g.

(** The kernel, as run by thread [t]; [edge_id] holds the indeterminate
    initial contents of the local buffer. *)
Definition Join (fuel : nat) (t : thread) (a : args) (g : global)
    (edge_id : mem) : outcome global :=
  let size := Join_size a in
  let STRIDE := convert (SizeT a) (thread_STRIDE t) in
  let x := thread_x t in
  Join_while a fuel STRIDE size x g edge_id.

(** *** The decoded tuple and the words of the specification *)

(** The arithmetic of lines 87-94 on its own: the candidate-array slots
    that the decode loop computes for the query edges [0 .. iter], first
    query edge first ([acc] holds the slots of the later query edges). *)
Fixpoint Join_decode_slots (a : args) (n : nat) (iter id : Z) (acc : list Z)
  : list Z :=
  match n with
  | O => id :: acc
  | S n' =>
      Join_decode_slots a n' (iter - 1) (id / seg_len a iter)
        (ull (pos a (iter - 1) + id mod seg_len a iter) :: acc)
  end.

Definition Join_slots (a : args) (x : Z) : list Z :=
  Join_decode_slots a (Z.to_nat (edges_query a - 1)) (edges_query a - 1) x [].

(** The data-edge id that the tuple index [x] gives query edge [k]. *)
Definition Join_tuple (a : args) (x : Z) (k : Z) : Z :=
  ull (edges a (nth (Z.to_nat k) (Join_slots a x) 0)).

(** The start of the segment of query edge [k] ([pos[-1] = 0]). *)
Definition seg_start (a : args) (k : Z) : Z :=
  if k =? 0 then 0 else pos a (k - 1).

(** A well-formed offset table: every segment has a strictly positive
    length and the table fits [unsigned long long]. *)
Definition wf_pos (a : args) : Prop :=
  (forall k, 0 <= k < edges_query a -> seg_start a k < pos a k) /\
  pos a (edges_query a - 1) < 2 ^ 64.

(** The product of all segment lengths. *)
Definition space_size (a : args) : Z :=
  fold_right Z.mul 1
    (map (fun k => pos a k - seg_start a k) (Zrange (edges_query a))).

(** The product of the lengths of the segments [1 .. n]. *)
Definition tail_size (a : args) (n : nat) : Z :=
  fold_right Z.mul 1 (map (fun k => pos a k - seg_start a k) (Zseq 1 n)).

(** Re-encoding: multiplying the positions back out by the segment
    lengths, query edge [k] onwards, [acc] encoding the earlier ones. *)
Fixpoint encode_from (a : args) (k acc : Z) (slots : list Z) : Z :=
  match slots with
  | [] => acc
  | s :: slots' =>
      encode_from a (k + 1)
        (acc * (pos a k - seg_start a k) + (s - seg_start a k)) slots'
  end.

Definition Join_encode (a : args) (slots : list Z) : Z :=
  encode_from a 0 0 slots.

(** The entry of the rule table for the pair (later query edge, earlier
    query edge): [offset + edge] with [offset = iter*(iter+1)/2] and
    [later = iter + 1]. *)
Definition rule_index (later earlier : Z) : Z :=
  Z.quot ((later - 1) * later) 2 + earlier.

(** The end point of the earlier edge that a nonzero orientation code
    names: its source when [code % 2 == 1], its destination otherwise. *)
Definition named_endpoint (a : args) (code e_old : Z) : Z :=
  if Z.rem code 2 =? 1 then froms a e_old else tos a e_old.

(** A rule on one end point of the new edge: a nonzero code demands that
    the named end point of the earlier edge equals it, the code zero that
    it differs from both end points of the earlier edge. *)
Definition rule_satisfied (a : args) (code endpoint e_old : Z) : Prop :=
  (code <> 0 -> named_endpoint a code e_old = endpoint) /\
  (code = 0 -> endpoint <> froms a e_old /\ endpoint <> tos a e_old).

Definition pair_valid (a : args) (t : Z -> Z) (later earlier : Z) : Prop :=
  t later <> t earlier /\
  rule_satisfied a (intersect a (rule_index later earlier * 2))
    (froms a (t later)) (t earlier) /\
  rule_satisfied a (intersect a (rule_index later earlier * 2 + 1))
    (tos a (t later)) (t earlier).

(** A valid tuple: every later-placed query edge agrees with every
    earlier-placed one. *)
Definition tuple_valid (a : args) (t : Z -> Z) : Prop :=
  forall later earlier,
    0 <= earlier < later -> later < edges_query a ->
    pair_valid a t later earlier.

Definition rule_satisfied_b (a : args) (code endpoint e_old : Z) : bool :=
  if code =? 0
  then negb (endpoint =? froms a e_old) && negb (endpoint =? tos a e_old)
  else named_endpoint a code e_old =? endpoint.

Definition pair_valid_b (a : args) (t : Z -> Z) (later earlier : Z) : bool :=
  negb (t later =? t earlier)
  && rule_satisfied_b a (intersect a (rule_index later earlier * 2))
       (froms a (t later)) (t earlier)
  && rule_satisfied_b a (intersect a (rule_index later earlier * 2 + 1))
       (tos a (t later)) (t earlier).

Definition tuple_valid_b (a : args) (t : Z -> Z) : bool :=
  forallb (fun later => forallb (pair_valid_b a t later) (Zrange later))
    (Zrange (edges_query a)).

(** The number of valid tuples among the tuple indices [lo, lo + n). *)
Definition valid_count (a : args) (lo : Z) (n : nat) : Z :=
  Z.of_nat (length (filter (fun x => tuple_valid_b a (Join_tuple a x))
                      (Zseq lo n))).

(** The slot of [output] that entry [k] of the match numbered [cnt] is
    written to (line 145). *)
Definition out_index (a : args) (cnt k : Z) : Z :=
  ull (ull (cnt * edges_query a) + k).

(** The tuple index [x] is accepted from the global state [g]: the body
    runs to completion, the counter is incremented and the block the
    counter designated holds the ids of the tuple as [VertexId]s, the rest
    of [output] being as before. *)
Definition accepted (a : args) (g : global) (edge_id : mem) (x : Z) : Prop :=
  exists g' edge_id',
    Join_body a g edge_id x = Done (g', edge_id') /\
    counts g' = ull (counts g + 1) /\
    (forall k, 0 <= k < edges_query a ->
       output g' (out_index a (counts g) k)
       = convert (VertexId a) (Join_tuple a x k)) /\
    (forall j, (forall k, 0 <= k < edges_query a ->
                  j <> out_index a (counts g) k) ->
       output g' j = output g j).

(** The tuple index [x] is rejected: the body runs to completion and
    leaves the global state as it was. *)
Definition rejected (a : args) (g : global) (edge_id : mem) (x : Z) : Prop :=
  exists edge_id', Join_body a g edge_id x = Done (g, edge_id').

(** *** Sample inputs *)

(** An initial global state and initial buffer contents. *)
Definition g0 : global := {| counts := 0; output := fun _ => 0 |}.
Definition buf0 : mem := fun _ => 0.

(** The directed triangle 0->1, 1->2, 2->0 as query; as data the triangle
    (edges 0, 1, 2) and a fourth edge 3->0 (edge 3).  Every data edge is a
    candidate of every query edge.  Rule table: query edge 1 starts where
    query edge 0 ends; query edge 2 ends where query edge 0 starts and
    starts where query edge 1 ends. *)
Definition triangle : args :=
  {| VertexId := int32; SizeT := int32;
     edges_data := 4; edges_query := 3;
     pos := of_list [4; 8; 12];
     intersect := of_list [2; 0; 0; 1; 2; 0];
     froms := of_list [0; 1; 2; 3];
     tos := of_list [1; 2; 0; 0];
     edges := of_list [0; 1; 2; 3; 0; 1; 2; 3; 0; 1; 2; 3] |}.

(** A path of four edges 0->1->2->3->4 as query and as data, each query
    edge with the matching data edge as its only candidate. *)
Definition path4 : args :=
  {| VertexId := int32; SizeT := int32;
     edges_data := 4; edges_query := 4;
     pos := of_list [1; 2; 3; 4];
     intersect := of_list [2; 0; 0; 0; 2; 0; 0; 0; 0; 0; 2; 0];
     froms := of_list [0; 1; 2; 3];
     tos := of_list [1; 2; 3; 4];
     edges := of_list [0; 1; 2; 3] |}.

(** A query of one edge with three candidates. *)
Definition single : args :=
  {| VertexId := int32; SizeT := int32;
     edges_data := 8; edges_query := 1;
     pos := of_list [3];
     intersect := of_list [];
     froms := of_list [0; 1; 2; 3; 4; 5; 6; 7];
     tos := of_list [1; 2; 3; 4; 5; 6; 7; 0];
     edges := of_list [5; 2; 7] |}.

(** A query of one edge whose only candidate is the data edge of id
    [2 ^ 32 + 5], with ids held in 64 bits ([Value], [SizeT]) and
    [VertexId] a 32-bit [int]. *)
Definition wide_id : args :=
  {| VertexId := int32; SizeT := int64;
     edges_data := 4294967302; edges_query := 1;
     pos := of_list [1];
     intersect := of_list [];
     froms := fun _ => 0;
     tos := fun _ => 1;
     edges := of_list [4294967301] |}.

(** Two query edges without a common end point, with one candidate each:
    the data edges 5 (0->1) and [2 ^ 32 + 5] (2->3). *)
Definition wide_pair : args :=
  {| VertexId := int32; SizeT := int64;
     edges_data := 4294967302; edges_query := 2;
     pos := of_list [1; 2];
     intersect := of_list [0; 0];
     froms := fun e => if e =? 5 then 0 else 2;
     tos := fun e => if e =? 5 then 1 else 3;
     edges := of_list [5; 4294967301] |}.

End JoinKernel.

(* ------------------------------------------------------------------ *)
(** ** join.cuh: the Update kernel *)
(* ------------------------------------------------------------------ *)

Module UpdateKernel.

(** The two arrays the kernel rewrites in place. *)
Record global : Type := {
  indices : mem;
  pos : mem
}.

(** Lines 31-36, for the position [x] ([unsigned int]).  [Z.quot] and
    [Z.rem] are total; they are the source's [/] and [%] for a nonzero
    [edges_data], which is a hypothesis wherever a fact depends on their
    value (with [edges_data = 0] the source divides by zero). *)
Definition Update_body (edges_data size x : Z) (g : global) : global :=
  let pos' :=
    if (x =? size - 1)
       || (Z.quot (indices g x) edges_data
           <? Z.quot (indices g (uint (x + 1))) edges_data)
    then store (pos g) (Z.quot (indices g x) edges_data) (uint (x + 1))
    else pos g in
  {| indices := store (indices g) x (Z.rem (indices g x) edges_data);
     pos := pos' |}.

(** Lines 29-38: [while (x < size) { ...; x += STRIDE; }]. *)
Fixpoint Update_while (fuel : nat) (edges_data STRIDE size x : Z) (g : global)
  : outcome global :=
  if x <? size then
    match fuel with
    | O => OutOfFuel
    | S fuel' =>
        Update_while fuel' edges_data STRIDE size (uint (x + STRIDE))
          (Update_body edges_data size x g)
    end
  else Done g.

(** The kernel, as run by thread [t]: [size] is read from [pos[0]] once,
    before the loop. *)
Definition Update (fuel : nat) (t : thread) (edges_data : Z) (g : global)
  : outcome global :=
  let STRIDE := thread_STRIDE t in
  let x := thread_x t in
  let size := pos g 0 in
  Update_while fuel edges_data STRIDE size x g.

(** The query-edge index an entry of the tagged candidate array carries
    ([entry = query_edge_index * data_edge_count + data_edge_id]). *)
Definition tag_of (edges_data entry : Z) : Z := Z.quot entry edges_data.

(** The lower end of the segment of query edge [i] ([pos[-1] = 0]). *)
Definition seg_lower (pos : mem) (i : Z) : Z :=
  if i =? 0 then 0 else pos (i - 1).

(** [x] is the last position of a run of equal tags in the array [g0] of
    length [n]. *)
Definition run_end (edges_data n : Z) (g0 : global) (x : Z) : Prop :=
  x = n - 1
  \/ tag_of edges_data (indices g0 x) < tag_of edges_data (indices g0 (x + 1)).

(** The state [g] reached from [g0] once the positions [0 .. k-1] have been
    processed: they are de-tagged, the others are not, and the table holds
    the end of every run that ends before [k]. *)
Definition processed (edges_data n : Z) (g0 : global) (k : Z) (g : global)
  : Prop :=
  (forall y, k <= y -> indices g y = indices g0 y) /\
  (forall y, 0 <= y < k -> indices g y = Z.rem (indices g0 y) edges_data) /\
  (forall y, 0 <= y < k -> run_end edges_data n g0 y ->
     pos g (tag_of edges_data (indices g0 y)) = y + 1).

(** *** Sample input: six candidates of three query edges over a data graph
    of four edges. *)
Definition tagged : global :=
  {| indices := of_list [1; 3; 4; 6; 7; 10];
     pos := of_list [6; 0; 0] |}.

End UpdateKernel.

(* ------------------------------------------------------------------ *)
(** ** join.cuh: the Label kernel *)
(* ------------------------------------------------------------------ *)

Module LabelKernel.

(** The instantiation of [VertexId] and [SizeT] and the read-only
    arguments of the kernel. *)
Record args : Type := {
  VertexId : int_type;
  SizeT : int_type;
  froms_data : mem;
  tos_data : mem;
  froms_query : mem;
  tos_query : mem;
  d_c_set : mem;
  d_query_row : mem;
  edges_data : Z;
  edges_query : Z
}.

(** Lines 177-178: the test on the candidacy words of the two end points. *)
Definition Label_test (a : args) (x src dest : Z) : bool :=
  (Z.rem (Z.shiftr (d_c_set a (froms_data a x)) src) 2 =? 1)
  && (Z.rem (Z.shiftr (d_c_set a (tos_data a x)) dest) 2 =? 1).

(** Lines 173-181: [for (int i = 0; i < edges_query; i++)]. *)
Fixpoint Label_for (a : args) (n : nat) (i x : Z) (label : mem) : mem :=
  match n with
  | O => label
  | S n' =>
      let src := froms_query a i in
      let dest := tos_query a i in
      let label :=
        if Label_test a x src dest
        then store label (x + Z.quot (i * edges_data a) 2) 1
        else label in
      Label_for a n' (i + 1) x label
  end.

(** Lines 170-183: [while (x < size) { ...; x += STRIDE; }].  The loop is
    run on the values of [x] and [size] as integers: it describes the
    source as long as [x] is not negative and [x + STRIDE] is a value of
    [VertexId] (the sum does not overflow), which is the case for the
    sequential launch on a [size] that is a [VertexId] and is a hypothesis
    of the facts about other launches. *)
Fixpoint Label_while (a : args) (fuel : nat) (STRIDE size x : Z) (label : mem)
  : outcome mem :=
  if x <? size then
    match fuel with
    | O => OutOfFuel
    | S fuel' =>
        Label_while a fuel' STRIDE size (x + STRIDE)
          (Label_for a (Z.to_nat (edges_query a)) 0 x label)
    end
  else Done label.

(** The kernel, as run by thread [t]: [STRIDE] is a [SizeT] and [x] a
    [VertexId], both initialised from [unsigned int] values; the loop bound
    is [d_query_row[0]], an element of an array of [VertexId], read as it
    is: its conversion to [SizeT] leaves it unchanged when it is a value
    of [SizeT]. *)
Definition Label (fuel : nat) (t : thread) (a : args) (label : mem)
  : outcome mem :=
  let STRIDE := convert (SizeT a) (thread_STRIDE t) in
  let x := convert (VertexId a) (thread_x t) in
  let size := d_query_row a 0 in
  Label_while a fuel STRIDE size x label.

(** The label index that line 179 computes. *)
Definition label_index (a : args) (x i : Z) : Z :=
  x + Z.quot (i * edges_data a) 2.

(** *** Sample inputs: the data graph 0->1, 1->0, the query 0->1, both data
    nodes feasible for both query nodes. *)

(** With the row offsets of the query graph as [d_query_row]. *)
Definition with_row_offsets : args :=
  {| VertexId := int32; SizeT := int32;
     froms_data := of_list [0; 1]; tos_data := of_list [1; 0];
     froms_query := of_list [0]; tos_query := of_list [1];
     d_c_set := of_list [3; 3];
     d_query_row := of_list [0; 1; 1];
     edges_data := 2; edges_query := 1 |}.

(** With an array whose first entry is 2 as [d_query_row]. *)
Definition with_count : args :=
  {| VertexId := int32; SizeT := int32;
     froms_data := of_list [0; 1]; tos_data := of_list [1; 0];
     froms_query := of_list [0]; tos_query := of_list [1];
     d_c_set := of_list [3; 3];
     d_query_row := of_list [2];
     edges_data := 2; edges_query := 1 |}.

Definition unmarked : mem := fun _ => 0.

End LabelKernel.

(* ------------------------------------------------------------------ *)
(** ** sm_problem.cuh: SMProblem::Init and SMProblem::Extract *)
(* ------------------------------------------------------------------ *)

Module SMProblem.

Definition cudaError_t : Type := Z.
Definition cudaSuccess : cudaError_t := 0.

(** The fields of a CSR graph that the host code reads. *)
Record Csr : Type := {
  nodes : Z;
  edges : Z;
  row_offsets : list Z;
  column_indices : list Z
}.

(** The [util::Array1D] members of a data slice ([labels] is the one that
    [Init] and [Reset] use although its declaration is commented out). *)
Inductive array : Type :=
| labels | d_query_labels | d_data_labels | d_query_nodeIDs | d_query_edgeIDs
| d_query_row | d_query_col | d_edge_weights | d_data_degrees
| d_query_degrees | d_temp_keys | d_c_set | d_vertex_cover.

Inductive location : Type := HOST | DEVICE.

(** The actions of [Init] and [Extract] that the trace records: the calls
    they make, the array allocations of lines 287-291 (with the length
    asked for) and the assignment of the sizes to the data slice (lines
    432-436).  The [slice] argument is the index into [data_slices]. *)
Inductive op : Type :=
| ProblemBase_Init (graph : Csr)
| new_data_slices (length : Z)
| new_d_data_slices (length : Z)
| new_streams (length : Z)
| assign_streams_0 (length : Z)
| cudaGetDevice
| new_DataSlice
| cudaMalloc_d_data_slices
| streams_SetPointer
| DataSliceBase_Init (graph : Csr)
| Allocate (slice : Z) (arr : array) (n : Z)
| MemsetKernel (slice : Z) (arr : array) (n : Z)
| MemsetIdxKernel (slice : Z) (arr : array) (n : Z)
| SetPointer (slice : Z) (arr : array)
| Move (slice : Z) (arr : array) (source target : location)
| GetNodeDegree (graph : Csr)
| assign_slice_sizes (slice : Z)
| delete_host_arrays
| SetDevice (gpu : Z).

(** The calls whose status the source tests ([if (retval = ...)]). *)
Definition checked (o : op) : bool :=
  match o with
  | cudaGetDevice | cudaMalloc_d_data_slices | Allocate _ _ _
  | Move _ _ _ _ | SetDevice _ => true
  | _ => false
  end.


(** The element of [data_slices] (of [d_data_slices] for the [cudaMalloc])
    that an action indexes, when it indexes one: element 0 in the lines
    308-325 that create the slice, the element given in the action
    elsewhere. *)
Definition slice_of (o : op) : option Z :=
  match o with
  | new_DataSlice | cudaMalloc_d_data_slices | streams_SetPointer
  | DataSliceBase_Init _ => Some 0
  | Allocate s _ _ | MemsetKernel s _ _ | MemsetIdxKernel s _ _
  | SetPointer s _ | Move s _ _ _ | assign_slice_sizes s => Some s
  | _ => None
  end.

(** The CUDA runtime and the gunrock utilities behind the calls are not part
    of the two files: the status each call returns, the device that
    [cudaGetDevice] reports and the indeterminate contents of newly
    allocated device memory (by element) are given by the environment. *)
Record device : Type := {
  status : op -> cudaError_t;
  current_gpu : Z;
  uninitialised : Z -> bool
}.

(** The target the code is compiled for: the two sizes that line 253
    divides. *)
Record platform : Type := {
  sizeof_pointer : Z;       (* sizeof(VertexId* ) *)
  sizeof_VertexId : Z       (* sizeof(VertexId) *)
}.

Module DataSlice.
Record t : Type := {
  nodes_data : Z;
  nodes_query : Z;
  edges_data : Z;
  edges_query : Z;
  iteration : Z;
  vertex_cover_size : Z
}.
End DataSlice.

(** [DataSlice()], lines 78-99. *)
Definition DataSlice_new : DataSlice.t :=
  {| DataSlice.nodes_data := 0; DataSlice.nodes_query := 0;
     DataSlice.edges_data := 0; DataSlice.edges_query := 0;
     DataSlice.iteration := 0; DataSlice.vertex_cover_size := 0 |}.

(** The fields of [SMProblem] (lines 111-134).  [data_slices] is the array
    of pointers that the field points to: an element is [Some] slice once
    it has been assigned the address of one, and [None] while its value is
    indeterminate, as it is after [new DataSlice*[n]].  [d_data_slices] is
    the length of the array that field points to.  [gpu_idx] is
    [gpu_idx[0]]. *)
Record problem : Type := {
  num_gpus : Z;
  nodes_query : Z;
  edges_query : Z;
  nodes_data : Z;
  edges_data : Z;
  vertex_cover_size : Z;
  num_matches : Z;
  gpu_idx : Z;
  data_slices : list (option DataSlice.t);
  d_data_slices : Z
}.

(** How a run can leave a member function without returning from it. *)
Inductive abort : Type :=
| negative_length (n : Z)
    (* [new T[n]] with [n < 0]: the allocation throws *)
| past_the_end (index length : Z)
    (* a store to the element [index] of an array of [length <= index]
       elements: undefined *)
| no_slice (index : Z).
    (* [data_slices[index]->...] where [index] is outside the array or the
       element was never assigned: undefined *)

(** What a member function acts on: the object, the local [retval], the
    calls made so far (oldest first), the contents of [d_c_set] on the device
    and the contents of the caller's host buffer [h_c_set]; [aborted] is
    set once the run has left the function without returning, and what the
    program does from there on is not described. *)
Record world : Type := {
  this : problem;
  retval : cudaError_t;
  trace : list op;
  device_c_set : list bool;
  host_c_set : list bool;
  aborted : option abort
}.

(** A member function body: it either falls through with a value or has
    executed [return r]. *)
Definition host (A : Type) : Type := world -> (cudaError_t + A) * world.

Definition ret {A : Type} (v : A) : host A := fun w => (inr v, w).

Definition seq_host {A B : Type} (m : host A) (k : A -> host B) : host B :=
  fun w =>
    match m w with
    | (inl r, w') => (inl r, w')
    | (inr v, w') => k v w'
    end.

Notation "x <~ m ;;; k" := (seq_host m (fun x => k))
  (at level 61, m at next level, right associativity).
Notation "m ;;; k" := (seq_host m (fun _ => k))
  (at level 61, right associativity).

Definition log (o : op) (w : world) : world :=
  {| this := this w; retval := retval w; trace := trace w ++ [o];
     device_c_set := device_c_set w; host_c_set := host_c_set w;
     aborted := aborted w |}.

Definition set_retval (r : cudaError_t) (w : world) : world :=
  {| this := this w; retval := r; trace := trace w;
     device_c_set := device_c_set w; host_c_set := host_c_set w;
     aborted := aborted w |}.

Definition set_this (f : problem -> problem) (w : world) : world :=
  {| this := f (this w); retval := retval w; trace := trace w;
     device_c_set := device_c_set w; host_c_set := host_c_set w;
     aborted := aborted w |}.

Definition set_device_c_set (l : list bool) (w : world) : world :=
  {| this := this w; retval := retval w; trace := trace w;
     device_c_set := l; host_c_set := host_c_set w;
     aborted := aborted w |}.

Definition set_aborted (c : abort) (w : world) : world :=
  {| this := this w; retval := retval w; trace := trace w;
     device_c_set := device_c_set w; host_c_set := host_c_set w;
     aborted := Some c |}.

(** [false] stored in the first [n] elements of an array. *)
Definition cleared (n : Z) (l : list bool) : list bool :=
  map (fun _ => false) (firstn (Z.to_nat n) l) ++ skipn (Z.to_nat n) l.

(** Modelled from the spec: [util::Array1D] and [util::MemsetKernel] are
    not part of the two files.  A successful [Move(util::DEVICE,
    util::HOST)] on [d_c_set] is the single blocking transfer that copies
    the bitmask from the device into the host buffer installed by
    [SetPointer]; a successful [Allocate(n, util::DEVICE)] on [d_c_set]
    gives the array [n] new elements on the device, of indeterminate
    contents; [MemsetKernel] on [d_c_set] (lines 407-410, "Initialize
    candidate set boolean matrix to false") stores [false] in its first
    [n] elements.  Other calls leave the two buffers of the model alone. *)
Definition effect (d : device) (o : op) (w : world) : world :=
  match o with
  | Move _ d_c_set DEVICE HOST =>
      if status d o =? cudaSuccess
      then {| this := this w; retval := retval w; trace := trace w;
              device_c_set := device_c_set w;
              host_c_set := device_c_set w;
              aborted := aborted w |}
      else w
  | Allocate _ d_c_set n =>
      if status d o =? cudaSuccess
      then set_device_c_set (map (uninitialised d) (Zrange n)) w
      else w
  | MemsetKernel _ d_c_set n =>
      set_device_c_set (cleared n (device_c_set w)) w
  | _ => w
  end.

(** A call whose status the source ignores. *)
Definition exec (d : device) (o : op) : host unit :=
  fun w => (inr tt, effect d o (log o w)).

(** [if (retval = o) return retval;] *)
Definition check (d : device) (o : op) : host unit :=
  fun w =>
    let w' := set_retval (status d o) (effect d o (log o w)) in
    if negb (retval w' =? 0) then (inl (retval w'), w') else (inr tt, w').

Definition modify (f : problem -> problem) : host unit :=
  fun w => (inr tt, set_this f w).

Definition get_this : host problem := fun w => (inr (this w), w).

(** [return retval;] *)
Definition return_retval {A : Type} : host A := fun w => (inl (retval w), w).

(** Running a member function: the status it returns and the final world. *)
Definition run (m : host unit) (w : world) : cudaError_t * world :=
  match m w with
  | (inl r, w') => (r, w')
  | (inr _, w') => (retval w', w')
  end.

(** [data_slices[s]] as a pointer to a slice: the slice it points to, when
    [s] is an index of the array and the element has been assigned. *)
Definition slice_at (p : problem) (s : Z) : option DataSlice.t :=
  if s <? 0 then None
  else match nth_error (data_slices p) (Z.to_nat s) with
       | Some (Some v) => Some v
       | _ => None
       end.

(** The evaluation of the operands of an action on the object [p]: [None]
    when it is defined, the way the run leaves the function otherwise: a
    negative array length, a store to element 0 of an array without
    elements (lines 291, 308 and 310), or the use of [data_slices[s]] as a
    pointer to a slice when it is none. *)
Definition undefined_at (p : problem) (o : op) : option abort :=
  match o with
  | new_data_slices n | new_d_data_slices n | new_streams n =>
      if n <? 0 then Some (negative_length n) else None
  | assign_streams_0 n =>
      if 0 <? n then None else Some (past_the_end 0 n)
  | new_DataSlice =>
      let n := Z.of_nat (length (data_slices p)) in
      if 0 <? n then None else Some (past_the_end 0 n)
  | cudaMalloc_d_data_slices =>
      if 0 <? d_data_slices p then None
      else Some (past_the_end 0 (d_data_slices p))
  | _ =>
      match slice_of o with
      | Some s =>
          match slice_at p s with
          | Some _ => None
          | None => Some (no_slice s)
          end
      | None => None
      end
  end.

(** The run leaves the function without returning. *)
Definition abort_with {A : Type} (c : abort) : host A :=
  fun w => (inl (retval w), set_aborted c w).

(** An action of [Init], which sets up the arrays it indexes itself: the
    action takes place if the evaluation of its operands is defined. *)
Definition defined (o : op) (m : host unit) : host unit :=
  fun w =>
    match undefined_at (this w) o with
    | Some c => abort_with c w
    | None => m w
    end.

Definition do_exec (d : device) (o : op) : host unit := defined o (exec d o).

Definition do_check (d : device) (o : op) : host unit :=
  defined o (check d o).

(** Lines 248-253. *)
Definition Init_sizes (pf : platform) (graph_query graph_data : Csr)
    (_num_gpus : Z) (p : problem) : problem :=
  {| num_gpus := _num_gpus;
     nodes_query := nodes graph_query;
     edges_query := edges graph_query;
     nodes_data := nodes graph_data;
     edges_data := edges graph_data;
     vertex_cover_size := Z.quot (sizeof_pointer pf) (sizeof_VertexId pf);
     num_matches := num_matches p;
     gpu_idx := gpu_idx p;
     data_slices := data_slices p;
     d_data_slices := d_data_slices p |}.

Definition set_gpu_idx (gpu : Z) (p : problem) : problem :=
  {| num_gpus := num_gpus p; nodes_query := nodes_query p;
     edges_query := edges_query p; nodes_data := nodes_data p;
     edges_data := edges_data p; vertex_cover_size := vertex_cover_size p;
     num_matches := num_matches p; gpu_idx := gpu;
     data_slices := data_slices p; d_data_slices := d_data_slices p |}.

Definition set_data_slices (l : list (option DataSlice.t)) (p : problem)
  : problem :=
  {| num_gpus := num_gpus p; nodes_query := nodes_query p;
     edges_query := edges_query p; nodes_data := nodes_data p;
     edges_data := edges_data p; vertex_cover_size := vertex_cover_size p;
     num_matches := num_matches p; gpu_idx := gpu_idx p;
     data_slices := l; d_data_slices := d_data_slices p |}.

Definition set_d_data_slices (n : Z) (p : problem) : problem :=
  {| num_gpus := num_gpus p; nodes_query := nodes_query p;
     edges_query := edges_query p; nodes_data := nodes_data p;
     edges_data := edges_data p; vertex_cover_size := vertex_cover_size p;
     num_matches := num_matches p; gpu_idx := gpu_idx p;
     data_slices := data_slices p; d_data_slices := n |}.

Definition set_num_matches (n : Z) (p : problem) : problem :=
  {| num_gpus := num_gpus p; nodes_query := nodes_query p;
     edges_query := edges_query p; nodes_data := nodes_data p;
     edges_data := edges_data p; vertex_cover_size := vertex_cover_size p;
     num_matches := n; gpu_idx := gpu_idx p;
     data_slices := data_slices p; d_data_slices := d_data_slices p |}.

(** The list [l] with its element [n] replaced by [v]. *)
Fixpoint replace_nth {A : Type} (n : nat) (v : A) (l : list A) : list A :=
  match l, n with
  | [], _ => []
  | _ :: l', O => v :: l'
  | x :: l', S n' => x :: replace_nth n' v l'
  end.

(** [data_slices[s]] made to point to the slice [v] (line 308), or the
    slice it points to replaced by [v] (lines 432-436). *)
Definition set_slice (s : Z) (v : DataSlice.t) (p : problem) : problem :=
  set_data_slices (replace_nth (Z.to_nat s) (Some v) (data_slices p)) p.

(** Lines 432-436: the slice [data_slices[s]] with the sizes of the
    object. *)
Definition slice_sizes (s : Z) (p : problem) : DataSlice.t :=
  {| DataSlice.nodes_data := nodes_data p;
     DataSlice.nodes_query := nodes_query p;
     DataSlice.edges_data := edges_data p;
     DataSlice.edges_query := edges_query p;
     DataSlice.iteration :=
       match slice_at p s with
       | Some v => DataSlice.iteration v
       | None => 0
       end;
     DataSlice.vertex_cover_size := vertex_cover_size p |}.

(** [SMProblem::Init], lines 239-448, called without the optional argument
    [streams] (its default is [NULL], so that lines 290-291 are run).
    [h_vertex_cover] is the vertex cover the caller passes; the function
    receives a pointer to it.  The [malloc] of line 298 is taken to
    succeed. *)
Definition Init (d : device) (pf : platform) (stream_from_host : bool)
    (graph_query graph_data : Csr)
    (h_query_labels h_data_labels h_vertex_cover : list Z)
    (_num_gpus : Z) : host unit :=
  modify (Init_sizes pf graph_query graph_data _num_gpus) ;;;
  exec d (ProblemBase_Init graph_query) ;;;
  exec d (ProblemBase_Init graph_data) ;;;
  (fun w => (inr tt, set_retval cudaSuccess w)) ;;;
  p <~ get_this ;;;
  do_exec d (new_data_slices (num_gpus p)) ;;;
  modify (set_data_slices (repeat None (Z.to_nat (num_gpus p)))) ;;;
  do_exec d (new_d_data_slices (num_gpus p)) ;;;
  modify (set_d_data_slices (num_gpus p)) ;;;
  do_exec d (new_streams (num_gpus p)) ;;;
  do_exec d (assign_streams_0 (num_gpus p)) ;;;
  (if num_gpus p <=? 1 then
     let gpu := current_gpu d in
     do_check d cudaGetDevice ;;;                 (* [break], then line 447 *)
     modify (set_gpu_idx gpu) ;;;
     do_exec d new_DataSlice ;;;
     modify (set_slice 0 DataSlice_new) ;;;
     do_check d cudaMalloc_d_data_slices ;;;
     do_exec d streams_SetPointer ;;;
     do_exec d (DataSliceBase_Init graph_query) ;;;
     do_exec d (DataSliceBase_Init graph_data) ;;;
     do_check d (Allocate gpu labels (nodes_query p)) ;;;
     do_check d (Allocate gpu d_query_labels (nodes_query p)) ;;;
     do_check d (Allocate gpu d_data_labels (nodes_data p)) ;;;
     do_check d (Allocate gpu d_query_nodeIDs (nodes_query p)) ;;;
     do_check d (Allocate gpu d_query_edgeIDs (edges_query p)) ;;;
     do_check d (Allocate gpu d_query_row (nodes_query p + 1)) ;;;
     do_check d (Allocate gpu d_query_col (edges_query p)) ;;;
     do_check d (Allocate gpu d_edge_weights (edges_query p)) ;;;
     do_check d (Allocate gpu d_c_set (nodes_query p * nodes_data p)) ;;;
     do_check d (Allocate gpu d_query_degrees (nodes_query p)) ;;;
     do_check d (Allocate gpu d_data_degrees (nodes_data p)) ;;;
     do_check d (Allocate gpu d_temp_keys (nodes_data p)) ;;;
     do_check d (Allocate gpu d_vertex_cover (nodes_query p)) ;;;
     do_exec d (MemsetKernel gpu labels (nodes_query p)) ;;;
     do_exec d (SetPointer gpu d_query_labels) ;;;
     do_check d (Move gpu d_query_labels HOST DEVICE) ;;;
     do_exec d (SetPointer gpu d_data_labels) ;;;
     do_check d (Move gpu d_data_labels HOST DEVICE) ;;;
     do_exec d (SetPointer gpu d_vertex_cover) ;;;
     do_check d (Move gpu d_vertex_cover HOST DEVICE) ;;;
     do_exec d (MemsetIdxKernel gpu d_query_nodeIDs (nodes_query p)) ;;;
     do_exec d (MemsetIdxKernel gpu d_query_edgeIDs (edges_query p)) ;;;
     do_exec d (SetPointer gpu d_query_row) ;;;
     do_check d (Move gpu d_query_row HOST DEVICE) ;;;
     do_exec d (SetPointer gpu d_query_col) ;;;
     do_check d (Move gpu d_query_col HOST DEVICE) ;;;
     do_exec d (MemsetKernel gpu d_edge_weights (edges_query p)) ;;;
     do_exec d (MemsetKernel gpu d_c_set (nodes_query p * nodes_data p)) ;;;
     do_exec d (MemsetKernel gpu d_temp_keys (nodes_data p)) ;;;
     do_exec d (GetNodeDegree graph_query) ;;;
     do_exec d (SetPointer gpu d_query_degrees) ;;;
     do_check d (Move gpu d_query_degrees HOST DEVICE) ;;;
     do_exec d (GetNodeDegree graph_data) ;;;
     do_exec d (SetPointer gpu d_data_degrees) ;;;
     do_check d (Move gpu d_data_degrees HOST DEVICE) ;;;
     do_exec d (assign_slice_sizes gpu) ;;;
     modify (fun p => set_slice gpu (slice_sizes gpu p) p) ;;;
     do_exec d delete_host_arrays
   else ret tt) ;;;
  return_retval.

(** [SMProblem::Extract], lines 207-228, on an object whose
    [data_slices[0]] points to a slice. *)
Definition Extract (d : device) : host unit :=
  (fun w => (inr tt, set_retval cudaSuccess w)) ;;;
  p <~ get_this ;;;
  (if num_gpus p =? 1 then
     check d (SetDevice (gpu_idx p)) ;;;
     exec d (SetPointer 0 d_c_set) ;;;
     check d (Move 0 d_c_set DEVICE HOST) ;;;
     modify (set_num_matches 0)
   else ret tt) ;;;
  return_retval.

(** The world in which a member function is entered. *)
Definition enter (p : problem) (on_device on_host : list bool) : world :=
  {| this := p; retval := cudaSuccess; trace := [];
     device_c_set := on_device; host_c_set := on_host; aborted := None |}.

(** The actions of [Init], in order, when every call succeeds. *)
Definition Init_sequence (gpu : Z) (pf : platform) (stream_from_host : bool)
    (graph_query graph_data : Csr)
    (h_query_labels h_data_labels h_vertex_cover : list Z)
    (_num_gpus : Z) (p : problem) : list op :=
  trace (snd (run (Init {| status := fun _ => cudaSuccess;
                           current_gpu := gpu;
                           uninitialised := fun _ => false |}
                     pf stream_from_host graph_query graph_data
                     h_query_labels h_data_labels h_vertex_cover _num_gpus)
                (enter p [] []))).

(** *** Straight-line bodies as lists of steps

    The body of [Init] is straight-line.  To reason about all its early
    returns at once, the facts below run it as the list [Init_steps];
    lemma [Init_as_steps] shows that running the list is running [Init]. *)

(** A step: an action, an assignment to the object, or the initialisation
    of [retval]. *)
Inductive step : Type :=
| Call (o : op)
| Assign (f : problem -> problem)
| InitRetval.

Definition do_step (d : device) (s : step) : host unit :=
  match s with
  | Call o => if checked o then do_check d o else do_exec d o
  | Assign f => modify f
  | InitRetval => fun w => (inr tt, set_retval cudaSuccess w)
  end.

Fixpoint run_steps (d : device) (l : list step) : host unit :=
  match l with
  | [] => ret tt
  | s :: l' => seq_host (do_step d s) (fun _ => run_steps d l')
  end.

Definition calls (l : list step) : list op :=
  flat_map (fun s => match s with Call o => [o] | _ => [] end) l.

(** The evaluation of the operands of every action of the list [l] is
    defined when the list is run on the object [p]: the object evolves by
    the assignments of the list, whatever the statuses of the calls are. *)
Fixpoint all_defined (l : list step) (p : problem) : bool :=
  match l with
  | [] => true
  | Call o :: l' =>
      match undefined_at p o with
      | None => all_defined l' p
      | Some _ => false
      end
  | Assign f :: l' => all_defined l' (f p)
  | InitRetval :: l' => all_defined l' p
  end.

(** The steps of lines 248-292 of [Init]. *)
Definition Init_entry_steps (pf : platform) (graph_query graph_data : Csr)
    (_num_gpus : Z) : list step :=
  [ Assign (Init_sizes pf graph_query graph_data _num_gpus);
    Call (ProblemBase_Init graph_query);
    Call (ProblemBase_Init graph_data);
    InitRetval;
    Call (new_data_slices _num_gpus);
    Assign (set_data_slices (repeat None (Z.to_nat _num_gpus)));
    Call (new_d_data_slices _num_gpus);
    Assign (set_d_data_slices _num_gpus);
    Call (new_streams _num_gpus);
    Call (assign_streams_0 _num_gpus) ].

(** The steps of lines 298-441 of [Init], [gpu] being the current
    device. *)
Definition Init_slice_steps (gpu : Z) (graph_query graph_data : Csr)
  : list step :=
  let nq := nodes graph_query in
  let eq := edges graph_query in
  let nd := nodes graph_data in
  [ Call cudaGetDevice;
    Assign (set_gpu_idx gpu);
    Call new_DataSlice;
    Assign (set_slice 0 DataSlice_new);
    Call cudaMalloc_d_data_slices;
    Call streams_SetPointer;
    Call (DataSliceBase_Init graph_query);
    Call (DataSliceBase_Init graph_data);
    Call (Allocate gpu labels nq);
    Call (Allocate gpu d_query_labels nq);
    Call (Allocate gpu d_data_labels nd);
    Call (Allocate gpu d_query_nodeIDs nq);
    Call (Allocate gpu d_query_edgeIDs eq);
    Call (Allocate gpu d_query_row (nq + 1));
    Call (Allocate gpu d_query_col eq);
    Call (Allocate gpu d_edge_weights eq);
    Call (Allocate gpu d_c_set (nq * nd));
    Call (Allocate gpu d_query_degrees nq);
    Call (Allocate gpu d_data_degrees nd);
    Call (Allocate gpu d_temp_keys nd);
    Call (Allocate gpu d_vertex_cover nq);
    Call (MemsetKernel gpu labels nq);
    Call (SetPointer gpu d_query_labels);
    Call (Move gpu d_query_labels HOST DEVICE);
    Call (SetPointer gpu d_data_labels);
    Call (Move gpu d_data_labels HOST DEVICE);
    Call (SetPointer gpu d_vertex_cover);
    Call (Move gpu d_vertex_cover HOST DEVICE);
    Call (MemsetIdxKernel gpu d_query_nodeIDs nq);
    Call (MemsetIdxKernel gpu d_query_edgeIDs eq);
    Call (SetPointer gpu d_query_row);
    Call (Move gpu d_query_row HOST DEVICE);
    Call (SetPointer gpu d_query_col);
    Call (Move gpu d_query_col HOST DEVICE);
    Call (MemsetKernel gpu d_edge_weights eq);
    Call (MemsetKernel gpu d_c_set (nq * nd));
    Call (MemsetKernel gpu d_temp_keys nd);
    Call (GetNodeDegree graph_query);
    Call (SetPointer gpu d_query_degrees);
    Call (Move gpu d_query_degrees HOST DEVICE);
    Call (GetNodeDegree graph_data);
    Call (SetPointer gpu d_data_degrees);
    Call (Move gpu d_data_degrees HOST DEVICE);
    Call (assign_slice_sizes gpu);
    Assign (fun p => set_slice gpu (slice_sizes gpu p) p);
    Call delete_host_arrays ].

(** The steps of [Init], in the order of the source. *)
Definition Init_steps (gpu : Z) (pf : platform) (graph_query graph_data : Csr)
    (_num_gpus : Z) : list step :=
  Init_entry_steps pf graph_query graph_data _num_gpus
  ++ (if _num_gpus <=? 1 then Init_slice_steps gpu graph_query graph_data
      else []).

(** *** Sample inputs *)

(** The query graph 0->1 and a data graph of three nodes and four edges. *)
Definition query_graph : Csr :=
  {| nodes := 2; edges := 1; row_offsets := [0; 1; 1];
     column_indices := [1] |}.

Definition data_graph : Csr :=
  {| nodes := 3; edges := 4; row_offsets := [0; 2; 3; 4];
     column_indices := [1; 2; 2; 0] |}.

(** A 64-bit host with 32-bit vertex ids, and one with 64-bit vertex ids. *)
Definition lp64_int32 : platform := {| sizeof_pointer := 8; sizeof_VertexId := 4 |}.
Definition lp64_int64 : platform := {| sizeof_pointer := 8; sizeof_VertexId := 8 |}.

(** A device on which every call succeeds; its current GPU is number 0 and
    its new memory holds [true] everywhere. *)
Definition healthy : device :=
  {| status := fun _ => cudaSuccess; current_gpu := 0;
     uninitialised := fun _ => true |}.

(** A device that is out of memory when [d_c_set] is allocated
    ([cudaErrorMemoryAllocation] is 2). *)
Definition out_of_memory : device :=
  {| status := fun o => match o with Allocate _ d_c_set _ => 2 | _ => cudaSuccess end;
     current_gpu := 0;
     uninitialised := fun _ => true |}.

(** A device that cannot be selected ([cudaErrorInvalidDevice] is 101). *)
Definition unselectable : device :=
  {| status := fun o => match o with SetDevice _ => 101 | _ => cudaSuccess end;
     current_gpu := 0;
     uninitialised := fun _ => true |}.

(** A device on which every call succeeds and whose current GPU is
    number 1. *)
Definition second_gpu : device :=
  {| status := fun _ => cudaSuccess; current_gpu := 1;
     uninitialised := fun _ => true |}.

(** A problem on one GPU that has recorded five matches. *)
Definition five_matches : problem :=
  {| num_gpus := 1; nodes_query := 2; edges_query := 1; nodes_data := 3;
     edges_data := 4; vertex_cover_size := 2; num_matches := 5; gpu_idx := 0;
     data_slices := [Some DataSlice_new]; d_data_slices := 1 |}.

(** The same problem split over two GPUs. *)
Definition two_gpus : problem :=
  {| num_gpus := 2; nodes_query := 2; edges_query := 1; nodes_data := 3;
     edges_data := 4; vertex_cover_size := 2; num_matches := 5; gpu_idx := 0;
     data_slices := [Some DataSlice_new; Some DataSlice_new];
     d_data_slices := 2 |}.

(** A problem before [Init], and the world in which it is initialised. *)
Definition blank : problem :=
  {| num_gpus := 0; nodes_query := 0; edges_query := 0; nodes_data := 0;
     edges_data := 0; vertex_cover_size := 0; num_matches := 0; gpu_idx := 0;
     data_slices := []; d_data_slices := 0 |}.

Definition start : world := enter blank [] [].

End SMProblem.

(* ------------------------------------------------------------------ *)
(** ** Launches of more than one thread *)
(* ------------------------------------------------------------------ *)

(** The sum of [f] over a list. *)
Definition Zsum {A : Type} (f : A -> Z) (l : list A) : Z :=
  fold_right Z.add 0 (map f l).

Module Grid.

(** Thread number [i] of the launch [<<<G, B>>>], the threads being
    numbered block after block. *)
Definition thread_of (G B i : Z) : thread :=
  {| gridDim_x := G; blockDim_x := B;
     blockIdx_x := i / B; threadIdx_x := i mod B |}.

(** The threads of the launch [<<<G, B>>>]. *)
Definition launch (G B : Z) : list thread :=
  map (thread_of G B) (Zrange (G * B)).

(** [t] is a thread of the launch [<<<G, B>>>]. *)
Definition in_launch (G B : Z) (t : thread) : Prop :=
  gridDim_x t = G /\ blockDim_x t = B /\
  0 <= blockIdx_x t < G /\ 0 <= threadIdx_x t < B.

End Grid.

(* ------------------------------------------------------------------ *)
(** ** join.cuh: the Join kernel under a launch of several threads *)
(* ------------------------------------------------------------------ *)

Module JoinLaunch.
Import JoinKernel.

(** One schedule of a launch: the threads of [ts] run to completion one
    after another, in the order of the list, on the same global memory;
    [bufs] gives each thread the indeterminate initial contents of its own
    [edge_id]. *)
Fixpoint Join_threads (fuel : nat) (ts : list thread) (a : args) (g : global)
    (bufs : thread -> mem) : outcome global :=
  match ts with
  | [] => Done g
  | t :: ts' =>
      g' <- Join fuel t a g (bufs t) ;;
      Join_threads fuel ts' a g' bufs
  end.

(** The number of valid tuples among the tuple indices of the list [l]. *)
Definition valid_among (a : args) (l : list Z) : Z :=
  Z.of_nat (length (filter (fun x => tuple_valid_b a (Join_tuple a x)) l)).

(** The tuple indices below [size] in the residue class [r] modulo
    [STRIDE]. *)
Definition class_indices (STRIDE r size : Z) : list Z :=
  filter (fun y => y mod STRIDE =? r) (Zrange size).

(** The number of valid tuples that precede the tuple index [x]. *)
Definition rank (a : args) (x : Z) : Z := valid_count a 0 (Z.to_nat x).

(** A launch whose number of threads is [2 ^ 32]. *)
Definition overfull : thread :=
  {| gridDim_x := 4194304; blockDim_x := 1024; blockIdx_x := 0;
     threadIdx_x := 0 |}.

(** The triangle query with no candidate for its second query edge. *)
Definition no_second_candidate : args :=
  {| VertexId := int32; SizeT := int32;
     edges_data := 4; edges_query := 3;
     pos := of_list [4; 4; 8];
     intersect := of_list [2; 0; 0; 1; 2; 0];
     froms := of_list [0; 1; 2; 3];
     tos := of_list [1; 2; 0; 0];
     edges := of_list [0; 1; 2; 3; 0; 1; 2; 3] |}.


(** An empty query over three candidates. *)
Definition no_query_edge : args :=
  {| VertexId := int32; SizeT := int32;
     edges_data := 4; edges_query := 0;
     pos := of_list [3];
     intersect := of_list [];
     froms := of_list [0; 1; 2; 3];
     tos := of_list [1; 2; 0; 0];
     edges := of_list [0; 1; 2] |}.

End JoinLaunch.

(* ------------------------------------------------------------------ *)
(** ** join.cuh: the Update kernel on an arbitrary array, and its result
    as the input of Join *)
(* ------------------------------------------------------------------ *)

Module UpdateAny.
Import UpdateKernel.

(** The state [g] reached from [g0] once the positions [0 .. k-1] of an
    array of length [n] have been processed, whatever the array holds: the
    positions processed are de-tagged and no other is touched; the entry of
    the table for a tag holds the end of the last run of the tag that ends
    before [k], and is untouched when there is no such run. *)
Definition scanned (edges_data n : Z) (g0 : global) (k : Z) (g : global)
  : Prop :=
  (forall y, ~ 0 <= y < k -> indices g y = indices g0 y) /\
  (forall y, 0 <= y < k -> indices g y = Z.rem (indices g0 y) edges_data) /\
  (forall i,
     (forall y, 0 <= y < k -> run_end edges_data n g0 y ->
        tag_of edges_data (indices g0 y) <> i) ->
     pos g i = pos g0 i) /\
  (forall y, 0 <= y < k -> run_end edges_data n g0 y ->
     (forall z, y < z < k -> run_end edges_data n g0 z ->
        tag_of edges_data (indices g0 z) <> tag_of edges_data (indices g0 y)) ->
     pos g (tag_of edges_data (indices g0 y)) = y + 1).

(** The arguments of [Join] when the offset table and the candidate array
    are the ones [Update] left in [g]. *)
Definition Join_input (VertexId SizeT : int_type) (edges_data edges_query : Z)
    (g : global) (intersect froms tos : mem) : JoinKernel.args :=
  {| JoinKernel.VertexId := VertexId;
     JoinKernel.SizeT := SizeT;
     JoinKernel.edges_data := edges_data;
     JoinKernel.edges_query := edges_query;
     JoinKernel.pos := pos g;
     JoinKernel.intersect := intersect;
     JoinKernel.froms := froms;
     JoinKernel.tos := tos;
     JoinKernel.edges := indices g |}.

(** The sample array [tagged] followed by a seventh entry. *)
Definition tagged_and_more : global :=
  {| indices := of_list [1; 3; 4; 6; 7; 10; 99];
     pos := pos tagged |}.

(** Six candidates whose tags are not sorted: the tag 1 has two runs and
    the tag 3 has none. *)
Definition unsorted : global :=
  {| indices := of_list [1; 5; 9; 6; 2; 10];
     pos := of_list [6; 77; 77; 77] |}.

End UpdateAny.

(* ------------------------------------------------------------------ *)
(** ** join.cuh: the Label kernel under a launch of several threads *)
(* ------------------------------------------------------------------ *)

Module LabelLaunch.
Import LabelKernel.

(** One schedule of a launch: the threads of [ts] run to completion one
    after another, in the order of the list, on the same [label] array. *)
Fixpoint Label_threads (fuel : nat) (ts : list thread) (a : args)
    (label : mem) : outcome mem :=
  match ts with
  | [] => Done label
  | t :: ts' =>
      label' <- Label fuel t a label ;;
      Label_threads fuel ts' a label'
  end.

(** The data edge [y] passes the test of lines 177-178 for the query edge
    [i], and [j] is the index that line 179 writes for them. *)
Definition hits (a : args) (y i j : Z) : Prop :=
  0 <= i < edges_query a /\
  Label_test a y (froms_query a i) (tos_query a i) = true /\
  j = label_index a y i.

(** [j] is written by a thread that starts at [x0] and advances by
    [STRIDE]. *)
Definition marks (a : args) (x0 STRIDE : Z) (j : Z) : Prop :=
  exists y i,
    x0 <= y < d_query_row a 0 /\ (y - x0) mod STRIDE = 0 /\ hits a y i j.

(** [j] is written for some data edge below the loop bound. *)
Definition marked (a : args) (j : Z) : Prop :=
  exists y i, 0 <= y < d_query_row a 0 /\ hits a y i j.

(** Three data edges 0->1, 1->2, 2->0 of which the first two are candidates
    of the only query edge 0->1; the loop bound is 3. *)
Definition three_edges : args :=
  {| VertexId := int32; SizeT := int32;
     froms_data := of_list [0; 1; 2]; tos_data := of_list [1; 2; 0];
     froms_query := of_list [0]; tos_query := of_list [1];
     d_c_set := of_list [1; 3; 2];
     d_query_row := of_list [3];
     edges_data := 3; edges_query := 1 |}.

End LabelLaunch.

(* ------------------------------------------------------------------ *)
(** ** sm_problem.cuh: what the actions of Init and Extract address *)
(* ------------------------------------------------------------------ *)

Module SMProblemCalls.
Import SMProblem.

(** The object after the assignments of a list of steps, in order. *)
Definition assigned (l : list step) (p : problem) : problem :=
  fold_left (fun p s => match s with Assign f => f p | _ => p end) l p.

(** [x] occurs in [l] at an earlier position than [y]. *)
Definition before {A : Type} (x y : A) (l : list A) : Prop :=
  exists i j, (i < j)%nat /\ nth_error l i = Some x /\ nth_error l j = Some y.

(** What the action [o] leaves in [d_c_set] on the device when it takes
    place and its call succeeds, [l] being what the array held. *)
Definition device_c_set_after (d : device) (l : list bool) (o : op)
  : list bool :=
  match o with
  | Allocate _ d_c_set n => map (uninitialised d) (Zrange n)
  | MemsetKernel _ d_c_set n => cleared n l
  | _ => l
  end.

(** The actions of [Init], called for one GPU, up to the end of the
    creation of the data slice (lines 255-332). *)
Definition Init_creation (graph_query graph_data : Csr) : list op :=
  [ ProblemBase_Init graph_query; ProblemBase_Init graph_data;
    new_data_slices 1; new_d_data_slices 1; new_streams 1;
    assign_streams_0 1;
    cudaGetDevice; new_DataSlice; cudaMalloc_d_data_slices;
    streams_SetPointer; DataSliceBase_Init graph_query;
    DataSliceBase_Init graph_data ].

(** The sizes that lines 432-436 give the data slice. *)
Definition published (pf : platform) (graph_query graph_data : Csr)
  : DataSlice.t :=
  {| DataSlice.nodes_data := nodes graph_data;
     DataSlice.nodes_query := nodes graph_query;
     DataSlice.edges_data := edges graph_data;
     DataSlice.edges_query := edges graph_query;
     DataSlice.iteration := 0;
     DataSlice.vertex_cover_size :=
       Z.quot (sizeof_pointer pf) (sizeof_VertexId pf) |}.

End SMProblemCalls.

(* ------------------------------------------------------------------ *)
(** ** sm_problem.cuh: SMProblem::Reset and the two destructors *)
(* ------------------------------------------------------------------ *)

Module SMProblemReset.
Import SMProblem.

(** The actions of [Reset], [~SMProblem] and [~DataSlice] that the trace
    records.  An action that [Init] or [Extract] makes too is the [op]
    itself; [slice] is the index into [data_slices] and [d_data_slices]. *)
Inductive call : Type :=
| Shared (o : op)
| cudaSetDevice (gpu : Z)
| DataSlice_Reset (slice : Z)
| cudaMemcpy_data_slice (slice : Z)
| MemsetIdxKernel_frontier (n : Z)
| Release (slice : Z) (arr : array)
| cudaFree_d_data_slice (slice : Z)
| delete_d_data_slices
| delete_data_slices.

(** What the code behind the calls answers: the status of each call, and
    whether [GetPointer(util::DEVICE)] of an array of a slice is [NULL]. *)
Record runtime : Type := {
  status_of : call -> cudaError_t;
  device_pointer_is_null : Z -> array -> bool
}.

(** The fields of [SMProblem] that [problem] leaves out: the entries of
    [gpu_idx] after the first, and which of the pointers [d_data_slices[i]],
    [d_data_slices] and [data_slices] are not [NULL]. *)
Record pointers : Type := {
  gpu_idx_from_1 : mem;
  d_data_slice_set : Z -> bool;
  d_data_slices_set : bool;
  data_slices_set : bool
}.

(** [gpu_idx[i]]. *)
Definition gpu_idx_at (p : problem) (q : pointers) (i : Z) : Z :=
  if i =? 0 then gpu_idx p else gpu_idx_from_1 q i.

(** A member function body acts on the local [retval] and on the calls
    made so far; it either falls through with a value or has executed
    [return r]. *)
Definition act (A : Type) : Type :=
  cudaError_t * list call -> (cudaError_t + A) * (cudaError_t * list call).

Definition skip : act unit := fun s => (inr tt, s).

Definition then_ {A B : Type} (m : act A) (k : A -> act B) : act B :=
  fun s =>
    match m s with
    | (inl r, s') => (inl r, s')
    | (inr v, s') => k v s'
    end.

Notation "m ;;- k" := (then_ m (fun _ => k))
  (at level 61, right associativity).

(** A call whose status the source ignores. *)
Definition perform (c : call) : act unit :=
  fun s => (inr tt, (fst s, snd s ++ [c])).

(** [if (retval = c) return retval;] *)
Definition test (rt : runtime) (c : call) : act unit :=
  fun s =>
    let r := status_of rt c in
    if negb (r =? 0) then (inl r, (r, snd s ++ [c]))
    else (inr tt, (r, snd s ++ [c])).

(** [cudaError_t retval = cudaSuccess;] *)
Definition init_retval : act unit := fun s => (inr tt, (cudaSuccess, snd s)).

(** [return retval;] *)
Definition return_retval {A : Type} : act A := fun s => (inl (fst s), s).

(** Lines 478-513:
    [if (arr.GetPointer(util::DEVICE) == NULL)
       if (retval = arr.Allocate(n, util::DEVICE)) return retval;] *)
Definition allocate_if_null (rt : runtime) (gpu : Z) (arr : array) (n : Z)
  : act unit :=
  if device_pointer_is_null rt gpu arr
  then test rt (Shared (Allocate gpu arr n))
  else skip.

(** Lines 467-525: the body of the loop over the GPUs. *)
Definition Reset_gpu (rt : runtime) (p : problem) (q : pointers) (gpu : Z)
  : act unit :=
  test rt (cudaSetDevice (gpu_idx_at p q gpu)) ;;-
  perform (DataSlice_Reset gpu) ;;-
  allocate_if_null rt gpu labels (nodes_query p) ;;-
  allocate_if_null rt gpu d_c_set (nodes_query p * nodes_data p) ;;-
  allocate_if_null rt gpu d_query_labels (nodes_query p) ;;-
  allocate_if_null rt gpu d_data_labels (nodes_data p) ;;-
  allocate_if_null rt gpu d_query_row (nodes_query p + 1) ;;-
  allocate_if_null rt gpu d_query_col (edges_query p) ;;-
  allocate_if_null rt gpu d_query_degrees (nodes_query p) ;;-
  allocate_if_null rt gpu d_data_degrees (nodes_data p) ;;-
  allocate_if_null rt gpu d_temp_keys (nodes_data p) ;;-
  allocate_if_null rt gpu d_query_nodeIDs (nodes_query p) ;;-
  allocate_if_null rt gpu d_query_edgeIDs (edges_query p) ;;-
  allocate_if_null rt gpu d_vertex_cover (nodes_query p) ;;-
  test rt (cudaMemcpy_data_slice gpu).

(** Line 466: [for (int gpu = 0; gpu < num_gpus; ++gpu)], over the values
    [gpus] of [gpu]. *)
Fixpoint Reset_gpus (rt : runtime) (p : problem) (q : pointers)
    (gpus : list Z) : act unit :=
  match gpus with
  | [] => skip
  | gpu :: gpus' => Reset_gpu rt p q gpu ;;- Reset_gpus rt p q gpus'
  end.

(** [SMProblem::Reset], lines 456-532: the status returned and the calls
    made.  The arguments [frontier_type] and [queue_sizing] are only handed
    on to the [Reset] of the data slices. *)
Definition Reset (rt : runtime) (p : problem) (q : pointers)
  : cudaError_t * list call :=
  let body : act unit :=
    init_retval ;;-
    Reset_gpus rt p q (Zrange (num_gpus p)) ;;-
    perform (MemsetIdxKernel_frontier (nodes_data p)) ;;-
    return_retval in
  match body (cudaSuccess, []) with
  | (inl r, s) => (r, snd s)
  | (inr _, s) => (fst s, snd s)
  end.

(** Lines 174-184: the arrays that [~SMProblem] releases, in order. *)
Definition released_arrays : list array :=
  [ d_query_labels; d_data_labels; d_query_nodeIDs; d_query_edgeIDs;
    d_query_row; d_query_col; d_edge_weights; d_data_degrees;
    d_query_degrees; d_temp_keys; d_vertex_cover ].

(** Lines 167-191: [for (int i = 0; i < num_gpus; ++i)], over the values
    [gpus] of [i]; a failure of [cudaSetDevice] leaves the loop. *)
Fixpoint destroy_gpus (rt : runtime) (p : problem) (q : pointers)
    (gpus : list Z) : list call :=
  match gpus with
  | [] => []
  | i :: gpus' =>
      let set_device := cudaSetDevice (gpu_idx_at p q i) in
      if negb (status_of rt set_device =? 0) then [set_device]
      else
        set_device
        :: map (Release i) released_arrays
        ++ (if d_data_slice_set q i then [cudaFree_d_data_slice i] else [])
        ++ destroy_gpus rt p q gpus'
  end.

(** [~SMProblem()], lines 166-195: the calls made. *)
Definition SMProblem_destructor (rt : runtime) (p : problem) (q : pointers)
  : list call :=
  destroy_gpus rt p q (Zrange (num_gpus p))
  ++ (if d_data_slices_set q then [delete_d_data_slices] else [])
  ++ (if data_slices_set q then [delete_data_slices] else []).


(** The number of elements that lines 336-361 of [Init] allocate for each
    array. *)
Definition element_count (p : problem) (arr : array) : Z :=
  match arr with
  | labels | d_query_labels | d_query_nodeIDs | d_query_degrees
  | d_vertex_cover => nodes_query p
  | d_data_labels | d_data_degrees | d_temp_keys => nodes_data p
  | d_query_edgeIDs | d_query_col | d_edge_weights => edges_query p
  | d_query_row => nodes_query p + 1
  | d_c_set => nodes_query p * nodes_data p
  end.

(** *** Straight-line bodies as lists of items

    To reason about all the early returns of [Reset] at once, the facts
    run its body as a list of items, each a tested or an untested call. *)

Inductive item : Type :=
| Test (c : call)
| Do (c : call).

Definition call_of (it : item) : call :=
  match it with Test c | Do c => c end.

Definition is_test (it : item) : bool :=
  match it with Test _ => true | Do _ => false end.

Definition do_item (rt : runtime) (it : item) : act unit :=
  match it with
  | Test c => test rt c
  | Do c => perform c
  end.

Fixpoint run_items (rt : runtime) (its : list item) : act unit :=
  match its with
  | [] => skip
  | it :: its' => do_item rt it ;;- run_items rt its'
  end.

Definition allocate_item (rt : runtime) (gpu : Z) (arr : array) (n : Z)
  : list item :=
  if device_pointer_is_null rt gpu arr
  then [Test (Shared (Allocate gpu arr n))]
  else [].

(** The items of the body of the loop of [Reset], in the order of the
    source. *)
Definition Reset_gpu_items (rt : runtime) (p : problem) (q : pointers)
    (gpu : Z) : list item :=
  [ Test (cudaSetDevice (gpu_idx_at p q gpu)); Do (DataSlice_Reset gpu) ]
  ++ allocate_item rt gpu labels (nodes_query p)
  ++ allocate_item rt gpu d_c_set (nodes_query p * nodes_data p)
  ++ allocate_item rt gpu d_query_labels (nodes_query p)
  ++ allocate_item rt gpu d_data_labels (nodes_data p)
  ++ allocate_item rt gpu d_query_row (nodes_query p + 1)
  ++ allocate_item rt gpu d_query_col (edges_query p)
  ++ allocate_item rt gpu d_query_degrees (nodes_query p)
  ++ allocate_item rt gpu d_data_degrees (nodes_data p)
  ++ allocate_item rt gpu d_temp_keys (nodes_data p)
  ++ allocate_item rt gpu d_query_nodeIDs (nodes_query p)
  ++ allocate_item rt gpu d_query_edgeIDs (edges_query p)
  ++ allocate_item rt gpu d_vertex_cover (nodes_query p)
  ++ [ Test (cudaMemcpy_data_slice gpu) ].

Definition Reset_items (rt : runtime) (p : problem) (q : pointers)
  : list item :=
  flat_map (Reset_gpu_items rt p q) (Zrange (num_gpus p))
  ++ [ Do (MemsetIdxKernel_frontier (nodes_data p)) ].

(** The calls whose status [Reset] tests ([if (retval = ...)]). *)
Definition tested (c : call) : bool :=
  match c with
  | Shared (Allocate _ _ _) | cudaSetDevice _ | cudaMemcpy_data_slice _ => true
  | _ => false
  end.


(** *** Sample inputs *)

(** Every call succeeds and every array is allocated. *)
Definition all_set : runtime :=
  {| status_of := fun _ => cudaSuccess;
     device_pointer_is_null := fun _ _ => false |}.

(** Every call succeeds; the candidate set of slice 0 is not allocated. *)
Definition no_c_set : runtime :=
  {| status_of := fun _ => cudaSuccess;
     device_pointer_is_null :=
       fun s arr => match arr with d_c_set => s =? 0 | _ => false end |}.

(** The device number 1 cannot be selected. *)
Definition second_unselectable : runtime :=
  {| status_of :=
       fun c => match c with cudaSetDevice 1 => 101 | _ => cudaSuccess end;
     device_pointer_is_null := fun _ _ => false |}.

Definition all_pointers : pointers :=
  {| gpu_idx_from_1 := fun i => i;
     d_data_slice_set := fun _ => true;
     d_data_slices_set := true;
     data_slices_set := true |}.

End SMProblemReset.

(* ------------------------------------------------------------------ *)
(** ** join.cuh: the debug kernel *)
(* ------------------------------------------------------------------ *)

Module DebugKernel.

(** Lines 42-47, as run by thread [t]: the values that the thread hands to
    [printf] for the conversion [%d] (the text that is printed for them is
    the C library's). *)
Definition debug (t : thread) (counts : mem) : list Z :=
  let x := thread_x t in
  if x =? 0 then [counts 0] else [].

(** What the threads of [ts] hand to [printf], in the order of the list. *)
Definition debug_threads (ts : list thread) (counts : mem) : list Z :=
  flat_map (fun t => debug t counts) ts.

End DebugKernel.

(* ------------------------------------------------------------------ *)
(** * Facts *)
(* ------------------------------------------------------------------ *)

(* ------------------------------------------------------------------ *)
(** ** Facts about machine integers, memory and ranges *)
(* ------------------------------------------------------------------ *)

Lemma ull_range z : 0 <= ull z < 2 ^ 64.
Proof. unfold ull. apply Z.mod_pos_bound. lia. Qed.

Lemma ull_small z : 0 <= z < 2 ^ 64 -> ull z = z.
Proof. intros H. unfold ull. apply Z.mod_small. exact H. Qed.

Lemma ull_idem z : ull (ull z) = ull z.
Proof. apply ull_small, ull_range. Qed.

Lemma ull_add_l x y : ull (ull x + y) = ull (x + y).
Proof. unfold ull. apply Zplus_mod_idemp_l. Qed.

Lemma ull_add_inj base j k :
  0 <= j < 2 ^ 64 -> 0 <= k < 2 ^ 64 -> ull (base + j) = ull (base + k) -> j = k.
Proof.
  unfold ull. intros Hj Hk H.
  assert (E : (base + j - (base + k)) mod 2 ^ 64 = 0).
  { rewrite Zminus_mod, H, Z.sub_diag. reflexivity. }
  replace (base + j - (base + k)) with (j - k) in E by ring.
  apply Z.mod_divide in E; [| lia].
  destruct E as [q E].
  assert (q = 0) by nia. 
  subst q. lia.
Qed.

Lemma uint_small z : 0 <= z < 2 ^ 32 -> uint z = z.
Proof. intros H. unfold uint. apply Z.mod_small. exact H. Qed.

Lemma uint_range z : 0 <= uint z < 2 ^ 32.
Proof. unfold uint. apply Z.mod_pos_bound. lia. Qed.

Lemma bits_pos ty : 8 <= bits ty.
Proof. unfold bits. lia. Qed.

Lemma bits_range ty : min_value ty + 2 ^ bits ty = max_value ty + 1.
Proof.
  pose proof (bits_pos ty) as Hb. unfold min_value, max_value.
  destruct (is_signed ty); [| lia].
  assert (E : 2 ^ bits ty = 2 * 2 ^ (bits ty - 1)).
  { rewrite <- Z.pow_succ_r by lia. f_equal. lia. }
  lia.
Qed.

Lemma min_value_nonpos ty : min_value ty <= 0.
Proof.
  unfold min_value. destruct (is_signed ty); [| lia].
  pose proof (bits_pos ty).
  assert (0 < 2 ^ (bits ty - 1)) by (apply Z.pow_pos_nonneg; lia). lia.
Qed.

Lemma max_value_lower ty : 127 <= max_value ty.
Proof.
  pose proof (bits_pos ty) as Hb. unfold max_value.
  destruct (is_signed ty).
  - assert (2 ^ 7 <= 2 ^ (bits ty - 1)) by (apply Z.pow_le_mono_r; lia). lia.
  - assert (2 ^ 7 <= 2 ^ bits ty) by (apply Z.pow_le_mono_r; lia). lia.
Qed.

(** Conversion yields a value of the type, and leaves such a value as it
    is. *)
Lemma convert_fits ty z : fits ty (convert ty z).
Proof.
  unfold fits, convert. pose proof (bits_range ty) as Hr.
  pose proof (bits_pos ty) as Hb.
  assert (0 < 2 ^ bits ty) by (apply Z.pow_pos_nonneg; lia).
  pose proof (Z.mod_pos_bound (z - min_value ty) (2 ^ bits ty)). lia.
Qed.

Lemma convert_small ty z : fits ty z -> convert ty z = z.
Proof.
  unfold fits, convert. intros Hz. pose proof (bits_range ty) as Hr.
  rewrite Z.mod_small by lia. ring.
Qed.

Lemma convert_0 ty : convert ty 0 = 0.
Proof.
  apply convert_small. unfold fits.
  pose proof (min_value_nonpos ty). pose proof (max_value_lower ty). lia.
Qed.

Lemma convert_1 ty : convert ty 1 = 1.
Proof.
  apply convert_small. unfold fits.
  pose proof (min_value_nonpos ty). pose proof (max_value_lower ty). lia.
Qed.

(** Conversion never increases a value that is not negative. *)
Lemma convert_le ty z : 0 <= z -> convert ty z <= z.
Proof.
  intros Hz. unfold convert. pose proof (min_value_nonpos ty) as Hm.
  pose proof (bits_pos ty) as Hb.
  assert (0 < 2 ^ bits ty) by (apply Z.pow_pos_nonneg; lia).
  pose proof (Z.mod_le (z - min_value ty) (2 ^ bits ty)). lia.
Qed.

Lemma convert_congruent ty z : (convert ty z - z) mod 2 ^ bits ty = 0.
Proof.
  unfold convert. pose proof (bits_pos ty) as Hb.
  assert (H0 : 0 < 2 ^ bits ty) by (apply Z.pow_pos_nonneg; lia).
  rewrite (Z.mod_eq (z - min_value ty)) by lia.
  replace (z - min_value ty
           - 2 ^ bits ty * ((z - min_value ty) / 2 ^ bits ty)
           + min_value ty - z)
    with (- ((z - min_value ty) / 2 ^ bits ty) * 2 ^ bits ty) by ring.
  apply Z.mod_mul. lia.
Qed.

(** In [Update] the [SizeT] stride is added to the [unsigned int x]: for a
    [SizeT] of at least four bytes the sum is that of [x] and the
    [unsigned int] product. *)
Lemma uint_add_convert ty x z :
  32 <= bits ty -> uint (x + convert ty z) = uint (x + z).
Proof.
  intros Hb. unfold uint.
  pose proof (convert_congruent ty z) as Hc.
  assert (H32 : (convert ty z - z) mod 2 ^ 32 = 0).
  { apply Z.mod_divide in Hc; [| apply Z.pow_nonzero; lia].
    apply Z.mod_divide; [lia |].
    apply (Z.divide_trans _ (2 ^ bits ty)); [| exact Hc].
    exists (2 ^ (bits ty - 32)). rewrite <- Z.pow_add_r by lia.
    f_equal. lia. }
  replace (x + convert ty z) with (x + z + (convert ty z - z)) by ring.
  rewrite Z.add_mod, H32, Z.add_0_r, Z.mod_mod by lia. reflexivity.
Qed.

Lemma store_same m i v : store m i v i = v.
Proof. unfold store. rewrite Z.eqb_refl. reflexivity. Qed.

Lemma store_other m i v j : j <> i -> store m i v j = m j.
Proof. intros H. unfold store. apply Z.eqb_neq in H. rewrite H. reflexivity. Qed.

Lemma Zseq_length lo n : length (Zseq lo n) = n.
Proof. revert lo. induction n as [| n IH]; intros lo; simpl; [| rewrite IH]; reflexivity. Qed.

Lemma Zseq_In lo n x : In x (Zseq lo n) <-> lo <= x < lo + Z.of_nat n.
Proof.
  revert lo. induction n as [| n IH]; intros lo; simpl.
  - lia.
  - rewrite IH. lia.
Qed.

Lemma Zrange_In n x : In x (Zrange n) <-> 0 <= x < n.
Proof. unfold Zrange. rewrite Zseq_In. lia. Qed.

Lemma thread_x_sequential : thread_x sequential = 0.
Proof. reflexivity. Qed.

Lemma convert_STRIDE_sequential ty :
  convert ty (thread_STRIDE sequential) = 1.
Proof. apply convert_1. Qed.

Lemma convert_x_sequential ty : convert ty (thread_x sequential) = 0.
Proof. apply convert_0. Qed.

Lemma thread_STRIDE_sequential : thread_STRIDE sequential = 1.
Proof. reflexivity. Qed.

Lemma forallb_eq_in {A : Type} (f g : A -> bool) (l : list A) :
  (forall x, In x l -> f x = g x) -> forallb f l = forallb g l.
Proof.
  induction l as [| y l IH]; intros H; simpl.
  - reflexivity.
  - rewrite (H y) by (left; reflexivity). rewrite IH; [reflexivity |].
    intros x Hx. apply H. right. exact Hx.
Qed.

Lemma forallb_Zrange (P : Z -> bool) n :
  forallb P (Zrange n) = true -> forall x, 0 <= x < n -> P x = true.
Proof.
  intros H x Hx. rewrite forallb_forall in H. apply H, Zrange_In, Hx.
Qed.

(* ------------------------------------------------------------------ *)
(** ** The Join kernel *)
(* ------------------------------------------------------------------ *)

Module JoinFacts.
Import JoinKernel.

Lemma edge_id_get_in buf i :
  0 <= i < EDGE_ID_LEN -> edge_id_get buf i = Done (buf i).
Proof.
  intros [H1 H2]. unfold edge_id_get.
  apply Z.leb_le in H1. apply Z.ltb_lt in H2. rewrite H1, H2. reflexivity.
Qed.

Lemma edge_id_set_in buf i v :
  0 <= i < EDGE_ID_LEN -> edge_id_set buf i v = Done (store buf i v).
Proof.
  intros [H1 H2]. unfold edge_id_set.
  apply Z.leb_le in H1. apply Z.ltb_lt in H2. rewrite H1, H2. reflexivity.
Qed.

Lemma edge_id_set_out buf i v :
  ~ 0 <= i < EDGE_ID_LEN -> edge_id_set buf i v = Fault i.
Proof.
  intros H. unfold edge_id_set.
  destruct (0 <=? i) eqn:E1; [| reflexivity].
  destruct (i <? EDGE_ID_LEN) eqn:E2; [| reflexivity].
  apply Z.leb_le in E1. apply Z.ltb_lt in E2. lia.
Qed.

(** Every access that succeeds used an index within the declared bounds. *)
Lemma edge_id_get_Done buf i v :
  edge_id_get buf i = Done v -> 0 <= i < 3.
Proof.
  unfold edge_id_get, EDGE_ID_LEN.
  destruct (0 <=? i) eqn:E1; destruct (i <? 3) eqn:E2; simpl; try discriminate.
  intros _. apply Z.leb_le in E1. apply Z.ltb_lt in E2. lia.
Qed.

Lemma edge_id_set_Done buf i v buf' :
  edge_id_set buf i v = Done buf' -> 0 <= i < 3.
Proof.
  unfold edge_id_set, EDGE_ID_LEN.
  destruct (0 <=? i) eqn:E1; destruct (i <? 3) eqn:E2; simpl; try discriminate.
  intros _. apply Z.leb_le in E1. apply Z.ltb_lt in E2. lia.
Qed.

Section Decode.
Variable a : args.

Lemma Join_decode_slots_acc n : forall iter id acc,
  Join_decode_slots a n iter id acc = Join_decode_slots a n iter id [] ++ acc.
Proof.
  induction n as [| n IH]; intros iter id acc; simpl.
  - reflexivity.
  - rewrite IH. rewrite (IH _ _ [_]). rewrite <- app_assoc. reflexivity.
Qed.

Lemma Join_decode_slots_length n : forall iter id acc,
  length (Join_decode_slots a n iter id acc) = (S n + length acc)%nat.
Proof.
  induction n as [| n IH]; intros iter id acc; simpl.
  - reflexivity.
  - rewrite IH. simpl. lia.
Qed.

Lemma Join_slots_length x :
  1 <= edges_query a -> Z.of_nat (length (Join_slots a x)) = edges_query a.
Proof.
  intros H. unfold Join_slots. rewrite Join_decode_slots_length. simpl. lia.
Qed.

(** The decode loop leaves in [edge_id[1 .. iter]] the candidate edges at
    the slots of [Join_decode_slots], and hands the slot of query edge 0
    on in [id]. *)
Lemma Join_decode_buffer n : forall iter id buf,
  iter = Z.of_nat n -> iter < EDGE_ID_LEN ->
  exists buf',
    Join_decode a n iter id buf
      = Done (0, hd 0 (Join_decode_slots a n iter id []), buf') /\
    (forall k, 1 <= k <= iter ->
       buf' k = ull (edges a (nth (Z.to_nat k)
                                (Join_decode_slots a n iter id []) 0))) /\
    (forall k, ~ 1 <= k <= iter -> buf' k = buf k).
Proof.
  induction n as [| n IH]; intros iter id buf Hn Hlen.
  - subst iter. simpl. exists buf. split; [reflexivity |]. split.
    + intros k Hk. lia.
    + reflexivity.
  - assert (Hin : 0 <= iter < EDGE_ID_LEN) by lia.
    cbn [Join_decode].
    rewrite (edge_id_set_in _ _ _ Hin). cbn [bind].
    rewrite (edge_id_get_in _ _ Hin). cbn [bind].
    rewrite (edge_id_set_in _ _ _ Hin). cbn [bind].
    rewrite store_same.
    set (s := ull (pos a (iter - 1) + id mod seg_len a iter)).
    set (buf2 := store (store buf iter s) iter (ull (edges a s))).
    destruct (IH (iter - 1) (id / seg_len a iter) buf2) as (buf' & E & Hk & Ho);
      [lia | lia |].
    exists buf'. cbn [Join_decode_slots]. fold s.
    rewrite Join_decode_slots_acc.
    pose proof (Join_decode_slots_length n (iter - 1) (id / seg_len a iter) [])
      as Hl. simpl in Hl.
    split; [| split].
    + rewrite E. f_equal. f_equal. f_equal.
      destruct (Join_decode_slots a n (iter - 1) (id / seg_len a iter) []);
        [discriminate | reflexivity].
    + intros k Hk1.
      destruct (Z.eq_dec k iter) as [-> | Hne].
      * rewrite Ho by lia. unfold buf2. rewrite store_same.
        rewrite app_nth2 by lia.
        replace (Z.to_nat iter - _)%nat with 0%nat by lia. reflexivity.
      * rewrite Hk by lia. rewrite app_nth1 by lia. reflexivity.
    + intros k Hk1. rewrite Ho by lia. unfold buf2.
      rewrite !store_other by lia. reflexivity.
Qed.

End Decode.

Section Validate.
Variable a : args.

Lemma Join_break_c_rule c e_old e_new :
  Join_break_c a c e_old e_new
  = negb (rule_satisfied_b a c (froms a e_new) e_old).
Proof.
  unfold Join_break_c, rule_satisfied_b, named_endpoint.
  destruct (c =? 0); simpl.
  - rewrite negb_andb, !negb_involutive. reflexivity.
  - destruct (Z.rem c 2 =? 1); reflexivity.
Qed.

Lemma Join_break_d_rule d e_old e_new :
  Join_break_d a d e_old e_new
  = negb (rule_satisfied_b a d (tos a e_new) e_old).
Proof.
  unfold Join_break_d, rule_satisfied_b, named_endpoint.
  destruct (d =? 0); simpl.
  - rewrite negb_andb, !negb_involutive. reflexivity.
  - destruct (Z.rem d 2 =? 1); reflexivity.
Qed.

Lemma rule_satisfied_reflect code endpoint e_old :
  rule_satisfied_b a code endpoint e_old = true
  <-> rule_satisfied a code endpoint e_old.
Proof.
  unfold rule_satisfied_b, rule_satisfied.
  destruct (Z.eqb_spec code 0) as [E | E].
  - rewrite andb_true_iff, !negb_true_iff, !Z.eqb_neq. intuition lia.
  - rewrite Z.eqb_eq. intuition lia.
Qed.

Lemma pair_valid_reflect t later earlier :
  pair_valid_b a t later earlier = true <-> pair_valid a t later earlier.
Proof.
  unfold pair_valid_b, pair_valid.
  rewrite !andb_true_iff, negb_true_iff, Z.eqb_neq, !rule_satisfied_reflect.
  tauto.
Qed.

Lemma tuple_valid_b_true t :
  tuple_valid_b a t = true
  <-> (forall later earlier, 0 <= earlier < later -> later < edges_query a ->
         pair_valid_b a t later earlier = true).
Proof.
  unfold tuple_valid_b. rewrite forallb_forall. split.
  - intros H later earlier H1 H2.
    assert (Hl : In later (Zrange (edges_query a))) by (apply Zrange_In; lia).
    specialize (H later Hl). rewrite forallb_forall in H.
    apply H. apply Zrange_In. lia.
  - intros H later Hl. apply Zrange_In in Hl.
    rewrite forallb_forall. intros earlier He. apply Zrange_In in He.
    apply H; lia.
Qed.

Lemma tuple_valid_reflect t :
  tuple_valid_b a t = true <-> tuple_valid a t.
Proof.
  rewrite tuple_valid_b_true. unfold tuple_valid. split; intros H l e H1 H2.
  - apply pair_valid_reflect. auto.
  - apply pair_valid_reflect. auto.
Qed.

Lemma tuple_valid_false t :
  tuple_valid_b a t = false <-> ~ tuple_valid a t.
Proof.
  rewrite <- tuple_valid_reflect. destruct (tuple_valid_b a t); split; intros H;
    try discriminate; try congruence.
Qed.

Lemma pair_valid_b_ext t t' later earlier :
  t later = t' later -> t earlier = t' earlier ->
  pair_valid_b a t later earlier = pair_valid_b a t' later earlier.
Proof. intros H1 H2. unfold pair_valid_b. rewrite H1, H2. reflexivity. Qed.

Lemma tuple_valid_b_ext t t' :
  (forall k, 0 <= k < edges_query a -> t k = t' k) ->
  tuple_valid_b a t = tuple_valid_b a t'.
Proof.
  intros H. unfold tuple_valid_b. apply forallb_eq_in. intros later Hl.
  apply Zrange_In in Hl. apply forallb_eq_in. intros earlier He.
  apply Zrange_In in He. apply pair_valid_b_ext; apply H; lia.
Qed.

(** The inner loop runs to [edge = iter + 1] exactly when the new edge
    passes against every earlier edge from [edge] on. *)
Lemma Join_inner_spec buf iter n : forall edge,
  0 <= edge -> edge + Z.of_nat n = iter + 1 -> iter + 1 < EDGE_ID_LEN ->
  exists e,
    Join_inner a n iter (Z.quot (iter * (iter + 1)) 2) edge buf = Done e /\
    edge <= e <= iter + 1 /\
    (e = iter + 1 <->
     forall j, edge <= j <= iter -> pair_valid_b a buf (iter + 1) j = true).
Proof.
  induction n as [| n IH]; intros edge H0 Hn Hlen.
  - exists edge. simpl. split; [reflexivity |]. split; [lia |].
    split; [intros _ j Hj; lia | intros _; lia].
  - cbn [Join_inner].
    rewrite edge_id_get_in by lia. cbn [bind].
    rewrite edge_id_get_in by lia. cbn [bind].
    rewrite Join_break_c_rule, Join_break_d_rule.
    assert (Hp : pair_valid_b a buf (iter + 1) edge
                 = negb (buf (iter + 1) =? buf edge)
                   && rule_satisfied_b a
                        (intersect a ((Z.quot (iter * (iter + 1)) 2 + edge) * 2))
                        (froms a (buf (iter + 1))) (buf edge)
                   && rule_satisfied_b a
                        (intersect a ((Z.quot (iter * (iter + 1)) 2 + edge) * 2 + 1))
                        (tos a (buf (iter + 1))) (buf edge)).
    { unfold pair_valid_b, rule_index.
      replace (iter + 1 - 1) with iter by ring. reflexivity. }
    destruct (pair_valid_b a buf (iter + 1) edge) eqn:Ev.
    + symmetry in Hp. rewrite !andb_true_iff, negb_true_iff in Hp.
      destruct Hp as [[E1 E2] E3]. rewrite E1, E2, E3. cbn [negb].
      destruct (IH (edge + 1)) as (e & E & Hb & Hiff); [lia | lia | lia |].
      exists e. split; [exact E |]. split; [lia |].
      rewrite Hiff. split; intros H j Hj.
      * destruct (Z.eq_dec j edge) as [-> | Hne]; [exact Ev | apply H; lia].
      * apply H. lia.
    + exists edge. split.
      * destruct (buf (iter + 1) =? buf edge); [reflexivity |].
        destruct (rule_satisfied_b a _ (froms a _) _); [| reflexivity].
        destruct (rule_satisfied_b a _ (tos a _) _); [| reflexivity].
        discriminate Hp.
      * split; [lia |]. split; [lia |].
        intros H. specialize (H edge). rewrite Ev in H.
        assert (false = true) by (apply H; lia). discriminate.
Qed.

(** The outer loop runs to [iter = edges_query - 1] exactly when every
    later query edge passes against every earlier one. *)
Lemma Join_outer_spec buf n : forall iter,
  0 <= iter -> iter + Z.of_nat n = edges_query a - 1 ->
  edges_query a <= EDGE_ID_LEN ->
  exists it,
    Join_outer a n iter buf = Done it /\
    iter <= it <= edges_query a - 1 /\
    (it = edges_query a - 1 <->
     forall later earlier, iter + 1 <= later -> later < edges_query a ->
       0 <= earlier < later -> pair_valid_b a buf later earlier = true).
Proof.
  induction n as [| n IH]; intros iter H0 Hn Hlen.
  - exists iter. simpl. split; [reflexivity |]. split; [lia |].
    split; [intros _ l e H1 H2; lia | intros _; lia].
  - cbn [Join_outer].
    destruct (Join_inner_spec buf iter (Z.to_nat (iter + 1)) 0)
      as (e & E & Hb & Hiff); [lia | lia | lia |].
    rewrite E. cbn [bind].
    destruct (Z.eqb_spec e (iter + 1)) as [Ee | Ee]; cbn [negb].
    + destruct (IH (iter + 1)) as (it & Eo & Hbo & Hio); [lia | lia | lia |].
      exists it. split; [exact Eo |]. split; [lia |].
      rewrite Hio. split; intros H later earlier H1 H2 H3.
      * destruct (Z.eq_dec later (iter + 1)) as [-> | Hne].
        -- apply (proj1 Hiff Ee). lia.
        -- apply H; lia.
      * apply H; lia.
    + exists iter. split; [reflexivity |]. split; [lia |]. split; [lia |].
      intros H. exfalso. apply Ee. apply Hiff. intros j Hj. apply H; lia.
Qed.

End Validate.

Section Body.
Variable a : args.

Lemma Join_tuple_hd x :
  ull (edges a (hd 0 (Join_slots a x))) = Join_tuple a x 0.
Proof.
  unfold Join_tuple. destruct (Join_slots a x); reflexivity.
Qed.

(** Decoding and validating: within the supported query sizes the test of
    line 141 is the validity of the decoded tuple, and the buffer holds
    the tuple. *)
Lemma Join_check_spec buf x :
  1 <= edges_query a <= EDGE_ID_LEN ->
  exists buf',
    Join_check a buf x = Done (tuple_valid_b a (Join_tuple a x), buf') /\
    (forall k, 0 <= k < edges_query a -> buf' k = Join_tuple a x k).
Proof.
  intros Hq. unfold Join_check.
  destruct (Join_decode_buffer a (Z.to_nat (edges_query a - 1))
              (edges_query a - 1) x buf) as (buf1 & E & Hk & _); [lia | lia |].
  rewrite E. cbn [bind].
  rewrite edge_id_set_in by (unfold EDGE_ID_LEN in *; lia). cbn [bind].
  fold (Join_slots a x). rewrite Join_tuple_hd.
  set (buf2 := store buf1 0 (Join_tuple a x 0)).
  assert (Hbuf : forall k, 0 <= k < edges_query a -> buf2 k = Join_tuple a x k).
  { intros k Hr. unfold buf2. destruct (Z.eq_dec k 0) as [-> | Hne].
    - apply store_same.
    - rewrite store_other by exact Hne. rewrite Hk by lia. reflexivity. }
  destruct (Join_outer_spec a buf2 (Z.to_nat (edges_query a - 1)) 0)
    as (it & Eo & Hb & Hiff); [lia | lia | lia |].
  rewrite Eo. cbn [bind]. exists buf2. split; [| exact Hbuf].
  f_equal. f_equal.
  rewrite <- (tuple_valid_b_ext a buf2 (Join_tuple a x) Hbuf).
  destruct (Z.eqb_spec it (edges_query a - 1)) as [Ei | Ei].
  - symmetry. apply tuple_valid_b_true. intros later earlier H1 H2.
    apply (proj1 Hiff Ei); lia.
  - destruct (tuple_valid_b a buf2) eqn:Ev; [| reflexivity].
    exfalso. apply Ei. apply Hiff. intros later earlier H1 H2 H3.
    apply (proj1 (tuple_valid_b_true a buf2) Ev); lia.
Qed.

(** Outside the supported query sizes the first store of the decode to
    [edge_id] is out of bounds. *)
Lemma Join_check_fault buf x :
  ~ 1 <= edges_query a <= EDGE_ID_LEN ->
  Join_check a buf x = Fault (edges_query a - 1).
Proof.
  intros Hq. unfold Join_check.
  destruct (Z.to_nat (edges_query a - 1)) as [| n] eqn:En.
  - cbn [Join_decode bind]. rewrite edge_id_set_out by lia. reflexivity.
  - cbn [Join_decode]. rewrite edge_id_set_out by lia. reflexivity.
Qed.

Lemma Join_body_fault g buf x :
  ~ 1 <= edges_query a <= EDGE_ID_LEN ->
  Join_body a g buf x = Fault (edges_query a - 1).
Proof.
  intros Hq. unfold Join_body. rewrite Join_check_fault by exact Hq.
  reflexivity.
Qed.

Lemma out_index_inj cnt j k :
  0 <= j < EDGE_ID_LEN -> 0 <= k < EDGE_ID_LEN ->
  out_index a cnt j = out_index a cnt k -> j = k.
Proof.
  unfold out_index, EDGE_ID_LEN. intros Hj Hk H.
  apply ull_add_inj in H; [exact H | lia | lia].
Qed.

Lemma Join_emit_spec cnt buf n : forall iter out,
  0 <= iter -> iter + Z.of_nat n = edges_query a ->
  edges_query a <= EDGE_ID_LEN ->
  exists out',
    Join_emit a n iter cnt buf out = Done out' /\
    (forall k, iter <= k < edges_query a ->
       out' (out_index a cnt k) = convert (VertexId a) (buf k)) /\
    (forall j, (forall k, iter <= k < edges_query a -> j <> out_index a cnt k) ->
       out' j = out j).
Proof.
  induction n as [| n IH]; intros iter out H0 Hn Hlen.
  - exists out. simpl. split; [reflexivity |].
    split; [intros k Hk; lia | reflexivity].
  - cbn [Join_emit]. rewrite edge_id_get_in by lia. cbn [bind].
    destruct (IH (iter + 1)
                (store out (out_index a cnt iter)
                   (convert (VertexId a) (buf iter))))
      as (out' & E & Hk & Ho); [lia | lia | lia |].
    exists out'. split; [exact E |]. split.
    + intros k Hr. destruct (Z.eq_dec k iter) as [-> | Hne].
      * rewrite Ho.
        -- apply store_same.
        -- intros k Hr' Heq. apply out_index_inj in Heq; lia.
      * apply Hk. lia.
    + intros j Hj. rewrite Ho by (intros k Hr; apply Hj; lia).
      apply store_other. apply (Hj iter). lia.
Qed.

(** One pass of the loop body: a valid tuple is accepted, any other tuple
    is rejected. *)
Lemma Join_body_spec g buf x :
  1 <= edges_query a <= EDGE_ID_LEN ->
  if tuple_valid_b a (Join_tuple a x)
  then accepted a g buf x else rejected a g buf x.
Proof.
  intros Hq.
  destruct (Join_check_spec buf x Hq) as (buf' & E & Hbuf).
  destruct (tuple_valid_b a (Join_tuple a x)) eqn:Ev.
  - destruct (Join_emit_spec (counts g) buf' (Z.to_nat (edges_query a)) 0
                (output g)) as (out' & Ee & Hk & Ho); [lia | lia | lia |].
    exists {| counts := ull (counts g + 1); output := out' |}, buf'.
    unfold Join_body. rewrite E. cbn [bind]. rewrite Ee. cbn [bind].
    split; [reflexivity |]. split; [reflexivity |]. split.
    + intros k Hr. cbn [output]. rewrite Hk by lia. f_equal.
      apply Hbuf. exact Hr.
    + intros j Hj. cbn [output]. apply Ho. intros k Hr. apply Hj. lia.
  - exists buf'. unfold Join_body. rewrite E. reflexivity.
Qed.

Lemma counter_moves c : c <> ull (c + 1).
Proof.
  intros H. pose proof (ull_range (c + 1)) as Hr. rewrite <- H in Hr.
  destruct (Z.eq_dec (c + 1) (2 ^ 64)) as [E | E].
  - rewrite E in H. unfold ull in H. rewrite Z.mod_same in H by lia. lia.
  - rewrite ull_small in H by lia. lia.
Qed.

Lemma accepted_iff_valid g buf x :
  1 <= edges_query a <= EDGE_ID_LEN ->
  accepted a g buf x <-> tuple_valid a (Join_tuple a x).
Proof.
  intros Hq. rewrite <- tuple_valid_reflect.
  pose proof (Join_body_spec g buf x Hq) as H.
  destruct (tuple_valid_b a (Join_tuple a x)).
  - tauto.
  - split; [| discriminate].
    intros (g' & b' & E & Hc & _). destruct H as (b'' & E').
    rewrite E in E'. injection E' as Eg _. rewrite Eg in Hc.
    exfalso. exact (counter_moves _ Hc).
Qed.

Lemma rejected_iff_invalid g buf x :
  1 <= edges_query a <= EDGE_ID_LEN ->
  rejected a g buf x <-> ~ tuple_valid a (Join_tuple a x).
Proof.
  intros Hq. rewrite <- tuple_valid_false.
  pose proof (Join_body_spec g buf x Hq) as H.
  destruct (tuple_valid_b a (Join_tuple a x)).
  - split; [| discriminate].
    intros (b' & E). destruct H as (g' & b'' & E' & Hc & _).
    rewrite E in E'. injection E' as Eg _. rewrite <- Eg in Hc.
    exfalso. exact (counter_moves _ Hc).
  - tauto.
Qed.

Lemma Join_size_loop_range n : forall i s,
  0 <= s < 2 ^ 64 -> 0 <= Join_size_loop a n i s < 2 ^ 64.
Proof.
  induction n as [| n IH]; intros i s Hs; simpl.
  - exact Hs.
  - apply IH. apply ull_range.
Qed.

Lemma Join_size_range : 0 <= Join_size a < 2 ^ 64.
Proof. unfold Join_size. apply Join_size_loop_range. apply ull_range. Qed.

Lemma valid_count_step lo n :
  valid_count a lo (S n)
  = (if tuple_valid_b a (Join_tuple a lo) then 1 else 0) + valid_count a (lo + 1) n.
Proof.
  unfold valid_count. cbn [Zseq filter].
  destruct (tuple_valid_b a (Join_tuple a lo)); cbn [length]; lia.
Qed.

(** The sequential loop from [x] on: it ends, having added the number of
    valid tuples in [x, size) to the counter. *)
Lemma Join_while_counts fuel : forall x g buf,
  1 <= edges_query a <= EDGE_ID_LEN ->
  0 <= counts g < 2 ^ 64 ->
  0 <= x -> Join_size a - x <= Z.of_nat fuel ->
  exists g',
    Join_while a fuel 1 (Join_size a) x g buf = Done g' /\
    counts g' = ull (counts g
                     + valid_count a x (Z.to_nat (Join_size a - x))).
Proof.
  pose proof Join_size_range as Hs.
  induction fuel as [| fuel IH]; intros x g buf Hq Hc Hx Hf.
  - exists g. cbn [Join_while].
    destruct (Z.ltb_spec x (Join_size a)); [lia |]. split; [reflexivity |].
    replace (Z.to_nat (Join_size a - x)) with 0%nat by lia.
    unfold valid_count. simpl. rewrite Z.add_0_r, ull_small; [reflexivity | exact Hc].
  - cbn [Join_while].
    destruct (Z.ltb_spec x (Join_size a)) as [Hlt | Hge].
    + replace (Z.to_nat (Join_size a - x))
        with (S (Z.to_nat (Join_size a - (x + 1)))) by lia.
      rewrite valid_count_step.
      assert (Ex : ull (x + 1) = x + 1) by (apply ull_small; lia).
      pose proof (Join_body_spec g buf x Hq) as Hb.
      destruct (tuple_valid_b a (Join_tuple a x)).
      * destruct Hb as (g1 & buf1 & E & Hc1 & _).
        rewrite E. cbn [bind fst snd]. rewrite Ex.
        destruct (IH (x + 1) g1 buf1) as (g' & E' & Hc');
          [exact Hq | rewrite Hc1; apply ull_range | lia | lia |].
        exists g'. split; [exact E' |].
        rewrite Hc', Hc1, ull_add_l. f_equal. ring.
      * destruct Hb as (buf1 & E).
        rewrite E. cbn [bind fst snd]. rewrite Ex.
        destruct (IH (x + 1) g buf1) as (g' & E' & Hc');
          [exact Hq | exact Hc | lia | lia |].
        exists g'. split; [exact E' |]. rewrite Hc'. f_equal.
    + exists g. split; [reflexivity |].
      replace (Z.to_nat (Join_size a - x)) with 0%nat by lia.
      unfold valid_count. simpl. rewrite Z.add_0_r, ull_small; [reflexivity | exact Hc].
Qed.

Lemma valid_count_bounds lo n : 0 <= valid_count a lo n <= Z.of_nat n.
Proof.
  unfold valid_count. split; [lia |].
  apply inj_le. rewrite <- (Zseq_length lo n) at 2. apply filter_length_le.
Qed.

(** Whatever the launch and the fuel, the kernel does not fault within the
    supported query sizes. *)
Lemma Join_while_no_fault fuel : forall STRIDE size x g buf i,
  1 <= edges_query a <= EDGE_ID_LEN ->
  Join_while a fuel STRIDE size x g buf <> Fault i.
Proof.
  induction fuel as [| fuel IH]; intros STRIDE size x g buf i Hq;
    cbn [Join_while]; destruct (x <? size); try discriminate.
  pose proof (Join_body_spec g buf x Hq) as Hb.
  destruct (tuple_valid_b a (Join_tuple a x)).
  - destruct Hb as (g1 & buf1 & E & _). rewrite E. cbn [bind]. apply IH, Hq.
  - destruct Hb as (buf1 & E). rewrite E. cbn [bind]. apply IH, Hq.
Qed.

End Body.

Lemma Zseq_snoc lo n : Zseq lo (S n) = Zseq lo n ++ [lo + Z.of_nat n].
Proof.
  revert lo. induction n as [| n IH]; intros lo.
  - simpl. rewrite Z.add_0_r. reflexivity.
  - change (Zseq lo (S (S n))) with (lo :: Zseq (lo + 1) (S n)).
    rewrite IH. simpl. do 3 f_equal. lia.
Qed.

Section Radix.
Variable a : args.
Hypothesis Hq : 1 <= edges_query a.
Hypothesis Hwf : wf_pos a.

Lemma wf_pos_increasing k :
  1 <= k < edges_query a -> pos a (k - 1) < pos a k.
Proof.
  intros Hk. destruct Hwf as [Hlen _]. specialize (Hlen k ltac:(lia)).
  unfold seg_start in Hlen. destruct (Z.eqb_spec k 0); [lia | exact Hlen].
Qed.

Lemma wf_pos_first : 0 < pos a 0.
Proof.
  destruct Hwf as [Hlen _]. specialize (Hlen 0 ltac:(lia)). exact Hlen.
Qed.

Lemma wf_pos_lower k : 0 <= k < edges_query a -> 0 < pos a k.
Proof.
  intros [H0 Hk]. revert Hk. pattern k. apply natlike_ind; [| | exact H0].
  - intros _. exact wf_pos_first.
  - intros j Hj IH Hk. pose proof (wf_pos_increasing (Z.succ j) ltac:(lia)) as H.
    replace (Z.succ j - 1) with j in H by lia. specialize (IH ltac:(lia)). lia.
Qed.

Lemma wf_pos_upper_nat n : forall k,
  0 <= k -> k + Z.of_nat n = edges_query a - 1 -> pos a k < 2 ^ 64.
Proof.
  induction n as [| n IH]; intros k H0 Hk.
  - replace k with (edges_query a - 1) by lia. exact (proj2 Hwf).
  - pose proof (IH (k + 1) ltac:(lia) ltac:(lia)) as H.
    pose proof (wf_pos_increasing (k + 1) ltac:(lia)) as H'.
    replace (k + 1 - 1) with k in H' by lia. lia.
Qed.

Lemma wf_pos_upper k : 0 <= k < edges_query a -> pos a k < 2 ^ 64.
Proof.
  intros Hk. apply (wf_pos_upper_nat (Z.to_nat (edges_query a - 1 - k))); lia.
Qed.

Lemma wf_seg_len k :
  1 <= k < edges_query a -> seg_len a k = pos a k - pos a (k - 1).
Proof.
  intros Hk. unfold seg_len. apply ull_small.
  pose proof (wf_pos_increasing k Hk). pose proof (wf_pos_upper k ltac:(lia)).
  pose proof (wf_pos_lower (k - 1) ltac:(lia)). lia.
Qed.

Lemma wf_seg_start k :
  1 <= k -> seg_start a k = pos a (k - 1).
Proof.
  intros Hk. unfold seg_start. destruct (Z.eqb_spec k 0); [lia | reflexivity].
Qed.

(** The slot the decode computes for a query edge [k >= 1] lies in the
    segment of [k]. *)
Lemma wf_slot k id :
  1 <= k < edges_query a ->
  ull (pos a (k - 1) + id mod seg_len a k)
  = pos a (k - 1) + id mod (pos a k - pos a (k - 1)) /\
  pos a (k - 1) <= pos a (k - 1) + id mod (pos a k - pos a (k - 1)) < pos a k.
Proof.
  intros Hk. rewrite wf_seg_len by exact Hk.
  pose proof (wf_pos_increasing k Hk). pose proof (wf_pos_upper k ltac:(lia)).
  pose proof (wf_pos_lower (k - 1) ltac:(lia)).
  pose proof (Z.mod_pos_bound id (pos a k - pos a (k - 1)) ltac:(lia)).
  split; [apply ull_small |]; lia.
Qed.

Lemma encode_decode n : forall iter id acc,
  iter = Z.of_nat n -> iter < edges_query a ->
  encode_from a 0 0 (Join_decode_slots a n iter id acc)
  = encode_from a (iter + 1) id acc.
Proof.
  induction n as [| n IH]; intros iter id acc Hn Hlt.
  - subst iter. cbn [Join_decode_slots encode_from]. f_equal.
    unfold seg_start. simpl. lia.
  - cbn [Join_decode_slots]. rewrite IH by lia.
    cbn [encode_from]. replace (iter - 1 + 1) with iter by ring. f_equal.
    rewrite wf_seg_start by lia.
    destruct (wf_slot iter id ltac:(lia)) as [-> _].
    rewrite wf_seg_len by lia.
    pose proof (wf_pos_increasing iter ltac:(lia)).
    pose proof (Z.div_mod id (pos a iter - pos a (iter - 1)) ltac:(lia)).
    lia.
Qed.

Lemma tail_size_S n :
  tail_size a (S n)
  = tail_size a n * (pos a (1 + Z.of_nat n) - seg_start a (1 + Z.of_nat n)).
Proof.
  unfold tail_size. rewrite Zseq_snoc, map_app, fold_right_app.
  cbn [map fold_right]. generalize (Zseq 1 n).
  induction l as [| y l IH]; cbn [map fold_right]; [lia |].
  rewrite IH. ring.
Qed.

Lemma space_size_tail :
  space_size a = pos a 0 * tail_size a (Z.to_nat (edges_query a - 1)).
Proof.
  unfold space_size, Zrange, tail_size.
  replace (Z.to_nat (edges_query a)) with (S (Z.to_nat (edges_query a - 1)))
    by lia.
  cbn [Zseq map fold_right]. unfold seg_start at 1. simpl.
  rewrite Z.sub_0_r. reflexivity.
Qed.

Lemma decode_first_slot n : forall iter id bound,
  iter = Z.of_nat n -> iter < edges_query a ->
  0 <= id < bound * tail_size a n ->
  0 <= hd 0 (Join_decode_slots a n iter id []) < bound.
Proof.
  induction n as [| n IH]; intros iter id bound Hn Hlt Hid.
  - cbn [Join_decode_slots hd]. unfold tail_size in Hid. simpl in Hid. lia.
  - cbn [Join_decode_slots]. rewrite Join_decode_slots_acc.
    pose proof (Join_decode_slots_length a n (iter - 1) (id / seg_len a iter) [])
      as Hl.
    destruct (Join_decode_slots a n (iter - 1) (id / seg_len a iter) [])
      as [| s0 rest] eqn:Es; [discriminate |].
    cbn [app hd].
    replace s0 with (hd 0 (Join_decode_slots a n (iter - 1)
                             (id / seg_len a iter) []))
      by (rewrite Es; reflexivity).
    apply IH; [lia | lia |].
    rewrite tail_size_S in Hid.
    replace (1 + Z.of_nat n) with iter in Hid by lia.
    rewrite wf_seg_start in Hid by lia.
    rewrite wf_seg_len by lia.
    pose proof (wf_pos_increasing iter ltac:(lia)) as Hinc.
    split.
    + apply Z.div_pos; lia.
    + apply Z.div_lt_upper_bound; [lia |]. nia.
Qed.

Lemma decode_later_slots n : forall iter id k,
  iter = Z.of_nat n -> iter < edges_query a -> 1 <= k <= iter ->
  pos a (k - 1) <= nth (Z.to_nat k) (Join_decode_slots a n iter id []) 0
  < pos a k.
Proof.
  induction n as [| n IH]; intros iter id k Hn Hlt Hk.
  - lia.
  - cbn [Join_decode_slots]. rewrite Join_decode_slots_acc.
    pose proof (Join_decode_slots_length a n (iter - 1) (id / seg_len a iter) [])
      as Hl. simpl in Hl.
    destruct (Z.eq_dec k iter) as [-> | Hne].
    + rewrite app_nth2 by lia.
      replace (Z.to_nat iter - _)%nat with 0%nat by lia. cbn [nth].
      destruct (wf_slot iter id ltac:(lia)) as [-> Hr]. exact Hr.
    + rewrite app_nth1 by lia. apply IH; lia.
Qed.

End Radix.

(** C2: on an offset table whose segments all have strictly positive
    length, for every tuple index x below the product of the segment
    lengths, the slots that the decode of the Join kernel computes (modulo
    and division by each segment length, last query edge first) re-encode
    to x when multiplied back out by the segment lengths; there is one slot
    per query edge, each inside the segment of its query edge; and distinct
    indices decode to distinct slot tuples.  Within the supported query
    sizes these are the slots whose candidate edges the decode loop leaves
    in edge_id. *)
Theorem Join_decode_roundtrip (a : args) :
  1 <= edges_query a -> wf_pos a ->
  forall x, 0 <= x < space_size a ->
    Join_encode a (Join_slots a x) = x /\
    Z.of_nat (length (Join_slots a x)) = edges_query a /\
    (forall k, 0 <= k < edges_query a ->
       seg_start a k <= nth (Z.to_nat k) (Join_slots a x) 0 < pos a k) /\
    (forall y, 0 <= y < space_size a ->
       Join_slots a y = Join_slots a x -> y = x) /\
    (edges_query a <= 3 ->
     forall buf, exists buf',
       Join_decode a (Z.to_nat (edges_query a - 1)) (edges_query a - 1) x buf
       = Done (0, nth 0 (Join_slots a x) 0, buf') /\
       (forall k, 1 <= k < edges_query a ->
          buf' k = ull (edges a (nth (Z.to_nat k) (Join_slots a x) 0)))).
Proof.
  intros Hq Hwf.
  assert (Hrt : forall x, Join_encode a (Join_slots a x) = x).
  { intros x. unfold Join_encode, Join_slots.
    rewrite (encode_decode a Hq Hwf) by lia. reflexivity. }
  intros x Hx. split; [apply Hrt |]. split; [apply Join_slots_length, Hq |].
  split.
  - intros k Hk. unfold Join_slots. destruct (Z.eq_dec k 0) as [-> | Hne].
    + change (seg_start a 0) with 0. change (Z.to_nat 0) with 0%nat.
      rewrite (space_size_tail a Hq) in Hx.
      pose proof (decode_first_slot a Hq Hwf (Z.to_nat (edges_query a - 1))
                    (edges_query a - 1) x (pos a 0) ltac:(lia) ltac:(lia) Hx)
        as H.
      destruct (Join_decode_slots a _ _ x []); exact H.
    + rewrite (wf_seg_start a) by lia.
      apply (decode_later_slots a Hq Hwf); lia.
  - split.
    + intros y _ Heq. rewrite <- (Hrt y), Heq. apply Hrt.
    + intros H3 buf.
      destruct (Join_decode_buffer a (Z.to_nat (edges_query a - 1))
                  (edges_query a - 1) x buf) as (buf' & E & Hk & _);
        [lia | unfold EDGE_ID_LEN; lia |].
      exists buf'. split.
      * rewrite E. unfold Join_slots.
        destruct (Join_decode_slots a _ _ x []); reflexivity.
      * intros k Hk'. apply Hk. lia.
Qed.

Section Size.
Variable a : args.

Lemma Join_size_loop_zero n : forall i, Join_size_loop a n i 0 = 0.
Proof.
  induction n as [| n IH]; intros i; simpl; [reflexivity |]. apply IH.
Qed.

Lemma Join_size_loop_seg_len n : forall i s,
  Join_size_loop a n i s <> 0 ->
  forall k, i + 1 <= k <= i + Z.of_nat n -> seg_len a k <> 0.
Proof.
  induction n as [| n IH]; intros i s Hne k Hk; [lia |].
  cbn [Join_size_loop] in Hne.
  destruct (Z.eq_dec k (i + 1)) as [-> | Hk'].
  - intros Hz. apply Hne. unfold seg_len in Hz.
    replace (i + 1 - 1) with i in Hz by ring. rewrite Hz, Z.mul_0_r.
    apply Join_size_loop_zero.
  - apply (IH (i + 1) _ Hne). lia.
Qed.

(** The divisor of lines 90-91 is nonzero whenever the loop body runs. *)
Lemma Join_size_seg_len x :
  0 <= x < Join_size a ->
  forall k, 1 <= k < edges_query a -> seg_len a k <> 0.
Proof.
  intros Hx k Hk. unfold Join_size in Hx.
  apply (Join_size_loop_seg_len (Z.to_nat (edges_query a - 1)) 0 (ull (pos a 0)));
    lia.
Qed.

Lemma Join_size_loop_product n : forall i s,
  Join_size_loop a n i s
  = ull (s * fold_right Z.mul 1
               (map (fun k => ull (pos a k - pos a (k - 1))) (Zseq (i + 1) n)))
  \/ n = 0%nat.
Proof.
  induction n as [| n IH]; intros i s; [right; reflexivity |]. left.
  cbn [Join_size_loop Zseq map fold_right].
  replace (i + 1 - 1) with i by ring.
  destruct (IH (i + 1) (ull (s * ull (pos a (i + 1) - pos a i)))) as [-> | ->].
  - set (P := fold_right Z.mul 1 _). set (L := ull (pos a (i + 1) - pos a i)).
    unfold ull at 1 2. rewrite Zmult_mod_idemp_l. unfold ull. f_equal. ring.
  - cbn [Join_size_loop Zseq map fold_right]. rewrite Z.mul_1_r. reflexivity.
Qed.

(** On a well-formed table the kernel's [size] is the product of the
    segment lengths, reduced to [unsigned long long]. *)
Lemma Join_size_space :
  1 <= edges_query a -> wf_pos a -> Join_size a = ull (space_size a).
Proof.
  intros Hq Hwf. rewrite (space_size_tail a Hq). unfold Join_size.
  pose proof (wf_pos_lower a Hq Hwf 0 ltac:(lia)) as H0.
  pose proof (wf_pos_upper a Hwf 0 ltac:(lia)) as H1.
  rewrite (ull_small (pos a 0)) by lia.
  assert (Et : tail_size a (Z.to_nat (edges_query a - 1))
               = fold_right Z.mul 1
                   (map (fun k => ull (pos a k - pos a (k - 1)))
                      (Zseq (0 + 1) (Z.to_nat (edges_query a - 1))))).
  { unfold tail_size. f_equal. apply map_ext_in. intros k Hk.
    apply Zseq_In in Hk. rewrite (wf_seg_start a) by lia.
    symmetry. apply (wf_seg_len a Hq Hwf). lia. }
  rewrite Et.
  destruct (Join_size_loop_product (Z.to_nat (edges_query a - 1)) 0 (pos a 0))
    as [-> | E]; [reflexivity |].
  rewrite E. simpl. rewrite Z.mul_1_r. symmetry. apply ull_small. lia.
Qed.

End Size.

Lemma Join_sequential fuel a g buf :
  Join fuel sequential a g buf = Join_while a fuel 1 (Join_size a) 0 g buf.
Proof. unfold Join. rewrite convert_STRIDE_sequential. reflexivity. Qed.

Lemma product_pos {A : Type} (f : A -> Z) (l : list A) :
  (forall k, In k l -> 0 < f k) -> 0 < fold_right Z.mul 1 (map f l).
Proof.
  induction l as [| k l IH]; intros H; cbn [map fold_right]; [lia |].
  apply Z.mul_pos_pos; [apply H; left; reflexivity |].
  apply IH. intros k' Hk'. apply H. right. exact Hk'.
Qed.

(** On a well-formed table the combination space is not empty. *)
Lemma space_size_pos a : wf_pos a -> 0 < space_size a.
Proof.
  intros [Hseg _]. unfold space_size. apply product_pos.
  intros k Hk. apply Zrange_In in Hk. specialize (Hseg k Hk). lia.
Qed.

(** C1 (amended): for the Join kernel under the sequential embedding, with
    1 <= edges_query <= 3 and a well-formed offset table whose combination
    space (the product of the segment lengths) is below 2^64, the kernel's
    size is the combination space, and a tuple index x in
    [0, combination_space_size) is accepted (the counter is incremented and
    the block of output the counter designated receives the edges_query
    candidate-edge ids of the decoded tuple, converted to VertexId) if and
    only if every later-placed query edge agrees with every earlier-placed
    one: the two data-edge ids differ and both entries of the rule table
    for the pair are satisfied.  Any other tuple index leaves the global
    state unchanged.  The kernel ends with the counter increased by the
    number of valid tuple indices of the combination space, so a counter
    started at zero ends as that number. *)
Theorem Join_accepts_exactly_valid_tuples (a : args) :
  1 <= edges_query a <= 3 ->
  wf_pos a ->
  space_size a < 2 ^ 64 ->
  Join_size a = space_size a /\
  (forall x g buf, 0 <= x < space_size a ->
     (accepted a g buf x <-> tuple_valid a (Join_tuple a x)) /\
     (rejected a g buf x <-> ~ tuple_valid a (Join_tuple a x))) /\
  (forall fuel g buf,
     0 <= counts g < 2 ^ 64 -> space_size a <= Z.of_nat fuel ->
     exists g',
       Join fuel sequential a g buf = Done g' /\
       counts g'
       = ull (counts g + valid_count a 0 (Z.to_nat (space_size a))) /\
       (counts g = 0 ->
        counts g' = valid_count a 0 (Z.to_nat (space_size a)))).
Proof.
  intros Hq Hwf Hsmall.
  pose proof (space_size_pos a Hwf) as Hpos.
  assert (Hs : Join_size a = space_size a).
  { rewrite Join_size_space by (try exact Hwf; lia). apply ull_small. lia. }
  split; [exact Hs |]. rewrite <- Hs. split.
  - intros x g buf _. split.
    + apply accepted_iff_valid. exact Hq.
    + apply rejected_iff_invalid. exact Hq.
  - intros fuel g buf Hc Hf. rewrite Join_sequential.
    destruct (Join_while_counts a fuel 0 g buf Hq Hc) as (g' & E & Hc');
      [lia | lia |].
    rewrite Z.sub_0_r in Hc'.
    exists g'. split; [exact E |]. split; [exact Hc' |].
    intros H0. rewrite Hc', H0, Z.add_0_l. apply ull_small.
    pose proof (valid_count_bounds a 0 (Z.to_nat (Join_size a))).
    pose proof (Join_size_range a). lia.
Qed.

(** C5 (amended): in every match the Join kernel accepts (the body ran to
    completion and incremented the counter, with 1 <= edges_query <= 3),
    the candidate-edge ids chosen for two distinct query edges differ, as
    the kernel compares them in unsigned long long; each is written to the
    block of output as a VertexId, and the two entries written differ
    whenever both ids are values of VertexId. *)
Theorem Join_emitted_ids_pairwise_distinct (a : args) (g g' : global)
    (buf buf' : mem) (x : Z) :
  1 <= edges_query a <= 3 ->
  Join_body a g buf x = Done (g', buf') ->
  counts g' = ull (counts g + 1) ->
  forall j k,
    0 <= j < edges_query a -> 0 <= k < edges_query a -> j <> k ->
    Join_tuple a x j <> Join_tuple a x k /\
    output g' (out_index a (counts g) j)
    = convert (VertexId a) (Join_tuple a x j) /\
    output g' (out_index a (counts g) k)
    = convert (VertexId a) (Join_tuple a x k) /\
    (fits (VertexId a) (Join_tuple a x j) ->
     fits (VertexId a) (Join_tuple a x k) ->
     output g' (out_index a (counts g) j)
     <> output g' (out_index a (counts g) k)).
Proof.
  intros Hq E Hc j k Hj Hk Hjk.
  pose proof (Join_body_spec a g buf x Hq) as Hb.
  destruct (tuple_valid_b a (Join_tuple a x)) eqn:Ev.
  - destruct Hb as (g1 & buf1 & E1 & _ & Hout & _).
    rewrite E in E1. injection E1 as <- _.
    rewrite !Hout by lia.
    apply tuple_valid_reflect in Ev.
    assert (Hd : Join_tuple a x j <> Join_tuple a x k).
    { destruct (Z_lt_dec j k).
      - intros Heq. apply (proj1 (Ev k j ltac:(lia) ltac:(lia))).
        symmetry. exact Heq.
      - apply (proj1 (Ev j k ltac:(lia) ltac:(lia))). }
    split; [exact Hd |]. split; [reflexivity |]. split; [reflexivity |].
    intros Fj Fk. rewrite !convert_small by assumption. exact Hd.
  - destruct Hb as (buf1 & E1). rewrite E in E1. injection E1 as -> _.
    exfalso. exact (counter_moves _ Hc).
Qed.

(** C7: with 1 <= edges_query <= 3 no access of the Join kernel to its
    three-entry buffer edge_id is out of bounds: the loop body always runs
    to completion and the kernel never faults, whatever the launch and the
    inputs.  With edges_query > 3 the index edges_query - 1 is outside
    [0, 3) and the first store of the decode loop uses it, so the loop
    body faults for every tuple index, and so does the kernel as soon as
    the loop is entered. *)
Theorem Join_edge_id_in_bounds_up_to_three (a : args) :
  (1 <= edges_query a <= 3 ->
   (forall g buf x, exists r, Join_body a g buf x = Done r) /\
   (forall fuel t g buf i, Join fuel t a g buf <> Fault i)) /\
  (3 < edges_query a ->
   ~ 0 <= edges_query a - 1 < 3 /\
   (forall id buf,
      Join_decode a (Z.to_nat (edges_query a - 1)) (edges_query a - 1) id buf
      = Fault (edges_query a - 1)) /\
   (forall g buf x, Join_body a g buf x = Fault (edges_query a - 1)) /\
   (forall fuel t g buf,
      thread_x t < Join_size a ->
      Join (S fuel) t a g buf = Fault (edges_query a - 1))).
Proof.
  split.
  - intros Hq. split.
    + intros g buf x. pose proof (Join_body_spec a g buf x Hq) as Hb.
      destruct (tuple_valid_b a (Join_tuple a x)).
      * destruct Hb as (g' & buf' & E & _). eexists. exact E.
      * destruct Hb as (buf' & E). eexists. exact E.
    + intros fuel t g buf i. unfold Join. apply Join_while_no_fault. exact Hq.
  - intros Hq. split; [lia |]. split; [| split].
    + intros id buf.
      destruct (Z.to_nat (edges_query a - 1)) as [| n] eqn:En; [lia |].
      cbn [Join_decode]. rewrite edge_id_set_out by (unfold EDGE_ID_LEN; lia).
      reflexivity.
    + intros g buf x. apply Join_body_fault. unfold EDGE_ID_LEN. lia.
    + intros fuel t g buf Hx. unfold Join. cbn [Join_while].
      apply Z.ltb_lt in Hx. rewrite Hx.
      rewrite Join_body_fault by (unfold EDGE_ID_LEN; lia). reflexivity.
Qed.

Section SingleEdge.
Variable a : args.
Hypothesis Hone : edges_query a = 1.

Lemma single_size : Join_size a = ull (pos a 0).
Proof. unfold Join_size. rewrite Hone. reflexivity. Qed.

Lemma single_tuple x : Join_tuple a x 0 = ull (edges a x).
Proof. unfold Join_tuple, Join_slots. rewrite Hone. reflexivity. Qed.

Lemma single_valid t : tuple_valid_b a t = true.
Proof. unfold tuple_valid_b. rewrite Hone. reflexivity. Qed.

Lemma single_accepted g buf x : accepted a g buf x.
Proof.
  pose proof (Join_body_spec a g buf x) as H.
  rewrite single_valid in H. apply H. unfold EDGE_ID_LEN. lia.
Qed.

Lemma Join_while_single fuel : forall x g buf,
  0 <= x -> counts g = x ->
  (forall k, 0 <= k < x ->
     output g k = convert (VertexId a) (ull (edges a k))) ->
  Join_size a - x <= Z.of_nat fuel ->
  exists g',
    Join_while a fuel 1 (Join_size a) x g buf = Done g' /\
    counts g' = Z.max x (Join_size a) /\
    (forall k, 0 <= k < Z.max x (Join_size a) ->
       output g' k = convert (VertexId a) (ull (edges a k))).
Proof.
  pose proof (Join_size_range a) as Hs.
  induction fuel as [| fuel IH]; intros x g buf Hx Hc Hout Hf;
    cbn [Join_while]; destruct (Z.ltb_spec x (Join_size a)) as [Hlt | Hge];
    try lia;
    try (exists g; rewrite Z.max_l by lia; auto).
  destruct (single_accepted g buf x) as (g1 & buf1 & E & Hc1 & Ho1 & Hr1).
  rewrite E. cbn [bind fst snd].
  assert (Ex : ull (x + 1) = x + 1) by (apply ull_small; lia).
  assert (Ei : out_index a (counts g) 0 = x).
  { unfold out_index.
    rewrite Hone, Hc, Z.mul_1_r, Z.add_0_r, ull_idem. apply ull_small. lia. }
  rewrite Ex.
  destruct (IH (x + 1) g1 buf1) as (g' & E' & Hc' & Ho'); [lia | | | lia |].
  - rewrite Hc1, Hc. exact Ex.
  - intros k Hk. destruct (Z.eq_dec k x) as [-> | Hne].
    + rewrite <- Ei at 1. rewrite Ho1 by lia. f_equal. apply single_tuple.
    + rewrite Hr1; [apply Hout; lia |].
      intros k' Hk'. replace k' with 0 by lia. rewrite Ei. exact Hne.
  - exists g'. rewrite Z.max_r in * by lia. auto.
Qed.

End SingleEdge.

(** C6 (amended): for a query of exactly one edge (with pos[0] and the
    candidate ids within unsigned long long) the combination space has
    pos[0] tuples, the Join kernel accepts every tuple index, and the
    sequential run from a counter of zero ends with the counter equal to
    pos[0] and with output[k] holding edges[k] converted to VertexId, for
    every k in [0, pos[0]): output[k] = edges[k] where edges[k] is a value
    of VertexId. *)
Theorem Join_single_edge_query (a : args) :
  edges_query a = 1 ->
  0 <= pos a 0 < 2 ^ 64 ->
  (forall k, 0 <= k < pos a 0 -> 0 <= edges a k < 2 ^ 64) ->
  Join_size a = pos a 0 /\
  (forall x g buf, 0 <= x < pos a 0 -> accepted a g buf x) /\
  (forall fuel g buf,
     counts g = 0 -> pos a 0 <= Z.of_nat fuel ->
     exists g',
       Join fuel sequential a g buf = Done g' /\
       counts g' = pos a 0 /\
       (forall k, 0 <= k < pos a 0 ->
          output g' k = convert (VertexId a) (edges a k) /\
          (fits (VertexId a) (edges a k) -> output g' k = edges a k))).
Proof.
  intros Hone Hp He.
  assert (Hs : Join_size a = pos a 0).
  { rewrite single_size by exact Hone. apply ull_small. exact Hp. }
  split; [exact Hs |]. split.
  - intros x g buf _. apply single_accepted. exact Hone.
  - intros fuel g buf Hc Hf. rewrite Join_sequential.
    destruct (Join_while_single a Hone fuel 0 g buf) as (g' & E & Hc' & Ho');
      [lia | exact Hc | intros k Hk; lia | lia |].
    rewrite Z.max_r in * by lia. rewrite Hs in *.
    exists g'. split; [exact E |]. split; [exact Hc' |].
    intros k Hk. rewrite Ho' by exact Hk.
    rewrite (ull_small (edges a k)) by (apply He; exact Hk).
    split; [reflexivity |]. apply convert_small.
Qed.

(** The offset table of the triangle sample is well formed. *)
Lemma triangle_wf : wf_pos triangle.
Proof.
  split; [| vm_compute; reflexivity].
  intros k Hk. cbn in Hk.
  assert (Hc : k = 0 \/ k = 1 \/ k = 2) by lia.
  destruct Hc as [-> | [-> | ->]]; vm_compute; reflexivity.
Defined.

(** The triangle query on the sample data graph: the kernel ends after its
    64 tuples with the three rotations of the data triangle counted. *)
Lemma Join_accepts_exactly_valid_tuples_witness :
  1 <= edges_query triangle <= 3 /\
  wf_pos triangle /\
  space_size triangle = 64 /\
  exists g', Join 64 sequential triangle g0 buf0 = Done g' /\ counts g' = 3.
Proof.
  split; [cbn; lia |]. split; [exact triangle_wf |].
  split; [vm_compute; reflexivity |].
  destruct (Join_accepts_exactly_valid_tuples triangle ltac:(cbn; lia)
              triangle_wf ltac:(vm_compute; reflexivity))
    as (_ & _ & H).
  destruct (H 64%nat g0 buf0 ltac:(cbn; lia) ltac:(vm_compute; discriminate))
    as (g' & E & _ & Hc).
  exists g'. split; [exact E |]. rewrite Hc by reflexivity.
  vm_compute. reflexivity.
Defined.

(** With four query edges the tuple of the four path edges is valid, and
    the kernel faults on it instead of accepting it. *)
Lemma Join_four_query_edges_counterexample :
  0 <= 0 < Join_size path4 /\
  tuple_valid path4 (Join_tuple path4 0) /\
  ~ accepted path4 g0 buf0 0 /\
  Join 1 sequential path4 g0 buf0 = Fault 3.
Proof.
  split; [vm_compute; split; [discriminate | reflexivity] |].
  split; [apply tuple_valid_reflect; vm_compute; reflexivity |].
  split; [| vm_compute; reflexivity].
  intros (g' & b' & E & _).
  rewrite Join_body_fault in E by (vm_compute; intros [_ H]; apply H; reflexivity).
  discriminate E.
Qed.

(** Tuple index 27 of the triangle sample: 27 = (1 * 4 + 2) * 4 + 3 decodes
    to the slots 1, 4 + 2 and 8 + 3, which re-encode to 27. *)
Lemma Join_decode_roundtrip_witness :
  1 <= edges_query triangle /\
  0 <= 27 < space_size triangle /\
  Join_slots triangle 27 = [1; 6; 11] /\
  Join_encode triangle (Join_slots triangle 27) = 27.
Proof.
  split; [cbn; lia |].
  split; [vm_compute; split; [discriminate | reflexivity] |].
  split; [vm_compute; reflexivity |].
  refine (proj1 (Join_decode_roundtrip triangle _ triangle_wf 27 _)).
  - cbn. lia.
  - vm_compute. split; [discriminate | reflexivity].
Defined.

(** Tuple index 6 of the triangle sample is the accepted match of the data
    edges 0, 1, 2; its first two ids differ. *)
Lemma Join_emitted_ids_pairwise_distinct_witness :
  1 <= edges_query triangle <= 3 /\
  Join_tuple triangle 6 0 <> Join_tuple triangle 6 1 /\
  Join_tuple triangle 6 0 = 0 /\ Join_tuple triangle 6 1 = 1.
Proof.
  split; [cbn; lia |].
  split; [| split; vm_compute; reflexivity].
  destruct (Join_body triangle g0 buf0 6) as [[g' buf'] | i |] eqn:E.
  - apply (Join_emitted_ids_pairwise_distinct triangle g0 g' buf0 buf' 6
             ltac:(cbn; lia) E);
      [| cbn; lia | cbn; lia | lia].
    vm_compute in E. injection E as <- _. vm_compute. reflexivity.
  - vm_compute in E. discriminate E.
  - vm_compute in E. discriminate E.
Defined.

(** With 64-bit ids and a 32-bit VertexId the match of the data edges 5
    and 2^32 + 5 is accepted, and both entries written for it are 5. *)
Lemma Join_emitted_ids_pairwise_distinct_counterexample :
  accepted wide_pair g0 buf0 0 /\
  Join_tuple wide_pair 0 0 = 5 /\
  Join_tuple wide_pair 0 1 = 4294967301 /\
  exists g' buf',
    Join_body wide_pair g0 buf0 0 = Done (g', buf') /\
    counts g' = 1 /\
    output g' (out_index wide_pair 0 0) = 5 /\
    output g' (out_index wide_pair 0 1) = 5.
Proof.
  split.
  - apply accepted_iff_valid; [unfold EDGE_ID_LEN; cbn; lia |].
    apply tuple_valid_reflect. vm_compute. reflexivity.
  - split; [vm_compute; reflexivity |].
    split; [vm_compute; reflexivity |].
    eexists. eexists. split; [vm_compute; reflexivity |].
    split; [reflexivity |]. split; vm_compute; reflexivity.
Qed.

(** With 64-bit ids and a 32-bit VertexId the candidate 2^32 + 5 of a
    single-edge query is emitted as 5. *)
Lemma Join_single_edge_query_counterexample :
  edges_query wide_id = 1 /\
  pos wide_id 0 = 1 /\
  edges wide_id 0 = 4294967301 /\
  exists g',
    Join 1 sequential wide_id g0 buf0 = Done g' /\
    counts g' = 1 /\
    output g' 0 = 5 /\
    output g' 0 <> edges wide_id 0.
Proof.
  split; [reflexivity |]. split; [reflexivity |]. split; [reflexivity |].
  eexists. split; [vm_compute; reflexivity |].
  split; [reflexivity |]. split; [reflexivity |].
  vm_compute. discriminate.
Qed.

(** The single-edge sample: three candidates, three matches, emitted in
    order. *)
Lemma Join_single_edge_query_witness :
  edges_query single = 1 /\
  exists g',
    Join 3 sequential single g0 buf0 = Done g' /\
    counts g' = 3 /\
    map (output g') [0; 1; 2] = [5; 2; 7].
Proof.
  split; [reflexivity |].
  assert (He : forall k, 0 <= k < pos single 0 -> 0 <= edges single k < 2 ^ 64).
  { intros k Hk. change (pos single 0) with 3 in Hk.
    assert (Hc : k = 0 \/ k = 1 \/ k = 2) by lia.
    destruct Hc as [-> | [-> | ->]]; vm_compute; split; try discriminate; reflexivity. }
  destruct (Join_single_edge_query single eq_refl
              ltac:(vm_compute; split; [discriminate | reflexivity]) He)
    as (_ & _ & H).
  destruct (H 3%nat g0 buf0 eq_refl ltac:(vm_compute; discriminate))
    as (g' & E & Hc & Ho).
  exists g'. split; [exact E |]. split; [exact Hc |].
  cbn [map]. change (pos single 0) with 3 in Ho.
  rewrite (proj1 (Ho 0 ltac:(lia))), (proj1 (Ho 1 ltac:(lia))),
    (proj1 (Ho 2 ltac:(lia))).
  vm_compute. reflexivity.
Defined.

(** No fault with the three query edges of the triangle sample; a fault at
    index 3 with the four query edges of the path sample. *)
Lemma Join_edge_id_in_bounds_up_to_three_witness :
  (forall i, Join 64 sequential triangle g0 buf0 <> Fault i) /\
  Join_body path4 g0 buf0 0 = Fault 3.
Proof.
  split.
  - intros i.
    apply (proj1 (Join_edge_id_in_bounds_up_to_three triangle) ltac:(cbn; lia)).
  - apply (proj2 (Join_edge_id_in_bounds_up_to_three path4) ltac:(cbn; lia)).
Defined.

End JoinFacts.

(* ------------------------------------------------------------------ *)
(** ** The Update kernel *)
(* ------------------------------------------------------------------ *)

Module UpdateFacts.
Import UpdateKernel.

Section Compaction.
Variables (edges_data n : Z) (g0 : global).
Hypothesis Hed : 0 < edges_data.
Hypothesis Hn : 0 <= n < 2 ^ 32.
Hypothesis Hnonneg : forall x, 0 <= x < n -> 0 <= indices g0 x.
Hypothesis Hsorted : forall x y,
  0 <= x <= y -> y < n -> tag_of edges_data (indices g0 x) <= tag_of edges_data (indices g0 y).

Local Abbreviation T x := (tag_of edges_data (indices g0 x)).
Local Abbreviation ends x := (run_end edges_data n g0 x).
Local Abbreviation upto k g := (processed edges_data n g0 k g).

Lemma processed_start : upto 0 g0.
Proof. repeat split; intros; try reflexivity; lia. Qed.

Lemma processed_step k g :
  0 <= k < n -> upto k g -> upto (k + 1) (Update_body edges_data n k g).
Proof.
  intros Hk (I1 & I2 & I3).
  assert (Eu : uint (k + 1) = k + 1) by (apply uint_small; lia).
  unfold Update_body. rewrite Eu, (I1 k), (I1 (k + 1)) by lia.
  fold (tag_of edges_data (indices g0 k)) (tag_of edges_data (indices g0 (k + 1))).
  fold (T k) (T (k + 1)).
  split; [| split]; cbn [indices pos].
  - intros y Hy. rewrite store_other by lia. apply I1. lia.
  - intros y Hy. destruct (Z.eq_dec y k) as [-> | Hne].
    + apply store_same.
    + rewrite store_other by exact Hne. apply I2. lia.
  - intros y Hy Hend.
    destruct ((k =? n - 1) || (T k <? T (k + 1))) eqn:Ec.
    + destruct (Z.eq_dec y k) as [-> | Hne]; [apply store_same |].
      rewrite store_other; [apply I3; [lia | exact Hend] |].
      destruct Hend as [He | He]; [lia |].
      pose proof (Hsorted (y + 1) k ltac:(lia) ltac:(lia)). fold (T (y + 1)) (T k) in *. lia.
    + apply orb_false_iff in Ec. destruct Ec as [E1 E2].
      apply Z.eqb_neq in E1. apply Z.ltb_ge in E2.
      destruct (Z.eq_dec y k) as [-> | Hne].
      * destruct Hend; lia.
      * apply I3; [lia | exact Hend].
Qed.

Lemma Update_while_processed fuel : forall k g,
  0 <= k <= n -> upto k g -> n - k <= Z.of_nat fuel ->
  exists g', Update_while fuel edges_data 1 n k g = Done g' /\ upto n g'.
Proof.
  induction fuel as [| fuel IH]; intros k g Hk Hinv Hf; cbn [Update_while];
    destruct (Z.ltb_spec k n) as [Hlt | Hge]; try lia;
    try (assert (k = n) by lia; subst k; exists g;
         split; [reflexivity | exact Hinv]).
  replace (uint (k + 1)) with (k + 1) by (symmetry; apply uint_small; lia).
  apply IH; [lia | apply processed_step; [lia | exact Hinv] | lia].
Qed.

(** Every position is followed, within its run, by the end of the run. *)
Lemma run_end_exists m : forall x,
  0 <= x < n -> n - 1 - x <= Z.of_nat m ->
  exists y, x <= y < n /\ T y = T x /\ ends y.
Proof.
  induction m as [| m IH]; intros x Hx Hm.
  - exists x. repeat split; try lia. left. lia.
  - destruct (Z.eq_dec x (n - 1)) as [E | E].
    + exists x. repeat split; try lia. left. exact E.
    + pose proof (Hsorted x (x + 1) ltac:(lia) ltac:(lia)) as Hs.
      fold (T x) (T (x + 1)) in Hs.
      destruct (Z_lt_dec (T x) (T (x + 1))) as [Hl | Hl].
      * exists x. repeat split; try lia. right. exact Hl.
      * destruct (IH (x + 1)) as (y & Hy & Ey & Hend); [lia | lia |].
        exists y. repeat split; try lia. exact Hend.
Qed.

Lemma T_nonneg x : 0 <= x < n -> 0 <= T x.
Proof.
  intros Hx. unfold T, tag_of. apply Z.quot_pos; [apply Hnonneg, Hx | lia].
Qed.

Lemma T_sorted x y : 0 <= x <= y -> y < n -> T x <= T y.
Proof. apply Hsorted. Qed.

Lemma run_end_last y x :
  0 <= y < n -> ends y -> 0 <= x < n -> T x = T y -> x <= y.
Proof.
  intros Hy Hend Hx E. destruct (Z_le_dec x y) as [| Hgt]; [assumption |].
  destruct Hend as [He | He]; [lia |].
  pose proof (T_sorted (y + 1) x ltac:(lia) ltac:(lia)). lia.
Qed.

Lemma run_end_before y x :
  0 <= y < n -> ends y -> y < x < n -> T y < T x.
Proof.
  intros Hy Hend Hx. destruct Hend as [He | He]; [lia |].
  pose proof (T_sorted (y + 1) x ltac:(lia) ltac:(lia)). lia.
Qed.

(** After the loop, the table entry of a tag that occurs is one past the
    end of its run. *)
Lemma processed_pos g' i :
  upto n g' ->
  (exists x, 0 <= x < n /\ T x = i) ->
  exists y, 0 <= y < n /\ T y = i /\ ends y /\ pos g' i = y + 1.
Proof.
  intros (_ & _ & I3) (x & Hx & E).
  destruct (run_end_exists (Z.to_nat (n - 1 - x)) x Hx ltac:(lia))
    as (y & Hy & Ey & Hend).
  exists y. repeat split; try lia; try exact Hend.
  rewrite <- E, <- Ey. apply I3; [lia | exact Hend].
Qed.

Lemma seg_lower_run g' i :
  upto n g' ->
  (forall j, 0 <= j <= i -> exists x, 0 <= x < n /\ T x = j) ->
  0 <= i ->
  exists lo y,
    seg_lower (pos g') i = lo /\ pos g' i = y + 1 /\
    0 <= lo <= y /\ y < n /\ T y = i /\ ends y /\
    (forall x, 0 <= x < n -> (T x = i <-> lo <= x <= y)).
Proof.
  intros Hp Hocc Hi.
  destruct (processed_pos g' i Hp (Hocc i ltac:(lia)))
    as (y & Hy & Ey & Hend & Epos).
  destruct (Z.eq_dec i 0) as [-> | Hne].
  - exists 0, y.
    split; [reflexivity |]. split; [exact Epos |]. split; [lia |].
    split; [lia |]. split; [exact Ey |]. split; [exact Hend |].
    intros x Hx. split.
    + intros E. split; [lia |].
      apply (run_end_last y x); try lia; assumption.
    + intros [H1 H2]. pose proof (T_sorted x y ltac:(lia) ltac:(lia)).
      pose proof (T_nonneg x ltac:(lia)). lia.
  - destruct (processed_pos g' (i - 1) Hp (Hocc (i - 1) ltac:(lia)))
      as (z & Hz & Ez & Hendz & Eposz).
    assert (Hzy : z < y).
    { destruct (Z_lt_dec z y) as [| Hge]; [assumption |].
      pose proof (T_sorted y z ltac:(lia) ltac:(lia)). lia. }
    exists (z + 1), y. unfold seg_lower.
    destruct (Z.eqb_spec i 0) as [| _]; [contradiction |].
    split; [exact Eposz |]. split; [exact Epos |]. split; [lia |].
    split; [lia |]. split; [exact Ey |]. split; [exact Hend |].
    intros x Hx. split.
    + intros E. split.
      * destruct (Z_le_dec (z + 1) x) as [| Hle]; [assumption |].
        pose proof (T_sorted x z ltac:(lia) ltac:(lia)). lia.
      * apply (run_end_last y x); try lia; assumption.
    + intros [H1 H2]. pose proof (T_sorted x y ltac:(lia) ltac:(lia)).
      pose proof (run_end_before z x Hz Hendz ltac:(lia)). lia.
Qed.

End Compaction.

(** C3: let the candidate array hold pos[0] < 2^32 non-negative entries
    tag * edges_data + id sorted by tag, every query edge i < q carrying at
    least one entry.  The sequential Update kernel ends, and afterwards,
    for every query edge i: the positions of the entries that carried tag
    i are exactly [pos[i-1], pos[i]) (pos[-1] = 0), a non-empty range
    inside the array, so pos[i] is the exclusive upper bound of the run of
    i; every entry in that range equals its original value modulo
    edges_data and carried tag i; and pos is non-decreasing. *)
Theorem Update_segment_invariant (edges_data q : Z) (g : global) :
  0 < edges_data ->
  0 <= pos g 0 < 2 ^ 32 ->
  (forall x, 0 <= x < pos g 0 -> 0 <= indices g x) ->
  (forall x y, 0 <= x <= y -> y < pos g 0 ->
     tag_of edges_data (indices g x) <= tag_of edges_data (indices g y)) ->
  (forall i, 0 <= i < q ->
     exists x, 0 <= x < pos g 0 /\ tag_of edges_data (indices g x) = i) ->
  forall fuel, pos g 0 <= Z.of_nat fuel ->
  exists g',
    Update fuel sequential edges_data g = Done g' /\
    (forall i, 0 <= i < q ->
       0 <= seg_lower (pos g') i < pos g' i /\ pos g' i <= pos g 0 /\
       (forall x, 0 <= x < pos g 0 ->
          (tag_of edges_data (indices g x) = i
           <-> seg_lower (pos g') i <= x < pos g' i))) /\
    (forall i x, 0 <= i < q -> seg_lower (pos g') i <= x < pos g' i ->
       indices g' x = indices g x mod edges_data /\
       tag_of edges_data (indices g x) = i) /\
    (forall i j, 0 <= i <= j -> j < q -> pos g' i <= pos g' j).
Proof.
  intros Hed Hn Hnonneg Hsorted Hocc fuel Hf.
  set (n := pos g 0) in *.
  destruct (Update_while_processed edges_data n g Hn Hsorted fuel 0 g)
    as (g' & E & Hp); [lia | apply processed_start | lia |].
  exists g'. split; [exact E |].
  assert (Hrun : forall i, 0 <= i < q ->
            exists lo y,
              seg_lower (pos g') i = lo /\ pos g' i = y + 1 /\
              0 <= lo <= y /\ y < n /\
              tag_of edges_data (indices g y) = i /\
              (forall x, 0 <= x < n ->
                 (tag_of edges_data (indices g x) = i <-> lo <= x <= y))).
  { intros i Hi.
    destruct (seg_lower_run edges_data n g Hed Hnonneg Hsorted g' i Hp)
      as (lo & y & H1 & H2 & H3 & H4 & H5 & _ & H6);
      [intros j Hj; apply Hocc; lia | lia |].
    exists lo, y. repeat (split; [assumption |]). exact H6. }
  split; [| split].
  - intros i Hi. destruct (Hrun i Hi) as (lo & y & -> & -> & Hlo & Hy & _ & Hx).
    split; [lia |]. split; [lia |]. intros x Hr. rewrite (Hx x Hr). lia.
  - intros i x Hi Hr.
    destruct (Hrun i Hi) as (lo & y & Elo & Ey & Hlo & Hy & _ & Hx).
    rewrite Elo, Ey in Hr. split.
    + destruct Hp as (_ & I2 & _). rewrite I2 by lia.
      apply Z.rem_mod_nonneg; [apply Hnonneg; lia | lia].
    + apply Hx; lia.
  - intros i j Hij Hj.
    destruct (Z.eq_dec i j) as [-> | Hne]; [lia |].
    destruct (Hrun i ltac:(lia)) as (loi & yi & _ & -> & _ & Hyi & Eti & _).
    destruct (Hrun j ltac:(lia)) as (loj & yj & _ & -> & Hloj & Hyj & Etj & _).
    destruct (Z_le_dec yi yj) as [| Hgt]; [lia |].
    pose proof (Hsorted yj yi ltac:(lia) ltac:(lia)). lia.
Qed.

(** The sample array [1; 3 | 4; 6; 7 | 10] of tagged candidates: the runs
    of the three query edges end at 2, 5 and 6, and the array is de-tagged
    to [1; 3; 0; 2; 3; 2]. *)
Lemma Update_segment_invariant_witness :
  pos tagged 0 = 6 /\
  exists g',
    Update 6 sequential 4 tagged = Done g' /\
    map (pos g') [0; 1; 2] = [2; 5; 6] /\
    map (indices g') [0; 1; 2; 3; 4; 5] = [1; 3; 0; 2; 3; 2] /\
    (forall i x, 0 <= i < 3 -> seg_lower (pos g') i <= x < pos g' i ->
       indices g' x = indices tagged x mod 4 /\
       tag_of 4 (indices tagged x) = i).
Proof.
  split; [reflexivity |].
  assert (Hn : forall x, 0 <= x < pos tagged 0 -> 0 <= indices tagged x).
  { intros x Hx. apply Z.leb_le.
    exact (forallb_Zrange (fun x => 0 <=? indices tagged x) 6 eq_refl x Hx). }
  assert (Hs : forall x y, 0 <= x <= y -> y < pos tagged 0 ->
            tag_of 4 (indices tagged x) <= tag_of 4 (indices tagged y)).
  { intros x y Hx Hy. change (pos tagged 0) with 6 in Hy.
    pose proof (forallb_Zrange
      (fun x => forallb (fun y => negb (x <=? y)
                                  || (tag_of 4 (indices tagged x)
                                      <=? tag_of 4 (indices tagged y)))
                  (Zrange 6)) 6 eq_refl x ltac:(lia)) as H.
    pose proof (forallb_Zrange _ 6 H y ltac:(lia)) as H'. cbv beta in H'.
    apply orb_true_iff in H'. destruct H' as [H' | H'].
    - apply negb_true_iff, Z.leb_gt in H'. lia.
    - apply Z.leb_le. exact H'. }
  assert (Ho : forall i, 0 <= i < 3 ->
            exists x, 0 <= x < pos tagged 0 /\ tag_of 4 (indices tagged x) = i).
  { intros i Hi. assert (Hc : i = 0 \/ i = 1 \/ i = 2) by lia.
    destruct Hc as [-> | [-> | ->]];
      [exists 0 | exists 2 | exists 5]; split; try reflexivity;
      change (pos tagged 0) with 6; lia. }
  destruct (Update_segment_invariant 4 3 tagged ltac:(lia)
              ltac:(change (pos tagged 0) with 6; lia) Hn Hs Ho 6%nat
              ltac:(change (pos tagged 0) with 6; lia))
    as (g' & E & _ & Hd & _).
  exists g'. split; [exact E |].
  assert (Eg : Update 6 sequential 4 tagged = Done g') by exact E.
  vm_compute in Eg. injection Eg as Eg.
  split; [rewrite <- Eg; vm_compute; reflexivity |].
  split; [rewrite <- Eg; vm_compute; reflexivity |].
  exact Hd.
Defined.

End UpdateFacts.

(* ------------------------------------------------------------------ *)
(** ** The Label kernel *)
(* ------------------------------------------------------------------ *)

Module LabelFacts.
Import LabelKernel.

(** On a non-negative word, the test [(v >> s) % 2 == 1] reads bit [s]. *)
Lemma shift_rem_testbit v s :
  0 <= v -> 0 <= s -> (Z.rem (Z.shiftr v s) 2 =? 1) = Z.testbit v s.
Proof.
  intros Hv Hs.
  rewrite Z.rem_mod_nonneg by (try apply Z.shiftr_nonneg; lia).
  rewrite Z.shiftr_div_pow2 by exact Hs.
  rewrite <- Z.testbit_spec' by exact Hs.
  destruct (Z.testbit v s); reflexivity.
Qed.

Section Marks.
Variable a : args.

Lemma Label_for_spec x n : forall i label,
  (forall k, i <= k < i + Z.of_nat n ->
     Label_test a x (froms_query a k) (tos_query a k) = true ->
     Label_for a n i x label (label_index a x k) = 1) /\
  (forall j, Label_for a n i x label j = 1 \/ Label_for a n i x label j = label j).
Proof.
  induction n as [| n IH]; intros i label.
  - split; [intros k Hk; lia | intros j; right; reflexivity].
  - cbn [Label_for].
    set (label1 := if Label_test a x (froms_query a i) (tos_query a i)
                   then store label (x + Z.quot (i * edges_data a) 2) 1
                   else label).
    destruct (IH (i + 1) label1) as [Hk Hj].
    assert (H1 : forall j, label1 j = 1 \/ label1 j = label j).
    { intros j. unfold label1. destruct (Label_test a x _ _); [| right; reflexivity].
      unfold store. destruct (j =? _); [left | right]; reflexivity. }
    split.
    + intros k Hr Ht. destruct (Z.eq_dec k i) as [-> | Hne].
      * destruct (Hj (label_index a x i)) as [E | E]; [exact E |].
        rewrite E. unfold label1. rewrite Ht. apply store_same.
      * apply Hk; [lia | exact Ht].
    + intros j. destruct (Hj j) as [E | E]; [left; exact E |].
      rewrite E. apply H1.
Qed.

Lemma Label_while_spec size fuel : forall x label,
  size - x <= Z.of_nat fuel ->
  exists label',
    Label_while a fuel 1 size x label = Done label' /\
    (forall y i, x <= y < size -> 0 <= i < edges_query a ->
       Label_test a y (froms_query a i) (tos_query a i) = true ->
       label' (label_index a y i) = 1) /\
    (forall j, label' j = 1 \/ label' j = label j).
Proof.
  induction fuel as [| fuel IH]; intros x label Hf; cbn [Label_while];
    destruct (Z.ltb_spec x size) as [Hlt | Hge]; try lia;
    try (exists label; split; [reflexivity |];
         split; [intros y i Hy; lia | intros j; right; reflexivity]).
  set (label1 := Label_for a (Z.to_nat (edges_query a)) 0 x label).
  destruct (Label_for_spec x (Z.to_nat (edges_query a)) 0 label) as [Hk Hj].
  fold label1 in Hk, Hj.
  destruct (IH (x + 1) label1) as (label' & E & Hy & Hj'); [lia |].
  exists label'. split; [exact E |]. split.
  - intros y i Hr Hi Ht. destruct (Z.eq_dec y x) as [-> | Hne].
    + destruct (Hj' (label_index a x i)) as [E' | E']; [exact E' |].
      rewrite E'. apply Hk; [lia | exact Ht].
    + apply Hy; [lia | exact Hi | exact Ht].
  - intros j. destruct (Hj' j) as [E' | E']; [left; exact E' |].
    rewrite E'. apply Hj.
Qed.

End Marks.

(** What the kernel does mark: on non-negative candidacy words, every data
    edge x below d_query_row[0] that the bitmask makes a candidate of a
    query edge i has its entry x + (i * edges_data) / 2 set to 1; every
    other entry is 1 or as before. *)
Lemma Label_sequential fuel a label :
  Label fuel sequential a label
  = Label_while a fuel 1 (d_query_row a 0) 0 label.
Proof.
  unfold Label. rewrite convert_STRIDE_sequential, convert_x_sequential.
  reflexivity.
Qed.

Lemma Label_marks_visited_edges (a : args) (label : mem) :
  (forall v, 0 <= d_c_set a v) ->
  (forall i, 0 <= i < edges_query a ->
     0 <= froms_query a i /\ 0 <= tos_query a i) ->
  forall fuel, d_query_row a 0 <= Z.of_nat fuel ->
  exists label',
    Label fuel sequential a label = Done label' /\
    (forall x i,
       0 <= x < d_query_row a 0 -> 0 <= i < edges_query a ->
       Z.testbit (d_c_set a (froms_data a x)) (froms_query a i) = true ->
       Z.testbit (d_c_set a (tos_data a x)) (tos_query a i) = true ->
       label' (x + Z.quot (i * edges_data a) 2) = 1) /\
    (forall j, label' j = 1 \/ label' j = label j) /\
    (d_query_row a 0 <= 0 -> label' = label).
Proof.
  intros Hmask Hq fuel Hf.
  destruct (Label_while_spec a (d_query_row a 0) fuel 0 label)
    as (label' & E & Hy & Hj); [lia |].
  exists label'. rewrite Label_sequential.
  split; [exact E |]. split; [| split; [exact Hj |]].
  - intros x i Hx Hi H1 H2. apply (Hy x i Hx Hi).
    unfold Label_test. destruct (Hq i Hi) as [Hs Hd].
    rewrite !shift_rem_testbit by auto. rewrite H1, H2. reflexivity.
  - intros Hz.
    destruct fuel; cbn [Label_while] in E;
      destruct (Z.ltb_spec 0 (d_query_row a 0)); try lia;
      injection E as <-; reflexivity.
Qed.

(** The same loop with the number of data edges as its bound (an even
    number, each undirected edge being stored in both directions) visits
    every data edge and marks every candidate at x + i * (edges_data / 2). *)
Lemma Label_while_over_all_edges (a : args) (label : mem) :
  (forall v, 0 <= d_c_set a v) ->
  (forall i, 0 <= i < edges_query a ->
     0 <= froms_query a i /\ 0 <= tos_query a i) ->
  0 <= edges_data a -> Z.even (edges_data a) = true ->
  forall fuel, edges_data a <= Z.of_nat fuel ->
  exists label',
    Label_while a fuel 1 (edges_data a) 0 label = Done label' /\
    (forall x i,
       0 <= x < edges_data a -> 0 <= i < edges_query a ->
       Z.testbit (d_c_set a (froms_data a x)) (froms_query a i) = true ->
       Z.testbit (d_c_set a (tos_data a x)) (tos_query a i) = true ->
       label' (x + i * (edges_data a / 2)) = 1).
Proof.
  intros Hmask Hq Hed Heven fuel Hf.
  destruct (Label_while_spec a (edges_data a) fuel 0 label)
    as (label' & E & Hy & _); [lia |].
  exists label'. split; [exact E |].
  intros x i Hx Hi H1 H2.
  assert (Ei : i * (edges_data a / 2) = Z.quot (i * edges_data a) 2).
  { apply Z.even_spec in Heven. destruct Heven as [m Hm]. rewrite Hm.
    replace (i * (2 * m)) with (i * m * 2) by ring.
    rewrite Z.quot_mul by lia.
    replace (2 * m) with (m * 2) by ring. rewrite Z.div_mul by lia. ring. }
  rewrite Ei. apply (Hy x i Hx Hi).
  unfold Label_test. destruct (Hq i Hi) as [Hs Hd].
  rewrite !shift_rem_testbit by auto. rewrite H1, H2. reflexivity.
Qed.

(** C4 (the code departs from the claim): the loop of Label runs while
    x < d_query_row[0].  With the row offsets of the query graph as
    d_query_row, whose first entry is 0, the kernel visits no data edge and
    leaves label as it was, although data edge 0 is below edges_data and
    the bitmask makes it a candidate of query edge 0. *)
Theorem Label_row_offsets_mark_nothing :
  0 <= 0 < edges_data with_row_offsets /\
  0 <= 0 < edges_query with_row_offsets /\
  Z.testbit (d_c_set with_row_offsets (froms_data with_row_offsets 0))
    (froms_query with_row_offsets 0) = true /\
  Z.testbit (d_c_set with_row_offsets (tos_data with_row_offsets 0))
    (tos_query with_row_offsets 0) = true /\
  exists label',
    Label 8 sequential with_row_offsets unmarked = Done label' /\
    label' (0 + 0 * (edges_data with_row_offsets / 2)) = 0.
Proof.
  split; [cbn; lia |]. split; [cbn; lia |].
  split; [reflexivity |]. split; [reflexivity |].
  exists unmarked. split; reflexivity.
Qed.

(** With 2 as first entry of [d_query_row] both data edges are visited and
    marked. *)
Example Label_marks_visited_edges_example :
  d_query_row with_count 0 = 2 /\
  exists label',
    Label 2 sequential with_count unmarked = Done label' /\
    label' 0 = 1 /\ label' 1 = 1.
Proof.
  split; [reflexivity |].
  assert (Hm : forall v, 0 <= d_c_set with_count v).
  { intros v. cbn. unfold of_list. destruct (v <? 0); [lia |].
    destruct (Z.to_nat v) as [| [| m]]; cbn; try lia.
    destruct m; lia. }
  assert (Hq : forall i, 0 <= i < edges_query with_count ->
            0 <= froms_query with_count i /\ 0 <= tos_query with_count i).
  { intros i Hi. cbn in Hi. replace i with 0 by lia. cbn. lia. }
  destruct (Label_marks_visited_edges with_count unmarked Hm Hq 2%nat
              ltac:(cbn; lia)) as (label' & E & Hx & _).
  exists label'. split; [exact E |]. split.
  - apply (Hx 0 0); try reflexivity; cbn; lia.
  - apply (Hx 1 0); try reflexivity; cbn; lia.
Qed.

End LabelFacts.

(* ------------------------------------------------------------------ *)
(** ** SMProblem::Init and SMProblem::Extract *)
(* ------------------------------------------------------------------ *)

Module SMProblemFacts.
Import SMProblem.

Ltac effect_cases :=
  unfold effect;
  repeat (match goal with
          | |- context [match ?x with _ => _ end] => destruct x
          end; cbn; try reflexivity).

Lemma effect_this d o w : this (effect d o w) = this w.
Proof. effect_cases. Qed.

Lemma effect_trace d o w : trace (effect d o w) = trace w.
Proof. effect_cases. Qed.

Lemma effect_retval d o w : retval (effect d o w) = retval w.
Proof. effect_cases. Qed.

Lemma effect_aborted d o w : aborted (effect d o w) = aborted w.
Proof. effect_cases. Qed.

Lemma check_ok d o w :
  status d o = cudaSuccess ->
  check d o w = (inr tt, set_retval cudaSuccess (effect d o (log o w))).
Proof.
  intros E. unfold check. cbn [retval set_retval]. rewrite E. reflexivity.
Qed.

Lemma check_fail d o w :
  status d o <> cudaSuccess ->
  check d o w = (inl (status d o), set_retval (status d o) (effect d o (log o w))).
Proof.
  intros E. unfold check. cbn [retval set_retval]. apply Z.eqb_neq in E.
  unfold cudaSuccess in E. rewrite E. reflexivity.
Qed.

(** An action whose operands are defined takes place: it is a tested or an
    untested call; otherwise the run leaves the function there. *)
Lemma do_step_defined d o w :
  undefined_at (this w) o = None ->
  do_step d (Call o) w = (if checked o then check d o else exec d o) w.
Proof.
  intros E. cbn [do_step]. unfold do_check, do_exec, defined.
  destruct (checked o); rewrite E; reflexivity.
Qed.

Lemma do_step_undefined d o w c :
  undefined_at (this w) o = Some c ->
  do_step d (Call o) w = (inl (retval w), set_aborted c w).
Proof.
  intros E. cbn [do_step]. unfold do_check, do_exec, defined.
  destruct (checked o); rewrite E; reflexivity.
Qed.

(** A straight-line function all of whose actions are defined and all of
    whose tested calls succeed falls through, having performed every
    action. *)
Lemma run_steps_ok d l : forall w,
  all_defined l (this w) = true ->
  (forall o, In o (calls l) -> checked o = true -> status d o = cudaSuccess) ->
  exists w',
    run_steps d l w = (inr tt, w') /\
    trace w' = trace w ++ calls l /\
    (retval w = cudaSuccess -> retval w' = cudaSuccess) /\
    (In InitRetval l -> retval w' = cudaSuccess) /\
    aborted w' = aborted w.
Proof.
  induction l as [| s l IH]; intros w Hdef Hok.
  - exists w. cbn. rewrite app_nil_r. repeat split; auto. intros [].
  - destruct s as [o | f |]; cbn [run_steps calls flat_map app all_defined] in *.
    + destruct (undefined_at (this w) o) eqn:Eu; [discriminate |].
      unfold seq_host. rewrite (do_step_defined d o w Eu).
      destruct (IH (if checked o
                    then set_retval (status d o) (effect d o (log o w))
                    else effect d o (log o w)))
        as (w' & E & Ht & Hr & Hres & Ha).
      { destruct (checked o); cbn [this set_retval]; rewrite effect_this;
          exact Hdef. }
      { intros o' Hin. apply Hok. right. exact Hin. }
      exists w'.
      destruct (checked o) eqn:Ec.
      * rewrite check_ok by (apply Hok; [left; reflexivity | exact Ec]).
        rewrite (Hok o (or_introl eq_refl) Ec) in *.
        split; [exact E |]. split.
        -- rewrite Ht. cbn. rewrite effect_trace. cbn. rewrite <- app_assoc.
           reflexivity.
        -- split; [intros _; apply Hr; reflexivity |].
           split; [intros [H | H]; [discriminate | apply Hr; reflexivity] |].
           rewrite Ha. cbn. rewrite effect_aborted. reflexivity.
      * unfold exec. split; [exact E |]. split.
        -- rewrite Ht, effect_trace. cbn. rewrite <- app_assoc. reflexivity.
        -- rewrite effect_retval in Hr. cbn in Hr. split; [exact Hr |].
           split; [intros [H | H]; [discriminate | apply Hres, H] |].
           rewrite Ha, effect_aborted. reflexivity.
    + destruct (IH (set_this f w) Hdef Hok) as (w' & E & Ht & Hr & Hres & Ha).
      exists w'. unfold seq_host. cbn [do_step]. unfold modify.
      split; [exact E |].
      split; [exact Ht |]. split; [exact Hr |].
      split; [intros [H | H]; [discriminate | apply Hres, H] | exact Ha].
    + destruct (IH (set_retval cudaSuccess w) Hdef Hok)
        as (w' & E & Ht & Hr & Hres & Ha).
      exists w'. unfold seq_host. cbn [do_step]. split; [exact E |].
      split; [exact Ht |].
      split; [intros _; apply Hr; reflexivity |].
      split; [intros _; apply Hr; reflexivity | exact Ha].
Qed.


(** A property of the object that every assignment preserves holds when
    the function is left, however it is left. *)
Lemma run_steps_this (P : problem -> Prop) d l :
  Forall (fun s => match s with
                   | Assign f => forall p, P p -> P (f p)
                   | _ => True
                   end) l ->
  forall w, P (this w) -> P (this (snd (run_steps d l w))).
Proof.
  induction 1 as [| s l Hs Hl IH]; intros w Hw; [exact Hw |].
  cbn [run_steps]. unfold seq_host.
  destruct s as [o | f |].
  - destruct (undefined_at (this w) o) as [c |] eqn:Eu.
    + rewrite (do_step_undefined d o w c Eu). exact Hw.
    + rewrite (do_step_defined d o w Eu). destruct (checked o).
      * unfold check. cbn [retval set_retval].
        destruct (negb (status d o =? 0)); [cbn; rewrite effect_this; exact Hw |].
        apply IH. cbn. rewrite effect_this. exact Hw.
      * unfold exec. apply IH. rewrite effect_this. exact Hw.
  - cbn [do_step]. unfold modify. apply IH. cbn. apply Hs, Hw.
  - cbn [do_step]. apply IH. exact Hw.
Qed.

Lemma seq_host_cong {A B C : Type} (m : host A) (k1 k2 : A -> host B)
    (h : B -> host C) w :
  (forall v w', seq_host (k1 v) h w' = seq_host (k2 v) h w') ->
  seq_host (seq_host m k1) h w = seq_host (seq_host m k2) h w.
Proof.
  intros H. unfold seq_host at 1 2 3 4.
  destruct (m w) as [[r | v] w']; [reflexivity |]. apply H.
Qed.

Lemma seq_host_ext {A B : Type} (m : host A) (k1 k2 : A -> host B) w :
  (forall v w', k1 v w' = k2 v w') ->
  seq_host m k1 w = seq_host m k2 w.
Proof.
  intros H. unfold seq_host.
  destruct (m w) as [[r | v] w']; [reflexivity |]. apply H.
Qed.

Lemma seq_host_ret {A C : Type} (m : host A) (h : unit -> host C) w :
  seq_host m (fun _ => h tt) w
  = seq_host (seq_host m (fun _ => ret tt)) h w.
Proof.
  unfold seq_host, ret. destruct (m w) as [[r | v] w']; reflexivity.
Qed.

Lemma seq_host_assoc {A B C : Type} (m : host A) (k : A -> host B)
    (h : B -> host C) w :
  seq_host (seq_host m k) h w = seq_host m (fun v => seq_host (k v) h) w.
Proof. unfold seq_host. destruct (m w) as [[r | v] w']; reflexivity. Qed.

Lemma seq_modify {B : Type} f (k : unit -> host B) w :
  seq_host (modify f) k w = k tt (set_this f w).
Proof. reflexivity. Qed.

Lemma seq_exec {B : Type} d o (k : unit -> host B) w :
  seq_host (exec d o) k w = k tt (effect d o (log o w)).
Proof. reflexivity. Qed.

Lemma seq_reset {B : Type} (k : unit -> host B) w :
  seq_host (fun w0 => (inr tt, set_retval cudaSuccess w0)) k w
  = k tt (set_retval cudaSuccess w).
Proof. reflexivity. Qed.

Lemma seq_get_this {B : Type} (k : problem -> host B) w :
  seq_host get_this k w = k (this w) w.
Proof. reflexivity. Qed.

Lemma Init_as_steps d pf sfh gq gd l1 l2 l3 n w :
  Init d pf sfh gq gd l1 l2 l3 n w
  = seq_host (run_steps d (Init_steps (current_gpu d) pf gq gd n))
      (fun _ => return_retval) w.
Proof.
  unfold Init, Init_steps, Init_entry_steps, Init_slice_steps.
  cbn [app run_steps do_step checked].
  rewrite seq_modify, seq_exec, seq_exec, seq_reset, seq_get_this.
  rewrite seq_host_assoc, seq_modify.
  change (do_exec d (ProblemBase_Init gq)) with (exec d (ProblemBase_Init gq)).
  change (do_exec d (ProblemBase_Init gd)) with (exec d (ProblemBase_Init gd)).
  rewrite seq_host_assoc, seq_exec.
  rewrite seq_host_assoc, seq_exec.
  rewrite seq_host_assoc, seq_reset.
  cbn [this set_retval log set_this effect num_gpus nodes_query edges_query
       nodes_data edges_data Init_sizes].
  generalize (set_retval cudaSuccess
    (log (ProblemBase_Init gd)
       (log (ProblemBase_Init gq) (set_this (Init_sizes pf gq gd n) w)))).
  intros w0.
  do 6 (rewrite seq_host_assoc; apply seq_host_ext; intros [] ?).
  destruct (n <=? 1); [| reflexivity].
  cbn [run_steps do_step checked].
  repeat (apply seq_host_cong; intros [] ?).
  apply (seq_host_ret _ (fun _ => return_retval)).
Qed.

Lemma run_seq_return (m : host unit) w :
  run (fun w0 => seq_host m (fun _ => return_retval) w0) w
  = match m w with
    | (inl r, w') => (r, w')
    | (inr _, w') => (retval w', w')
    end.
Proof.
  unfold run, seq_host, return_retval. destruct (m w) as [[r | v] w']; reflexivity.
Qed.

Lemma run_Init d pf sfh gq gd l1 l2 l3 n w :
  run (Init d pf sfh gq gd l1 l2 l3 n) w
  = match run_steps d (Init_steps (current_gpu d) pf gq gd n) w with
    | (inl r, w') => (r, w')
    | (inr _, w') => (retval w', w')
    end.
Proof.
  rewrite <- run_seq_return. unfold run. rewrite Init_as_steps. reflexivity.
Qed.

Lemma Init_steps_Reset gpu pf gq gd n : In InitRetval (Init_steps gpu pf gq gd n).
Proof.
  unfold Init_steps, Init_entry_steps. cbn [app]. do 3 right. left.
  reflexivity.
Qed.

(** Called for one GPU with device 0 current, or for several GPUs, [Init]
    evaluates no undefined operand. *)
Lemma Init_all_defined gpu pf gq gd n p :
  1 <= n -> (n = 1 -> gpu = 0) ->
  all_defined (Init_steps gpu pf gq gd n) p = true.
Proof.
  intros Hn Hgpu. destruct (Z.eq_dec n 1) as [-> | Hne].
  - rewrite (Hgpu eq_refl). reflexivity.
  - unfold Init_steps, Init_entry_steps.
    destruct (Z.leb_spec n 1) as [H | H]; [lia |].
    cbn [app all_defined undefined_at slice_of].
    destruct (Z.ltb_spec n 0) as [H0 | H0]; [lia |].
    destruct (Z.ltb_spec 0 n) as [H1 | H1]; [reflexivity | lia].
Qed.




Lemma Init_this d pf sfh gq gd l1 l2 l3 n w :
  this (snd (run (Init d pf sfh gq gd l1 l2 l3 n) w))
  = this (snd (run_steps d (Init_steps (current_gpu d) pf gq gd n) w)).
Proof.
  rewrite run_Init.
  destruct (run_steps d _ w) as [[r | v] w']; reflexivity.
Qed.

(** C8 (amended): Init assigns vertex_cover_size the quotient of the size
    of a pointer by the size of a VertexId.  The value does not depend on
    the vertex cover that is passed (nor on the outcome of the later
    calls); it is 1 when the two sizes are equal. *)
Theorem Init_vertex_cover_size_is_sizeof_ratio (d : device) (pf : platform)
    (stream_from_host : bool) (graph_query graph_data : Csr)
    (h_query_labels h_data_labels h_vertex_cover : list Z) (_num_gpus : Z)
    (w : world) :
  let size_after cover :=
    vertex_cover_size
      (this (snd (run (Init d pf stream_from_host graph_query graph_data
                         h_query_labels h_data_labels cover _num_gpus) w))) in
  size_after h_vertex_cover
  = Z.quot (sizeof_pointer pf) (sizeof_VertexId pf) /\
  (forall cover, size_after cover = size_after h_vertex_cover) /\
  (0 < sizeof_VertexId pf -> sizeof_pointer pf = sizeof_VertexId pf ->
   size_after h_vertex_cover = 1).
Proof.
  intros size_after.
  assert (H : forall cover,
            size_after cover = Z.quot (sizeof_pointer pf) (sizeof_VertexId pf)).
  { intros cover. unfold size_after. rewrite Init_this.
    unfold Init_steps, Init_entry_steps. cbn [app].
    match goal with
    | |- context [run_steps d (?s :: ?l)] => remember l as rest eqn:Er
    end.
    cbn [run_steps do_step]. rewrite seq_modify.
    apply (run_steps_this
             (fun p => vertex_cover_size p
                       = Z.quot (sizeof_pointer pf) (sizeof_VertexId pf)));
      [| reflexivity].
    subst rest.
    destruct (_num_gpus <=? 1); unfold Init_slice_steps;
      repeat constructor; intros p Hp; exact Hp. }
  split; [apply H |]. split.
  - intros cover. rewrite !H. reflexivity.
  - intros Hpos Heq. rewrite H, Heq. apply Z.quot_same. lia.
Qed.

(** [Extract] as a function of the two statuses it tests. *)
Lemma run_Extract d w :
  run (Extract d) w
  = let set_device := SetDevice (gpu_idx (this w)) in
    let transfer := Move 0 d_c_set DEVICE HOST in
    if num_gpus (this w) =? 1 then
      if status d set_device =? cudaSuccess then
        if status d transfer =? cudaSuccess then
          (cudaSuccess,
           {| this := set_num_matches 0 (this w); retval := cudaSuccess;
              trace := trace w ++ [set_device; SetPointer 0 d_c_set; transfer];
              device_c_set := device_c_set w;
              host_c_set := device_c_set w;
              aborted := aborted w |})
        else
          (status d transfer,
           {| this := this w; retval := status d transfer;
              trace := trace w ++ [set_device; SetPointer 0 d_c_set; transfer];
              device_c_set := device_c_set w;
              host_c_set := host_c_set w;
              aborted := aborted w |})
      else
        (status d set_device,
         {| this := this w; retval := status d set_device;
            trace := trace w ++ [set_device];
            device_c_set := device_c_set w;
            host_c_set := host_c_set w;
            aborted := aborted w |})
    else (cudaSuccess, set_retval cudaSuccess w).
Proof.
  unfold Extract, run. rewrite seq_reset, seq_get_this. cbn [this set_retval].
  cbv zeta. destruct (num_gpus (this w) =? 1); [| reflexivity].
  unfold seq_host, check, exec, modify, return_retval, cudaSuccess.
  cbn [retval set_retval effect log trace this device_c_set host_c_set aborted].
  destruct (status d (SetDevice (gpu_idx (this w))) =? 0) eqn:E1;
    cbn [negb]; [| reflexivity].
  apply Z.eqb_eq in E1. rewrite E1.
  unfold cudaSuccess.
  destruct (status d (Move 0 d_c_set DEVICE HOST) =? 0) eqn:E2; cbn [negb].
  - apply Z.eqb_eq in E2. rewrite E2. cbn. rewrite <- !app_assoc. reflexivity.
  - unfold set_retval, log. cbn. rewrite <- !app_assoc. reflexivity.
Qed.

(** C10 (amended): with num_gpus = 1, when the selection of the device and
    the transfer both succeed, Extract returns cudaSuccess, the host buffer
    holds the bitmask d_c_set of the device, and num_matches is reset to 0
    (nothing else of the object changes); when the selection of the device
    fails, or the transfer fails, Extract returns that status at once and
    leaves the object, num_matches included, and the host buffer as they
    were.  With num_gpus <> 1 Extract makes no call, changes neither the
    object nor a buffer, and returns cudaSuccess. *)
Theorem Extract_copies_and_resets_on_success (d : device) (w : world) :
  let result := run (Extract d) w in
  let set_device := SetDevice (gpu_idx (this w)) in
  let transfer := Move 0 d_c_set DEVICE HOST in
  (num_gpus (this w) = 1 ->
   status d set_device = cudaSuccess ->
   status d transfer = cudaSuccess ->
   fst result = cudaSuccess /\
   host_c_set (snd result) = device_c_set w /\
   device_c_set (snd result) = device_c_set w /\
   this (snd result) = set_num_matches 0 (this w) /\
   trace (snd result)
   = trace w ++ [set_device; SetPointer 0 d_c_set; transfer]) /\
  (num_gpus (this w) = 1 ->
   status d set_device <> cudaSuccess ->
   fst result = status d set_device /\
   host_c_set (snd result) = host_c_set w /\
   this (snd result) = this w /\
   trace (snd result) = trace w ++ [set_device]) /\
  (num_gpus (this w) = 1 ->
   status d set_device = cudaSuccess ->
   status d transfer <> cudaSuccess ->
   fst result = status d transfer /\
   host_c_set (snd result) = host_c_set w /\
   this (snd result) = this w) /\
  (num_gpus (this w) <> 1 ->
   fst result = cudaSuccess /\
   this (snd result) = this w /\
   host_c_set (snd result) = host_c_set w /\
   device_c_set (snd result) = device_c_set w /\
   trace (snd result) = trace w).
Proof.
  intros result set_device transfer. subst result set_device transfer.
  rewrite run_Extract. cbv zeta. unfold cudaSuccess.
  split; [| split; [| split]].
  - intros Hn Hs Ht. rewrite Hn, Hs, Ht. cbn. repeat split; reflexivity.
  - intros Hn Hs. apply Z.eqb_neq in Hs. rewrite Hn, Hs. cbn.
    repeat split; reflexivity.
  - intros Hn Hs Ht. apply Z.eqb_neq in Ht. rewrite Hn, Hs, Ht. cbn.
    repeat split; reflexivity.
  - intros Hn. apply Z.eqb_neq in Hn. rewrite Hn. cbn.
    repeat split; reflexivity.
Qed.

(** On a 64-bit host with 32-bit vertex ids the field is 2, whatever the
    length of the vertex cover passed. *)
Lemma Init_vertex_cover_size_counterexample :
  vertex_cover_size
    (this (snd (run (Init healthy lp64_int32 true query_graph data_graph
                       [0; 1] [0; 1; 0] [0; 1; 2] 1) start))) = 2 /\
  length [0; 1; 2] = 3%nat /\
  2 <> 1.
Proof.
  split; [vm_compute; reflexivity |]. split; [reflexivity | discriminate].
Qed.

(** With 64-bit vertex ids on a 64-bit host the field is 1. *)
Lemma Init_vertex_cover_size_is_sizeof_ratio_witness :
  vertex_cover_size
    (this (snd (run (Init healthy lp64_int64 true query_graph data_graph
                       [0; 1] [0; 1; 0] [0; 1; 2] 1) start))) = 1.
Proof.
  apply (Init_vertex_cover_size_is_sizeof_ratio healthy lp64_int64 true
           query_graph data_graph [0; 1] [0; 1; 0] [0; 1; 2] 1 start);
    [cbn; lia | reflexivity].
Defined.

(** The actions of [Init] on the sample graphs, for one GPU on device 0,
    when every call succeeds. *)
Example Init_sequence_sample :
  Init_sequence 0 lp64_int32 true query_graph data_graph [0; 1] [0; 1; 0] [0]
    1 blank
  = [ ProblemBase_Init query_graph; ProblemBase_Init data_graph;
      new_data_slices 1; new_d_data_slices 1; new_streams 1;
      assign_streams_0 1;
      cudaGetDevice; new_DataSlice; cudaMalloc_d_data_slices;
      streams_SetPointer; DataSliceBase_Init query_graph;
      DataSliceBase_Init data_graph;
      Allocate 0 labels 2; Allocate 0 d_query_labels 2;
      Allocate 0 d_data_labels 3; Allocate 0 d_query_nodeIDs 2;
      Allocate 0 d_query_edgeIDs 1; Allocate 0 d_query_row 3;
      Allocate 0 d_query_col 1; Allocate 0 d_edge_weights 1;
      Allocate 0 d_c_set 6; Allocate 0 d_query_degrees 2;
      Allocate 0 d_data_degrees 3; Allocate 0 d_temp_keys 3;
      Allocate 0 d_vertex_cover 2;
      MemsetKernel 0 labels 2;
      SetPointer 0 d_query_labels; Move 0 d_query_labels HOST DEVICE;
      SetPointer 0 d_data_labels; Move 0 d_data_labels HOST DEVICE;
      SetPointer 0 d_vertex_cover; Move 0 d_vertex_cover HOST DEVICE;
      MemsetIdxKernel 0 d_query_nodeIDs 2; MemsetIdxKernel 0 d_query_edgeIDs 1;
      SetPointer 0 d_query_row; Move 0 d_query_row HOST DEVICE;
      SetPointer 0 d_query_col; Move 0 d_query_col HOST DEVICE;
      MemsetKernel 0 d_edge_weights 1; MemsetKernel 0 d_c_set 6;
      MemsetKernel 0 d_temp_keys 3;
      GetNodeDegree query_graph;
      SetPointer 0 d_query_degrees; Move 0 d_query_degrees HOST DEVICE;
      GetNodeDegree data_graph;
      SetPointer 0 d_data_degrees; Move 0 d_data_degrees HOST DEVICE;
      assign_slice_sizes 0; delete_host_arrays ].
Proof. vm_compute. reflexivity. Qed.



(** When the device cannot be selected, [Extract] returns the error and
    neither copies the bitmask nor resets the match count. *)
Lemma Extract_failure_counterexample :
  num_gpus five_matches = 1 /\
  fst (run (Extract unselectable) (enter five_matches [true; false] [false; false]))
  = 101 /\
  num_matches (this (snd (run (Extract unselectable)
                            (enter five_matches [true; false] [false; false]))))
  = 5 /\
  host_c_set (snd (run (Extract unselectable)
                     (enter five_matches [true; false] [false; false])))
  = [false; false].
Proof. repeat split; reflexivity. Qed.

(** On a healthy device: with one GPU the bitmask is copied and the match
    count reset; with two GPUs the object is left as it was. *)
Lemma Extract_copies_and_resets_on_success_witness :
  num_gpus five_matches = 1 /\
  fst (run (Extract healthy) (enter five_matches [true; false] [false; false]))
  = cudaSuccess /\
  host_c_set (snd (run (Extract healthy)
                     (enter five_matches [true; false] [false; false])))
  = [true; false] /\
  num_matches (this (snd (run (Extract healthy)
                            (enter five_matches [true; false] [false; false]))))
  = 0 /\
  num_gpus two_gpus <> 1 /\
  this (snd (run (Extract healthy)
               (enter two_gpus [true; false] [false; false])))
  = two_gpus.
Proof.
  split; [reflexivity |].
  destruct (proj1 (Extract_copies_and_resets_on_success healthy
                     (enter five_matches [true; false] [false; false]))
              eq_refl eq_refl eq_refl) as (H1 & H2 & _ & H4 & _).
  split; [exact H1 |]. split; [exact H2 |].
  split; [rewrite H4; reflexivity |].
  split; [discriminate |].
  apply (proj2 (proj2 (proj2 (Extract_copies_and_resets_on_success healthy
                                (enter two_gpus [true; false] [false; false]))))).
  discriminate.
Defined.

End SMProblemFacts.

(* ------------------------------------------------------------------ *)
(** * Further facts: the kernels under any launch, the rest of the host
    code *)
(* ------------------------------------------------------------------ *)

(* ------------------------------------------------------------------ *)
(** ** Ranges, residue classes and the threads of a launch *)
(* ------------------------------------------------------------------ *)

Module LaunchFacts.

Lemma Zseq_app k : forall lo j,
  Zseq lo (k + j) = Zseq lo k ++ Zseq (lo + Z.of_nat k) j.
Proof.
  induction k as [| k IH]; intros lo j.
  - simpl. rewrite Z.add_0_r. reflexivity.
  - cbn [Nat.add Zseq app]. rewrite IH. do 3 f_equal. lia.
Qed.

Lemma Zseq_split lo n k :
  0 <= k <= n ->
  Zseq lo (Z.to_nat n) = Zseq lo (Z.to_nat k) ++ Zseq (lo + k) (Z.to_nat (n - k)).
Proof.
  intros Hk. replace (Z.to_nat n) with (Z.to_nat k + Z.to_nat (n - k))%nat by lia.
  rewrite Zseq_app. do 2 f_equal. lia.
Qed.

Lemma filter_none {A : Type} (P : A -> bool) (l : list A) :
  (forall x, In x l -> P x = false) -> filter P l = [].
Proof.
  induction l as [| x l IH]; intros H; [reflexivity |].
  cbn [filter]. rewrite (H x) by (left; reflexivity).
  apply IH. intros y Hy. apply H. right. exact Hy.
Qed.

(** Two different members of a residue class are at least a stride apart. *)
Lemma same_class_far S x y :
  0 < S -> x mod S = y mod S -> x < y -> x + S <= y.
Proof.
  intros HS E Hlt.
  pose proof (Z.div_mod x S ltac:(lia)) as Hx.
  pose proof (Z.div_mod y S ltac:(lia)) as Hy.
  rewrite E in Hx.
  assert (Hd : y - x = S * (y / S - x / S)) by lia.
  assert (0 < y / S - x / S) by nia. nia.
Qed.

Section Classes.
Variables (S r : Z).
Hypothesis HS : 1 <= S.
Hypothesis Hr : 0 <= r < S.

Local Abbreviation P := (fun y => y mod S =? r).

(** After a member of the class, the next [S - 1] integers are not in it. *)
Lemma class_skip x m :
  x mod S = r ->
  filter P (Zseq (x + 1) (Z.to_nat m))
  = filter P (Zseq (x + S) (Z.to_nat (m - (S - 1)))).
Proof.
  intros Hx.
  assert (Hout : forall n y, In y (Zseq (x + 1) n) -> y < x + S -> P y = false).
  { intros n y Hy Hlt. apply Zseq_In in Hy. apply Z.eqb_neq. intros E.
    pose proof (same_class_far S x y ltac:(lia) ltac:(lia) ltac:(lia)). lia. }
  destruct (Z_le_gt_dec m (S - 1)) as [Hm | Hm].
  - replace (Z.to_nat (m - (S - 1))) with 0%nat by lia. cbn [Zseq filter].
    apply filter_none. intros y Hy. apply (Hout _ y Hy).
    apply Zseq_In in Hy. lia.
  - rewrite (Zseq_split (x + 1) m (S - 1)) by lia. rewrite filter_app.
    rewrite (filter_none P (Zseq (x + 1) (Z.to_nat (S - 1)))).
    + cbn [app]. do 2 f_equal. lia.
    + intros y Hy. apply (Hout _ y Hy). apply Zseq_In in Hy. lia.
Qed.

(** The class of [r] below [size] starts at [r]. *)
Lemma class_from_r size :
  filter P (Zrange size) = filter P (Zseq r (Z.to_nat (size - r))).
Proof.
  unfold Zrange.
  assert (Hout : forall n y, In y (Zseq 0 n) -> y < r -> P y = false).
  { intros n y Hy Hlt. apply Zseq_In in Hy. apply Z.eqb_neq.
    rewrite Z.mod_small by lia. lia. }
  destruct (Z_le_gt_dec size r) as [Hm | Hm].
  - replace (Z.to_nat (size - r)) with 0%nat by lia. cbn [Zseq filter].
    apply filter_none. intros y Hy. apply (Hout _ y Hy).
    apply Zseq_In in Hy. lia.
  - rewrite (Zseq_split 0 size r) by lia. rewrite filter_app.
    rewrite (filter_none P (Zseq 0 (Z.to_nat r))).
    + reflexivity.
    + intros y Hy. apply (Hout _ y Hy). apply Zseq_In in Hy. lia.
Qed.

End Classes.

Lemma Zsum_cons {A : Type} (f : A -> Z) x l : Zsum f (x :: l) = f x + Zsum f l.
Proof. reflexivity. Qed.

Lemma Zsum_add {A : Type} (f g : A -> Z) l :
  Zsum (fun x => f x + g x) l = Zsum f l + Zsum g l.
Proof.
  induction l as [| x l IH]; [reflexivity |].
  rewrite !Zsum_cons, IH. ring.
Qed.

Lemma Zsum_zero {A : Type} (f : A -> Z) l :
  (forall x, In x l -> f x = 0) -> Zsum f l = 0.
Proof.
  induction l as [| x l IH]; intros H; [reflexivity |].
  rewrite Zsum_cons, (H x), IH; [reflexivity | | left; reflexivity].
  intros y Hy. apply H. right. exact Hy.
Qed.

Lemma Zsum_ext {A : Type} (f g : A -> Z) l :
  (forall x, In x l -> f x = g x) -> Zsum f l = Zsum g l.
Proof.
  intros H. unfold Zsum. f_equal. apply map_ext_in. exact H.
Qed.

Lemma Zsum_map {A B : Type} (f : B -> Z) (h : A -> B) l :
  Zsum f (map h l) = Zsum (fun x => f (h x)) l.
Proof. unfold Zsum. rewrite map_map. reflexivity. Qed.

Lemma Zsum_Permutation {A : Type} (f : A -> Z) l l' :
  Permutation l l' -> Zsum f l = Zsum f l'.
Proof.
  induction 1 as [| x l l' _ IH | x y l | l l' l'' _ IH1 _ IH2].
  - reflexivity.
  - rewrite !Zsum_cons, IH. reflexivity.
  - rewrite !Zsum_cons. ring.
  - congruence.
Qed.

(** Exactly one index of a range equals a member of the range. *)
Lemma Zsum_indicator m c n : forall lo,
  Zsum (fun r => if m =? r then c else 0) (Zseq lo n)
  = if (lo <=? m) && (m <? lo + Z.of_nat n) then c else 0.
Proof.
  induction n as [| n IH]; intros lo.
  - cbn [Zseq]. destruct (Z.leb_spec lo m), (Z.ltb_spec m (lo + Z.of_nat 0));
      cbn; try reflexivity; lia.
  - cbn [Zseq]. rewrite Zsum_cons, IH.
    destruct (Z.eqb_spec m lo), (Z.leb_spec lo m), (Z.leb_spec (lo + 1) m),
      (Z.ltb_spec m (lo + 1 + Z.of_nat n)), (Z.ltb_spec m (lo + Z.of_nat (S n)));
      cbn; try reflexivity; lia.
Qed.

(** *** The threads of a launch *)

Section Launch.
Variables (G B : Z).
Hypothesis HG : 1 <= G.
Hypothesis HB : 1 <= B.
Hypothesis HN : G * B < 2 ^ 32.

Lemma thread_of_x i : 0 <= i < G * B -> thread_x (Grid.thread_of G B i) = i.
Proof.
  intros Hi. unfold thread_x, Grid.thread_of. cbn.
  rewrite (Z.mul_comm (i / B) B), <- Z.div_mod by lia.
  apply uint_small. lia.
Qed.

Lemma thread_of_STRIDE i : thread_STRIDE (Grid.thread_of G B i) = G * B.
Proof.
  unfold thread_STRIDE, Grid.thread_of. cbn. apply uint_small. nia.
Qed.

Lemma thread_of_in_launch i :
  0 <= i < G * B -> Grid.in_launch G B (Grid.thread_of G B i).
Proof.
  intros Hi. unfold Grid.in_launch, Grid.thread_of. cbn.
  split; [reflexivity |]. split; [reflexivity |].
  pose proof (Z.mod_pos_bound i B ltac:(lia)).
  pose proof (Z.div_pos i B ltac:(lia) ltac:(lia)).
  assert (i / B < G) by (apply Z.div_lt_upper_bound; nia). lia.
Qed.

Lemma in_launch_thread_of t :
  Grid.in_launch G B t ->
  0 <= blockIdx_x t * B + threadIdx_x t < G * B /\
  t = Grid.thread_of G B (blockIdx_x t * B + threadIdx_x t).
Proof.
  intros (E1 & E2 & Hb & Ht). split; [nia |].
  destruct t as [g b bi ti]. cbn in *. subst g b. unfold Grid.thread_of.
  f_equal.
  - symmetry. rewrite Z.div_add_l by lia. rewrite Z.div_small by lia. lia.
  - symmetry. rewrite Z.add_comm, Z.mod_add by lia. apply Z.mod_small. lia.
Qed.

Lemma In_launch t : In t (Grid.launch G B) <-> Grid.in_launch G B t.
Proof.
  unfold Grid.launch. rewrite in_map_iff. split.
  - intros (i & <- & Hi). apply Zrange_In in Hi. apply thread_of_in_launch, Hi.
  - intros Ht. destruct (in_launch_thread_of t Ht) as (Hi & E).
    eexists. split; [symmetry; exact E |]. apply Zrange_In. exact Hi.
Qed.

Lemma in_launch_x t :
  Grid.in_launch G B t ->
  thread_x t = blockIdx_x t * B + threadIdx_x t /\ 0 <= thread_x t < G * B.
Proof.
  intros Ht. destruct (in_launch_thread_of t Ht) as (Hi & E).
  assert (Ex : thread_x t = blockIdx_x t * B + threadIdx_x t).
  { rewrite E at 1. apply thread_of_x. exact Hi. }
  rewrite Ex. split; [reflexivity | exact Hi].
Qed.

Lemma in_launch_STRIDE t : Grid.in_launch G B t -> thread_STRIDE t = G * B.
Proof.
  intros Ht. destruct (in_launch_thread_of t Ht) as (Hi & E).
  rewrite E. apply thread_of_STRIDE.
Qed.

Lemma Zsum_launch (f : Z -> Z) :
  Zsum (fun t => f (thread_x t)) (Grid.launch G B) = Zsum f (Zrange (G * B)).
Proof.
  unfold Grid.launch. rewrite Zsum_map. apply Zsum_ext.
  intros i Hi. apply Zrange_In in Hi. rewrite thread_of_x by exact Hi.
  reflexivity.
Qed.

End Launch.

End LaunchFacts.

(* ------------------------------------------------------------------ *)
(** ** The Join kernel: its size, its output, its launches *)
(* ------------------------------------------------------------------ *)

Module JoinLaunchFacts.
Import JoinKernel JoinFacts JoinLaunch LaunchFacts.

Section Layout.
Variable a : args.
Hypothesis Hq : 1 <= edges_query a <= 3.

Local Abbreviation size := (Join_size a).
Local Abbreviation q := (edges_query a).
Local Abbreviation vc x n := (valid_count a x (Z.to_nat n)).

Lemma valid_count_nil x n : n <= 0 -> vc x n = 0.
Proof.
  intros Hn. replace (Z.to_nat n) with 0%nat by lia. reflexivity.
Qed.

Lemma valid_count_first x n :
  0 < n ->
  vc x n = (if tuple_valid_b a (Join_tuple a x) then 1 else 0) + vc (x + 1) (n - 1).
Proof.
  intros Hn. replace (Z.to_nat n) with (S (Z.to_nat (n - 1))) by lia.
  apply valid_count_step.
Qed.

Lemma valid_count_mono x n m : n <= m -> vc x n <= vc x m.
Proof.
  intros Hnm. unfold valid_count.
  destruct (Z_le_gt_dec n 0) as [Hn | Hn].
  - replace (Z.to_nat n) with 0%nat by lia. simpl. lia.
  - replace (Z.to_nat m) with (Z.to_nat n + Z.to_nat (m - n))%nat by lia.
    assert (E : forall k lo j, Zseq lo (k + j) = Zseq lo k ++ Zseq (lo + Z.of_nat k) j).
    { induction k as [| k IH]; intros lo j.
      - simpl. rewrite Z.add_0_r. reflexivity.
      - cbn [Nat.add Zseq app]. rewrite IH. do 3 f_equal. lia. }
    rewrite E, filter_app, length_app. lia.
Qed.

Lemma out_index_exact c k :
  0 <= c -> 0 <= k < q -> (c + 1) * q <= 2 ^ 64 ->
  out_index a c k = c * q + k.
Proof.
  intros Hc Hk Hb. unfold out_index.
  rewrite (ull_small (c * q)) by nia. apply ull_small. nia.
Qed.

Lemma Join_while_layout fuel : forall x g buf,
  0 <= counts g -> 0 <= x -> size - x <= Z.of_nat fuel ->
  (counts g + vc x (size - x)) * q < 2 ^ 64 ->
  exists g',
    Join_while a fuel 1 size x g buf = Done g' /\
    counts g' = counts g + vc x (size - x) /\
    (forall y k, x <= y < size -> tuple_valid_b a (Join_tuple a y) = true ->
       0 <= k < q ->
       output g' ((counts g + vc x (y - x)) * q + k)
       = convert (VertexId a) (Join_tuple a y k)) /\
    (forall j, ~ counts g * q <= j < (counts g + vc x (size - x)) * q ->
       output g' j = output g j).
Proof.
  pose proof (Join_size_range a) as Hs.
  assert (Hq' : 1 <= q <= EDGE_ID_LEN) by (unfold EDGE_ID_LEN; lia).
  induction fuel as [| fuel IH]; intros x g buf Hc Hx Hf Hb;
    cbn [Join_while]; destruct (Z.ltb_spec x size) as [Hlt | Hge]; try lia;
    try (exists g; rewrite valid_count_nil by lia;
         split; [reflexivity |]; split; [lia |];
         split; [intros; lia | reflexivity]).
  assert (Ex : ull (x + 1) = x + 1) by (apply ull_small; lia).
  rewrite valid_count_first in Hb |- * by lia.
  replace (size - x - 1) with (size - (x + 1)) in Hb |- * by ring.
  pose proof (valid_count_bounds a (x + 1) (Z.to_nat (size - (x + 1)))) as Hv.
  pose proof (Join_body_spec a g buf x Hq') as Hbody.
  destruct (tuple_valid_b a (Join_tuple a x)) eqn:Ev.
  - destruct Hbody as (g1 & buf1 & E & Hc1 & Hk1 & Ho1).
    rewrite E. cbn [bind fst snd]. rewrite Ex.
    assert (Ec1 : counts g1 = counts g + 1).
    { rewrite Hc1. apply ull_small. nia. }
    destruct (IH (x + 1) g1 buf1) as (g' & E' & Hc' & Hk' & Ho');
      [lia | lia | lia | rewrite Ec1; nia |].
    exists g'. split; [exact E' |]. split; [lia |]. split.
    + intros y k Hy Hvy Hk.
      destruct (Z.eq_dec y x) as [-> | Hne].
      * rewrite valid_count_nil by lia. rewrite Z.add_0_r.
        rewrite Ho' by (rewrite Ec1; nia).
        rewrite <- (out_index_exact (counts g) k) by nia.
        apply Hk1. exact Hk.
      * rewrite valid_count_first by lia. rewrite Ev.
        replace (y - x - 1) with (y - (x + 1)) by ring.
        rewrite <- (Hk' y k) by (try lia; assumption).
        f_equal. rewrite Ec1. ring.
    + intros j Hj. rewrite Ho' by (rewrite Ec1; nia).
      apply Ho1. intros k Hk. rewrite out_index_exact by nia. nia.
  - destruct Hbody as (buf1 & E).
    rewrite E. cbn [bind fst snd]. rewrite Ex.
    destruct (IH (x + 1) g buf1) as (g' & E' & Hc' & Hk' & Ho');
      [lia | lia | lia | nia |].
    exists g'. split; [exact E' |]. split; [lia |]. split.
    + intros y k Hy Hvy Hk.
      destruct (Z.eq_dec y x) as [-> | Hne]; [congruence |].
      rewrite valid_count_first by lia. rewrite Ev.
      replace (y - x - 1) with (y - (x + 1)) by ring.
      rewrite <- (Hk' y k) by (try lia; assumption).
      f_equal.
    + intros j Hj. apply Ho'. nia.
Qed.

End Layout.

(** The product of the wrapped factors is the product of the factors,
    modulo [2 ^ 64]. *)
Lemma ull_product (f : Z -> Z) (l : list Z) :
  ull (fold_right Z.mul 1 (map (fun k => ull (f k)) l))
  = ull (fold_right Z.mul 1 (map f l)).
Proof.
  induction l as [| k l IH]; [reflexivity |].
  cbn [map fold_right]. unfold ull in *.
  rewrite Z.mul_mod, IH, Z.mod_mod, <- Z.mul_mod by lia. reflexivity.
Qed.

Lemma product_zero (f : Z -> Z) (l : list Z) k :
  In k l -> f k = 0 -> fold_right Z.mul 1 (map f l) = 0.
Proof.
  induction l as [| j l IH]; intros Hin Hz; [destruct Hin |].
  cbn [map fold_right]. destruct Hin as [-> | Hin].
  - rewrite Hz. reflexivity.
  - rewrite IH by assumption. apply Z.mul_0_r.
Qed.

Section SizeAny.
Variable a : args.
Hypothesis Hq : 1 <= edges_query a.

Lemma Join_size_truncates : Join_size a = ull (space_size a).
Proof.
  rewrite (space_size_tail a Hq). unfold Join_size, tail_size.
  destruct (Join_size_loop_product a (Z.to_nat (edges_query a - 1)) 0
              (ull (pos a 0))) as [-> | E].
  - replace (map (fun k => pos a k - seg_start a k)
               (Zseq 1 (Z.to_nat (edges_query a - 1))))
      with (map (fun k => pos a k - pos a (k - 1))
              (Zseq (0 + 1) (Z.to_nat (edges_query a - 1)))).
    2:{ apply map_ext_in. intros k Hk. apply Zseq_In in Hk.
        unfold seg_start. destruct (Z.eqb_spec k 0); [lia | reflexivity]. }
    pose proof (ull_product (fun k => pos a k - pos a (k - 1))
                  (Zseq (0 + 1) (Z.to_nat (edges_query a - 1)))) as Hp.
    unfold ull in *. rewrite Z.mul_mod, Z.mod_mod, Hp, <- Z.mul_mod by lia.
    reflexivity.
  - rewrite E. simpl. rewrite Z.mul_1_r. reflexivity.
Qed.

Lemma space_size_empty_segment k :
  0 <= k < edges_query a -> pos a k = seg_start a k -> space_size a = 0.
Proof.
  intros Hk Hz. unfold space_size.
  apply (product_zero (fun k => pos a k - seg_start a k) _ k).
  - apply Zrange_In. exact Hk.
  - lia.
Qed.

End SizeAny.

Lemma thread_x_range t : 0 <= thread_x t < 2 ^ 32.
Proof. unfold thread_x, uint. apply Z.mod_pos_bound. lia. Qed.

Lemma thread_STRIDE_range t : 0 <= thread_STRIDE t < 2 ^ 32.
Proof. unfold thread_STRIDE, uint. apply Z.mod_pos_bound. lia. Qed.

Lemma Join_while_empty a fuel STRIDE x g buf :
  0 <= x -> Join_while a fuel STRIDE 0 x g buf = Done g.
Proof.
  intros Hx. destruct fuel; cbn [Join_while];
    destruct (Z.ltb_spec x 0); try lia; reflexivity.
Qed.


(** X2: when some query edge has no candidate (its segment of the offset
    table is empty), the Join kernel enumerates no tuple: whatever the
    launch, the fuel, the number of query edges (also above three) and the
    contents of its buffer, it ends at once and leaves the counter and the
    output as they were. *)
Theorem Join_empty_segment_matches_nothing (a : args) (k : Z) :
  0 <= k < edges_query a ->
  pos a k = seg_start a k ->
  Join_size a = 0 /\
  forall fuel t g buf, Join fuel t a g buf = Done g.
Proof.
  intros Hk Hz.
  assert (E : Join_size a = 0).
  { assert (Hq : 1 <= edges_query a) by lia.
    rewrite (Join_size_truncates a Hq).
    rewrite (space_size_empty_segment a k Hk Hz). reflexivity. }
  split; [exact E |].
  intros fuel t g buf. unfold Join. rewrite E.
  apply Join_while_empty. apply thread_x_range.
Qed.

(** X3: for a query without an edge (edges_query <= 0) the decode loop of
    the Join kernel is not entered and the store that follows it,
    edge_id[iter] = edges[id] with iter = edges_query - 1, is out of the
    bounds of edge_id: the loop body faults at that index for every tuple
    index, and so does every thread whose index is below size = pos[0]. *)
Theorem Join_empty_query_faults (a : args) :
  edges_query a <= 0 ->
  Join_size a = pos a 0 mod 2 ^ 64 /\
  (forall g buf x, Join_body a g buf x = Fault (edges_query a - 1)) /\
  (forall fuel t g buf,
     thread_x t < Join_size a ->
     Join (S fuel) t a g buf = Fault (edges_query a - 1)).
Proof.
  intros Hq.
  assert (Hn : ~ 1 <= edges_query a <= EDGE_ID_LEN) by lia.
  split; [| split].
  - unfold Join_size. replace (Z.to_nat (edges_query a - 1)) with 0%nat by lia.
    reflexivity.
  - intros g buf x. apply Join_body_fault. exact Hn.
  - intros fuel t g buf Hx. unfold Join. cbn [Join_while].
    apply Z.ltb_lt in Hx. rewrite Hx.
    rewrite Join_body_fault by exact Hn. reflexivity.
Qed.

Section Buffer.
Variable a : args.
Hypothesis Hq : 1 <= edges_query a <= 3.

Lemma Join_emit_ext cnt buf1 buf2 n : forall iter out,
  (forall k, iter <= k < iter + Z.of_nat n -> buf1 k = buf2 k) ->
  Join_emit a n iter cnt buf1 out = Join_emit a n iter cnt buf2 out.
Proof.
  induction n as [| n IH]; intros iter out Hb; [reflexivity |].
  cbn [Join_emit]. unfold edge_id_get.
  destruct ((0 <=? iter) && (iter <? EDGE_ID_LEN)); [| reflexivity].
  cbn [bind]. rewrite (Hb iter) by lia. apply IH. intros k Hk. apply Hb. lia.
Qed.

(** The global memory that one pass of the loop body leaves does not
    depend on the contents of [edge_id] before the pass. *)
Lemma Join_body_any_buffer g buf1 buf2 x :
  exists g' buf1' buf2',
    Join_body a g buf1 x = Done (g', buf1') /\
    Join_body a g buf2 x = Done (g', buf2').
Proof.
  assert (Hq' : 1 <= edges_query a <= EDGE_ID_LEN) by (unfold EDGE_ID_LEN; lia).
  destruct (Join_check_spec a buf1 x Hq') as (b1 & E1 & H1).
  destruct (Join_check_spec a buf2 x Hq') as (b2 & E2 & H2).
  unfold Join_body. rewrite E1, E2. cbn [bind].
  destruct (tuple_valid_b a (Join_tuple a x)).
  - rewrite (Join_emit_ext (counts g) b1 b2).
    2:{ intros k Hk. rewrite H1, H2 by lia. reflexivity. }
    destruct (Join_emit_spec a (counts g) b2 (Z.to_nat (edges_query a)) 0
                (output g)) as (out' & Ee & _); [lia | lia | lia |].
    rewrite Ee. cbn [bind]. eauto.
  - eauto.
Qed.

Lemma Join_while_any_buffer fuel : forall STRIDE size x g buf1 buf2,
  Join_while a fuel STRIDE size x g buf1
  = Join_while a fuel STRIDE size x g buf2.
Proof.
  induction fuel as [| fuel IH]; intros STRIDE size x g buf1 buf2;
    [reflexivity |].
  cbn [Join_while]. destruct (x <? size); [| reflexivity].
  destruct (Join_body_any_buffer g buf1 buf2 x) as (g' & b1 & b2 & E1 & E2).
  rewrite E1, E2. cbn [bind fst snd]. apply IH.
Qed.

End Buffer.

(** X4: with 1 <= edges_query <= 3 the result of the Join kernel does not
    depend on what its local buffer edge_id holds when the thread starts:
    every entry that is read was stored before in the same pass of the
    loop. *)
Theorem Join_ignores_initial_edge_id (a : args) :
  1 <= edges_query a <= 3 ->
  forall fuel t g buf1 buf2,
    Join fuel t a g buf1 = Join fuel t a g buf2.
Proof.
  intros Hq fuel t g buf1 buf2. unfold Join.
  apply Join_while_any_buffer. exact Hq.
Qed.

(** X5: under the sequential embedding, with 1 <= edges_query <= 3 and as
    long as the indices into output do not wrap around 2^64, the Join
    kernel ends with the counter increased by the number of valid tuple
    indices below size, and with the valid tuples stored block after block
    in the order of their tuple indices: for the tuple index that is
    preceded by r valid ones, entry k of block (counts + r) of output is
    the data-edge id of query edge k converted to VertexId, which is the
    id itself when the id is a value of VertexId.  Outside these blocks
    output is as it was. *)
Theorem Join_output_lists_valid_tuples_in_order (a : args) (g : global)
    (buf : mem) (fuel : nat) :
  1 <= edges_query a <= 3 ->
  0 <= counts g ->
  (counts g + rank a (Join_size a)) * edges_query a < 2 ^ 64 ->
  Join_size a <= Z.of_nat fuel ->
  exists g',
    Join fuel sequential a g buf = Done g' /\
    counts g' = counts g + rank a (Join_size a) /\
    (forall x k,
       0 <= x < Join_size a -> tuple_valid a (Join_tuple a x) ->
       0 <= k < edges_query a ->
       output g' ((counts g + rank a x) * edges_query a + k)
       = convert (VertexId a) (Join_tuple a x k) /\
       (fits (VertexId a) (Join_tuple a x k) ->
        output g' ((counts g + rank a x) * edges_query a + k)
        = Join_tuple a x k)) /\
    (forall j,
       ~ counts g * edges_query a <= j
         < (counts g + rank a (Join_size a)) * edges_query a ->
       output g' j = output g j).
Proof.
  intros Hq Hc Hb Hf. unfold rank in *.
  destruct (Join_while_layout a Hq fuel 0 g buf) as (g' & E & Hc' & Hk & Ho);
    [lia | lia | lia | rewrite Z.sub_0_r; exact Hb |].
  rewrite Z.sub_0_r in *.
  exists g'. rewrite Join_sequential.
  split; [exact E |]. split; [exact Hc' |]. split.
  - intros x k Hx Hv Hk'. specialize (Hk x k). rewrite Z.sub_0_r in Hk.
    assert (Ho' : output g'
                    ((counts g + valid_count a 0 (Z.to_nat x)) * edges_query a
                     + k)
                  = convert (VertexId a) (Join_tuple a x k)).
    { apply Hk; [lia | | exact Hk']. apply tuple_valid_reflect. exact Hv. }
    split; [exact Ho' |]. intros Hfit. rewrite Ho'.
    apply convert_small. exact Hfit.
  - exact Ho.
Qed.

Section Strided.
Variable a : args.
Hypothesis Hq : 1 <= edges_query a <= 3.

Local Abbreviation size := (Join_size a).
Local Abbreviation valid x := (tuple_valid_b a (Join_tuple a x)).

Lemma valid_among_cons x l :
  valid_among a (x :: l) = (if valid x then 1 else 0) + valid_among a l.
Proof.
  unfold valid_among. cbn [filter]. destruct (valid x); cbn [length]; lia.
Qed.

Lemma valid_among_Zrange n : valid_among a (Zrange n) = valid_count a 0 (Z.to_nat n).
Proof. reflexivity. Qed.

(** The body adds one to the counter for a valid tuple and nothing for
    another one. *)
Lemma Join_body_counts g buf x :
  exists g' buf',
    Join_body a g buf x = Done (g', buf') /\
    counts g' = if valid x then ull (counts g + 1) else counts g.
Proof.
  assert (Hq' : 1 <= edges_query a <= EDGE_ID_LEN) by (unfold EDGE_ID_LEN; lia).
  pose proof (Join_body_spec a g buf x Hq') as Hb.
  destruct (valid x).
  - destruct Hb as (g1 & buf1 & E & Hc & _). eauto.
  - destruct Hb as (buf1 & E). eauto.
Qed.

Variables (S r : Z).
Hypothesis HS : 1 <= S.
Hypothesis Hr : 0 <= r < S.
Hypothesis Hwrap : size + S <= 2 ^ 64.

(** The loop of a thread of stride [S] from a member [x] of the class of
    [r]: it ends, having added the number of valid tuples of the class in
    [x, size) to the counter. *)
Lemma Join_while_class fuel : forall x g buf,
  0 <= x -> x mod S = r -> size - x <= Z.of_nat fuel ->
  0 <= counts g < 2 ^ 64 ->
  exists g',
    Join_while a fuel S size x g buf = Done g' /\
    counts g'
    = ull (counts g
           + valid_among a (filter (fun y => y mod S =? r)
                              (Zseq x (Z.to_nat (size - x))))).
Proof.
  pose proof (Join_size_range a) as Hs.
  induction fuel as [| fuel IH]; intros x g buf Hx Hc Hf Hg;
    cbn [Join_while]; destruct (Z.ltb_spec x size) as [Hlt | Hge]; try lia;
    try (exists g; split; [reflexivity |];
         replace (Z.to_nat (size - x)) with 0%nat by lia;
         cbn; rewrite Z.add_0_r; symmetry; apply ull_small; exact Hg).
  replace (Z.to_nat (size - x)) with (Datatypes.S (Z.to_nat (size - x - 1))) by lia.
  cbn [Zseq filter]. rewrite (proj2 (Z.eqb_eq _ _) Hc).
  rewrite valid_among_cons.
  rewrite (class_skip S r HS x (size - x - 1) Hc).
  replace (size - x - 1 - (S - 1)) with (size - (x + S)) by ring.
  assert (Ex : ull (x + S) = x + S) by (apply ull_small; lia).
  destruct (Join_body_counts g buf x) as (g1 & buf1 & E & Hc1).
  rewrite E. cbn [bind fst snd]. rewrite Ex.
  destruct (IH (x + S) g1 buf1) as (g' & E' & Hc').
  - lia.
  - rewrite Z.add_comm, <- Z.add_mod_idemp_l, Z.mod_same, Z.add_0_l by lia.
    exact Hc.
  - lia.
  - rewrite Hc1. destruct (valid x); [apply ull_range | exact Hg].
  - exists g'. split; [exact E' |]. rewrite Hc', Hc1.
    destruct (valid x).
    + rewrite ull_add_l. f_equal. ring.
    + f_equal.
Qed.

(** A thread whose index is [r] and whose stride is [S]. *)
Lemma Join_thread_counts fuel t g buf :
  thread_x t = r -> thread_STRIDE t = S -> fits (SizeT a) S ->
  size <= Z.of_nat fuel -> 0 <= counts g < 2 ^ 64 ->
  exists g',
    Join fuel t a g buf = Done g' /\
    counts g' = ull (counts g + valid_among a (class_indices S r size)).
Proof.
  intros Ex ES Hfit Hf Hg. unfold Join.
  rewrite Ex, ES, (convert_small _ _ Hfit).
  destruct (Join_while_class fuel r g buf) as (g' & E & Hc);
    [lia | apply Z.mod_small; lia | lia | exact Hg |].
  exists g'. split; [exact E |]. rewrite Hc. unfold class_indices.
  rewrite (class_from_r S r Hr). reflexivity.
Qed.

End Strided.

(** The classes modulo [S] split the valid tuples of a list. *)
Lemma valid_among_classes a S l :
  1 <= S ->
  Zsum (fun r => valid_among a (filter (fun y => y mod S =? r) l)) (Zrange S)
  = valid_among a l.
Proof.
  intros HS. induction l as [| y l IH].
  - apply Zsum_zero. intros; reflexivity.
  - rewrite (Zsum_ext _
               (fun r' => (if y mod S =? r'
                           then (if tuple_valid_b a (Join_tuple a y) then 1 else 0)
                           else 0)
                          + valid_among a (filter (fun y => y mod S =? r') l))).
    2:{ intros r' _. cbn [filter]. destruct (Z.eqb_spec (y mod S) r').
        - apply valid_among_cons.
        - rewrite Z.add_0_l. reflexivity. }
    rewrite Zsum_add, IH. unfold Zrange. rewrite Zsum_indicator.
    pose proof (Z.mod_pos_bound y S ltac:(lia)).
    destruct (Z.leb_spec 0 (y mod S)), (Z.ltb_spec (y mod S) (0 + Z.of_nat (Z.to_nat S)));
      try lia.
    cbn [andb]. symmetry. apply valid_among_cons.
Qed.

Section LaunchCount.
Variable a : args.
Hypothesis Hq : 1 <= edges_query a <= 3.
Variables (G B : Z).
Hypothesis HG : 1 <= G.
Hypothesis HB : 1 <= B.
Hypothesis HN : G * B < 2 ^ 32.
Hypothesis Hfit : fits (SizeT a) (G * B).
Hypothesis Hwrap : Join_size a + G * B <= 2 ^ 64.

Local Abbreviation share t :=
  (valid_among a (class_indices (G * B) (thread_x t) (Join_size a))).

Lemma Join_threads_counts fuel bufs : forall ts g,
  (forall t, In t ts -> Grid.in_launch G B t) ->
  Join_size a <= Z.of_nat fuel -> 0 <= counts g < 2 ^ 64 ->
  exists g',
    Join_threads fuel ts a g bufs = Done g' /\
    counts g' = ull (counts g + Zsum (fun t => share t) ts).
Proof.
  induction ts as [| t ts IH]; intros g Hts Hf Hg.
  - exists g. split; [reflexivity |]. cbn. rewrite Z.add_0_r.
    symmetry. apply ull_small. exact Hg.
  - assert (Ht : Grid.in_launch G B t) by (apply Hts; left; reflexivity).
    destruct (in_launch_x G B HB HN t Ht) as (_ & Hx).
    destruct (Join_thread_counts a Hq (G * B) (thread_x t) ltac:(nia) Hx Hwrap
                fuel t g (bufs t)) as (g1 & E1 & Hc1);
      [reflexivity | apply (in_launch_STRIDE G B HG HB HN), Ht | exact Hfit
      | exact Hf | exact Hg |].
    cbn [Join_threads]. rewrite E1. cbn [bind].
    destruct (IH g1) as (g' & E' & Hc');
      [intros u Hu; apply Hts; right; exact Hu | exact Hf
      | rewrite Hc1; apply ull_range |].
    exists g'. split; [exact E' |].
    rewrite Hc', Hc1, Zsum_cons, ull_add_l. f_equal. ring.
Qed.

Lemma launch_shares :
  Zsum (fun t => share t) (Grid.launch G B)
  = valid_count a 0 (Z.to_nat (Join_size a)).
Proof.
  rewrite (Zsum_launch G B HB HN
             (fun r => valid_among a (class_indices (G * B) r (Join_size a)))).
  unfold class_indices. rewrite valid_among_classes by nia. reflexivity.
Qed.

End LaunchCount.

(** X6: let the threads of a launch <<<G, B>>> run the Join kernel one
    after another, in any order, each to completion, where the number of
    threads G * B is below 2^32 and is a value of SizeT, the type of
    STRIDE (1 <= edges_query <= 3, size + G * B <= 2^64).  Every thread
    ends, and the counter ends increased by the number of valid tuple
    indices below size (modulo 2^64): the count that the sequential launch
    <<<1, 1>>> gives, whatever the launch and the order of its threads. *)
Theorem Join_count_independent_of_launch (a : args) (G B : Z)
    (ts : list thread) (bufs : thread -> mem) (g : global) (fuel : nat) :
  1 <= edges_query a <= 3 ->
  1 <= G -> 1 <= B -> G * B < 2 ^ 32 ->
  fits (SizeT a) (G * B) ->
  Permutation ts (Grid.launch G B) ->
  0 <= counts g < 2 ^ 64 ->
  Join_size a + G * B <= 2 ^ 64 ->
  Join_size a <= Z.of_nat fuel ->
  exists g',
    Join_threads fuel ts a g bufs = Done g' /\
    counts g' = ull (counts g + valid_count a 0 (Z.to_nat (Join_size a))).
Proof.
  intros Hq HG HB HN Hfit Hperm Hg Hwrap Hf.
  destruct (Join_threads_counts a Hq G B HG HB HN Hfit Hwrap fuel bufs ts g)
    as (g' & E & Hc); [| exact Hf | exact Hg |].
  - intros t Ht. apply (In_launch G B HB HN).
    apply (Permutation_in _ Hperm). exact Ht.
  - exists g'. split; [exact E |].
    rewrite Hc, (Zsum_Permutation _ _ _ Hperm).
    rewrite (launch_shares a G B HG HB HN). reflexivity.
Qed.

Section StrideZero.
Variable a : args.
Hypothesis Hq : 1 <= edges_query a <= 3.

Lemma Join_while_stride_zero fuel : forall size x g buf,
  0 <= x < 2 ^ 64 -> x < size ->
  Join_while a fuel 0 size x g buf = OutOfFuel.
Proof.
  induction fuel as [| fuel IH]; intros size x g buf Hx Hlt;
    cbn [Join_while]; destruct (Z.ltb_spec x size); try lia; [reflexivity |].
  destruct (Join_body_counts a Hq g buf x) as (g1 & buf1 & E & _).
  rewrite E. cbn [bind fst snd]. rewrite Z.add_0_r, ull_small by exact Hx.
  apply IH; assumption.
Qed.

End StrideZero.

(** *** The theorems at sample inputs *)


(** The triangle query with no candidate for its second query edge. *)
Lemma Join_empty_segment_matches_nothing_witness :
  0 <= 1 < edges_query no_second_candidate /\
  pos no_second_candidate 1 = seg_start no_second_candidate 1 /\
  Join 8 sequential no_second_candidate g0 buf0 = Done g0.
Proof.
  assert (Hk : 0 <= 1 < edges_query no_second_candidate) by (cbn; lia).
  assert (Hz : pos no_second_candidate 1 = seg_start no_second_candidate 1)
    by reflexivity.
  split; [exact Hk |]. split; [exact Hz |].
  apply (Join_empty_segment_matches_nothing no_second_candidate 1 Hk Hz).
Defined.

(** An empty query over three candidates: the first pass of the loop
    stores through [edge_id[-1]]. *)
Lemma Join_empty_query_faults_witness :
  edges_query no_query_edge <= 0 /\
  thread_x sequential < Join_size no_query_edge /\
  Join 1 sequential no_query_edge g0 buf0 = Fault (-1).
Proof.
  assert (Hq : edges_query no_query_edge <= 0) by (cbn; lia).
  assert (Hx : thread_x sequential < Join_size no_query_edge)
    by (vm_compute; reflexivity).
  split; [exact Hq |]. split; [exact Hx |].
  destruct (Join_empty_query_faults no_query_edge Hq) as (_ & _ & H).
  apply (H 0%nat sequential g0 buf0 Hx).
Defined.

Lemma Join_ignores_initial_edge_id_witness :
  1 <= edges_query triangle <= 3 /\
  Join 64 sequential triangle g0 buf0
  = Join 64 sequential triangle g0 (fun _ => 7).
Proof.
  assert (Hq : 1 <= edges_query triangle <= 3) by (cbn; lia).
  split; [exact Hq |].
  apply (Join_ignores_initial_edge_id triangle Hq).
Defined.

(** The triangle: the tuple indices 6, 24 and 33 are the valid ones, and
    the tuple of index 24, the second of them, is the second block of
    [output]. *)
Lemma Join_output_lists_valid_tuples_in_order_witness :
  1 <= edges_query triangle <= 3 /\
  rank triangle (Join_size triangle) = 3 /\
  rank triangle 24 = 1 /\
  tuple_valid triangle (Join_tuple triangle 24) /\
  exists g',
    Join 64 sequential triangle g0 buf0 = Done g' /\
    counts g' = 3 /\
    map (output g') [3; 4; 5] = [1; 2; 0] /\
    output g' 9 = 0.
Proof.
  assert (Hq : 1 <= edges_query triangle <= 3) by (cbn; lia).
  assert (Hv : tuple_valid triangle (Join_tuple triangle 24))
    by (apply tuple_valid_reflect; vm_compute; reflexivity).
  split; [exact Hq |]. split; [vm_compute; reflexivity |].
  split; [vm_compute; reflexivity |]. split; [exact Hv |].
  destruct (Join_output_lists_valid_tuples_in_order triangle g0 buf0 64 Hq)
    as (g' & E & Hc & Hk & Ho);
    [cbn; lia | vm_compute; reflexivity | vm_compute; discriminate |].
  exists g'. split; [exact E |]. split; [exact Hc |]. split.
  - pose proof (proj1 (Hk 24 0
                         ltac:(vm_compute; split; [discriminate | reflexivity])
                         Hv ltac:(cbn; lia))) as H0.
    pose proof (proj1 (Hk 24 1
                         ltac:(vm_compute; split; [discriminate | reflexivity])
                         Hv ltac:(cbn; lia))) as H1.
    pose proof (proj1 (Hk 24 2
                         ltac:(vm_compute; split; [discriminate | reflexivity])
                         Hv ltac:(cbn; lia))) as H2.
    cbn [map]. f_equal; [exact H0 |]. f_equal; [exact H1 |].
    f_equal. exact H2.
  - apply (Ho 9). vm_compute. intros [_ H]. discriminate.
Defined.

(** The triangle under the launch [<<<2, 2>>>]: the four threads together
    count the three matches. *)
Lemma Join_count_independent_of_launch_witness :
  1 <= edges_query triangle <= 3 /\
  fits (SizeT triangle) (2 * 2) /\
  exists g',
    Join_threads 64 (Grid.launch 2 2) triangle g0 (fun _ => buf0) = Done g' /\
    counts g' = 3.
Proof.
  assert (Hq : 1 <= edges_query triangle <= 3) by (cbn; lia).
  assert (Hfit : fits (SizeT triangle) (2 * 2))
    by (vm_compute; split; discriminate).
  split; [exact Hq |]. split; [exact Hfit |].
  destruct (Join_count_independent_of_launch triangle 2 2 (Grid.launch 2 2)
              (fun _ => buf0) g0 64 Hq)
    as (g' & E & Hc);
    [lia | lia | lia | exact Hfit | apply Permutation_refl | cbn; lia
    | vm_compute; discriminate | vm_compute; discriminate |].
  exists g'. split; [exact E |]. rewrite Hc. reflexivity.
Defined.

End JoinLaunchFacts.

(* ------------------------------------------------------------------ *)
(** ** The Update kernel on any array, and before Join *)
(* ------------------------------------------------------------------ *)

Module UpdateAnyFacts.
Import UpdateKernel UpdateFacts UpdateAny.

Section AnyArray.
Variables (edges_data n : Z) (g0 : global).
Hypothesis Hn : 0 <= n < 2 ^ 32.

Local Abbreviation T x := (tag_of edges_data (indices g0 x)).
Local Abbreviation ends x := (run_end edges_data n g0 x).
Local Abbreviation upto k g := (scanned edges_data n g0 k g).

Lemma scanned_start : upto 0 g0.
Proof.
  split; [| split; [| split]]; intros; try reflexivity; lia.
Qed.

(** The test of line 31 is the test for the end of a run of the original
    array. *)
Lemma run_end_test k :
  0 <= k < n ->
  (k =? n - 1) || (T k <? T (k + 1)) = true <-> ends k.
Proof.
  intros Hk. unfold run_end. rewrite orb_true_iff, Z.eqb_eq, Z.ltb_lt.
  reflexivity.
Qed.

Lemma scanned_step k g :
  0 <= k < n -> upto k g -> upto (k + 1) (Update_body edges_data n k g).
Proof.
  intros Hk (I1 & I2 & I3 & I4).
  assert (Eu : uint (k + 1) = k + 1) by (apply uint_small; lia).
  unfold Update_body. rewrite Eu, (I1 k), (I1 (k + 1)) by lia.
  fold (tag_of edges_data (indices g0 k)) (tag_of edges_data (indices g0 (k + 1))).
  pose proof (run_end_test k Hk) as Htest.
  split; [| split; [| split]]; cbn [indices pos].
  - intros y Hy. rewrite store_other by lia. apply I1. lia.
  - intros y Hy. destruct (Z.eq_dec y k) as [-> | Hne].
    + apply store_same.
    + rewrite store_other by exact Hne. apply I2. lia.
  - intros i Hi.
    destruct ((k =? n - 1) || (T k <? T (k + 1))) eqn:Ec.
    + rewrite store_other.
      * apply I3. intros y Hy. apply Hi. lia.
      * intros E. apply (Hi k); [lia | apply Htest; reflexivity | symmetry; exact E].
    + apply I3. intros y Hy. apply Hi. lia.
  - intros y Hy Hend Hlast.
    destruct ((k =? n - 1) || (T k <? T (k + 1))) eqn:Ec.
    + destruct (Z.eq_dec y k) as [-> | Hne]; [apply store_same |].
      rewrite store_other.
      * apply I4; [lia | exact Hend |]. intros z Hz. apply Hlast. lia.
      * intros E. apply (Hlast k); [lia | apply Htest; reflexivity | symmetry; exact E].
    + destruct (Z.eq_dec y k) as [-> | Hne].
      * apply Htest in Hend. congruence.
      * apply I4; [lia | exact Hend |]. intros z Hz. apply Hlast. lia.
Qed.

Lemma Update_while_scanned fuel : forall k g,
  0 <= k <= n -> upto k g -> n - k <= Z.of_nat fuel ->
  exists g', Update_while fuel edges_data 1 n k g = Done g' /\ upto n g'.
Proof.
  induction fuel as [| fuel IH]; intros k g Hk Hinv Hf; cbn [Update_while];
    destruct (Z.ltb_spec k n) as [Hlt | Hge]; try lia;
    try (assert (k = n) by lia; subst k; exists g;
         split; [reflexivity | exact Hinv]).
  replace (uint (k + 1)) with (k + 1) by (symmetry; apply uint_small; lia).
  apply IH; [lia | apply scanned_step; [lia | exact Hinv] | lia].
Qed.

(** The first entry of the table stays within the array. *)
Lemma Update_while_first_entry fuel : forall k g,
  0 <= k -> 0 <= pos g 0 <= n ->
  forall g', Update_while fuel edges_data 1 n k g = Done g' ->
  0 <= pos g' 0 <= n.
Proof.
  induction fuel as [| fuel IH]; intros k g Hk Hp g'; cbn [Update_while];
    destruct (Z.ltb_spec k n) as [Hlt | Hge]; try discriminate;
    try (intros [= <-]; exact Hp).
  replace (uint (k + 1)) with (k + 1) by (symmetry; apply uint_small; lia).
  apply IH; [lia |]. unfold Update_body. cbn [pos].
  rewrite !(uint_small (k + 1)) by lia.
  destruct ((k =? n - 1) || _); [| exact Hp].
  unfold store. destruct (0 =? _); lia.
Qed.

End AnyArray.

Lemma Update_sequential fuel edges_data g :
  Update fuel sequential edges_data g
  = Update_while fuel edges_data 1 (pos g 0) 0 g.
Proof. reflexivity. Qed.

(** X7: on any array of pos[0] < 2^32 entries, sorted or not, the
    sequential Update kernel ends; it replaces every entry below pos[0] by
    its remainder modulo edges_data and touches no other entry; for every
    tag, the entry of pos is the end (exclusive) of the last run of that
    tag, a run ending where the next entry has a greater tag or where the
    array ends; and the entry of a tag without such a run, in particular
    of a query edge without a candidate, is left as it was. *)
Theorem Update_records_last_run_end (edges_data : Z) (g : global)
    (fuel : nat) :
  edges_data <> 0 ->
  0 <= pos g 0 < 2 ^ 32 ->
  pos g 0 <= Z.of_nat fuel ->
  exists g',
    Update fuel sequential edges_data g = Done g' /\
    (forall y, 0 <= y < pos g 0 ->
       indices g' y = Z.rem (indices g y) edges_data) /\
    (forall y, ~ 0 <= y < pos g 0 -> indices g' y = indices g y) /\
    (forall y, 0 <= y < pos g 0 -> run_end edges_data (pos g 0) g y ->
       (forall z, y < z < pos g 0 -> run_end edges_data (pos g 0) g z ->
          tag_of edges_data (indices g z) <> tag_of edges_data (indices g y)) ->
       pos g' (tag_of edges_data (indices g y)) = y + 1) /\
    (forall i,
       (forall y, 0 <= y < pos g 0 -> run_end edges_data (pos g 0) g y ->
          tag_of edges_data (indices g y) <> i) ->
       pos g' i = pos g i).
Proof.
  intros _ Hn Hf. rewrite Update_sequential.
  destruct (Update_while_scanned edges_data (pos g 0) g Hn fuel 0 g)
    as (g' & E & I1 & I2 & I3 & I4);
    [lia | apply scanned_start | lia |].
  exists g'. split; [exact E |]. split; [exact I2 |]. split; [exact I1 |].
  split; [exact I4 | exact I3].
Qed.

Section TwoArrays.
Variables (edges_data n : Z).
Hypothesis Hn : 0 <= n < 2 ^ 32.

(** Two runs on arrays that agree below [n] make the same writes to the
    table. *)
Lemma Update_while_agree fuel : forall k g1 g2,
  0 <= k -> pos g1 = pos g2 ->
  (forall y, 0 <= y < n -> indices g1 y = indices g2 y) ->
  n - k <= Z.of_nat fuel ->
  exists g1' g2',
    Update_while fuel edges_data 1 n k g1 = Done g1' /\
    Update_while fuel edges_data 1 n k g2 = Done g2' /\
    pos g1' = pos g2' /\
    (forall y, 0 <= y < n -> indices g1' y = indices g2' y) /\
    (forall y, ~ 0 <= y < n -> indices g1' y = indices g1 y) /\
    (forall y, ~ 0 <= y < n -> indices g2' y = indices g2 y).
Proof.
  induction fuel as [| fuel IH]; intros k g1 g2 Hk Hp Hi Hf;
    cbn [Update_while]; destruct (Z.ltb_spec k n) as [Hlt | Hge]; try lia;
    try (exists g1, g2; repeat split; try reflexivity; assumption).
  replace (uint (k + 1)) with (k + 1) by (symmetry; apply uint_small; lia).
  destruct (IH (k + 1) (Update_body edges_data n k g1)
              (Update_body edges_data n k g2))
    as (g1' & g2' & E1 & E2 & Hp' & Hi' & Ho1 & Ho2); [lia | | | lia |].
  - unfold Update_body. cbn [pos].
    replace (uint (k + 1)) with (k + 1) by (symmetry; apply uint_small; lia).
    rewrite Hp, (Hi k) by lia.
    destruct (Z.eqb_spec k (n - 1)) as [El | Nl]; cbn [orb]; [reflexivity |].
    rewrite (Hi (k + 1)) by lia. reflexivity.
  - intros y Hy. unfold Update_body. cbn [indices].
    unfold store. rewrite (Hi k), (Hi y) by lia. reflexivity.
  - exists g1', g2'. split; [exact E1 |]. split; [exact E2 |].
    split; [exact Hp' |]. split; [exact Hi' |]. split.
    + intros y Hy. rewrite Ho1 by exact Hy. cbn.
      apply store_other. lia.
    + intros y Hy. rewrite Ho2 by exact Hy. cbn.
      apply store_other. lia.
Qed.

End TwoArrays.

(** X8: the sequential Update kernel does not depend on what lies past the
    pos[0] entries of the array: two runs on arrays that agree below
    pos[0] (and on pos) leave the same table pos and the same entries below
    pos[0], and each leaves the entries from pos[0] on as they were. *)
Theorem Update_reads_no_entry_past_the_end (edges_data : Z) (g1 g2 : global)
    (fuel : nat) :
  edges_data <> 0 ->
  pos g1 = pos g2 ->
  0 <= pos g1 0 < 2 ^ 32 ->
  (forall y, 0 <= y < pos g1 0 -> indices g1 y = indices g2 y) ->
  pos g1 0 <= Z.of_nat fuel ->
  exists g1' g2',
    Update fuel sequential edges_data g1 = Done g1' /\
    Update fuel sequential edges_data g2 = Done g2' /\
    pos g1' = pos g2' /\
    (forall y, 0 <= y < pos g1 0 -> indices g1' y = indices g2' y) /\
    (forall y, ~ 0 <= y < pos g1 0 ->
       indices g1' y = indices g1 y /\ indices g2' y = indices g2 y).
Proof.
  intros _ Hp Hn Hi Hf. rewrite !Update_sequential. rewrite <- Hp.
  destruct (Update_while_agree edges_data (pos g1 0) Hn fuel 0 g1 g2)
    as (g1' & g2' & E1 & E2 & Hp' & Hi' & Ho1 & Ho2);
    [lia | exact Hp | exact Hi | lia |].
  exists g1', g2'. repeat (split; [assumption |]).
  intros y Hy. split; [apply Ho1 | apply Ho2]; exact Hy.
Qed.

(** X9: running the sequential Update kernel a second time, on the arrays
    the first run left, changes nothing: the table pos and the array are
    entry for entry those of the first run. *)
Theorem Update_twice_is_Update_once (edges_data : Z) (g : global)
    (fuel : nat) :
  edges_data <> 0 ->
  0 <= pos g 0 < 2 ^ 32 ->
  pos g 0 <= Z.of_nat fuel ->
  exists g' g'',
    Update fuel sequential edges_data g = Done g' /\
    Update fuel sequential edges_data g' = Done g'' /\
    (forall i, pos g'' i = pos g' i) /\
    (forall y, indices g'' y = indices g' y).
Proof.
  intros Hed Hn Hf. rewrite Update_sequential.
  destruct (Update_while_scanned edges_data (pos g 0) g Hn fuel 0 g)
    as (g' & E & I1 & I2 & _ & _);
    [lia | apply scanned_start | lia |].
  pose proof (Update_while_first_entry edges_data (pos g 0) Hn fuel 0 g
                ltac:(lia) ltac:(lia) g' E) as Hn'.
  exists g'. rewrite E, Update_sequential.
  set (n' := pos g' 0) in *.
  assert (Hn2 : 0 <= n' < 2 ^ 32) by lia.
  destruct (Update_while_scanned edges_data n' g' Hn2 fuel 0 g')
    as (g'' & E' & J1 & J2 & J3 & J4);
    [lia | apply scanned_start | lia |].
  exists g''. split; [reflexivity |]. split; [exact E' |].
  assert (Htag : forall y, 0 <= y < n' ->
            tag_of edges_data (indices g' y) = 0).
  { intros y Hy. unfold tag_of. rewrite I2 by lia.
    apply Z.quot_small_iff; [exact Hed |].
    apply Z.rem_bound_abs. exact Hed. }
  assert (Hends : forall y, 0 <= y < n' -> run_end edges_data n' g' y ->
            y = n' - 1).
  { intros y Hy [He | He]; [exact He |].
    destruct (Z.eq_dec y (n' - 1)) as [| Hne]; [assumption |].
    rewrite (Htag y), (Htag (y + 1)) in He by lia. lia. }
  split.
  - intros i. destruct (Z.eq_dec i 0) as [-> | Hi].
    + destruct (Z.eq_dec n' 0) as [E0 | N0].
      * apply J3. intros y Hy. lia.
      * rewrite <- (Htag (n' - 1)) by lia.
        rewrite J4; [rewrite Htag by lia; fold n'; lia | lia | left; reflexivity |].
        intros z Hz. lia.
    + apply J3. intros y Hy _. rewrite Htag by lia. lia.
  - intros y. destruct (Z_lt_dec y 0) as [Hneg | Hpos];
      [apply J1; lia |].
    destruct (Z_lt_dec y n') as [Hlt | Hge]; [| apply J1; lia].
    rewrite J2 by lia. rewrite I2 by lia. apply Z.rem_rem. exact Hed.
Qed.

Lemma Update_while_stride_zero fuel : forall edges_data size x g,
  0 <= x < 2 ^ 32 -> x < size ->
  Update_while fuel edges_data 0 size x g = OutOfFuel.
Proof.
  induction fuel as [| fuel IH]; intros edges_data size x g Hx Hlt;
    cbn [Update_while]; destruct (Z.ltb_spec x size); try lia; [reflexivity |].
  rewrite Z.add_0_r, uint_small by exact Hx. apply IH; assumption.
Qed.

(** On a sorted array in which every query edge below [q] has a candidate,
    the segments that the sequential kernel leaves. *)
Lemma Update_segments (edges_data q : Z) (g : global) (fuel : nat) :
  0 < edges_data ->
  0 <= pos g 0 < 2 ^ 32 ->
  (forall x, 0 <= x < pos g 0 -> 0 <= indices g x) ->
  (forall x y, 0 <= x <= y -> y < pos g 0 ->
     tag_of edges_data (indices g x) <= tag_of edges_data (indices g y)) ->
  (forall i, 0 <= i < q ->
     exists x, 0 <= x < pos g 0 /\ tag_of edges_data (indices g x) = i) ->
  pos g 0 <= Z.of_nat fuel ->
  exists g',
    Update fuel sequential edges_data g = Done g' /\
    (forall y, 0 <= y < pos g 0 ->
       indices g' y = indices g y mod edges_data) /\
    (forall i, 0 <= i < q ->
       0 <= seg_lower (pos g') i < pos g' i /\ pos g' i <= pos g 0 /\
       (forall x, 0 <= x < pos g 0 ->
          (tag_of edges_data (indices g x) = i
           <-> seg_lower (pos g') i <= x < pos g' i))).
Proof.
  intros Hed Hn Hnonneg Hsorted Hocc Hf.
  set (n := pos g 0) in *.
  destruct (Update_while_processed edges_data n g Hn Hsorted fuel 0 g)
    as (g' & E & Hp); [lia | apply processed_start | lia |].
  exists g'. split; [exact E |]. split.
  - intros y Hy. destruct Hp as (_ & I2 & _). rewrite I2 by lia.
    apply Z.rem_mod_nonneg; [apply Hnonneg; lia | lia].
  - intros i Hi.
    destruct (seg_lower_run edges_data n g Hed Hnonneg Hsorted g' i Hp)
      as (lo & y & H1 & H2 & H3 & H4 & H5 & _ & H6);
      [intros j Hj; apply Hocc; lia | lia |].
    rewrite H1, H2. split; [lia |]. split; [lia |].
    intros x Hx. rewrite (H6 x Hx). lia.
Qed.

(** X10: the arrays that the sequential Update kernel leaves, on an array
    sorted by tag in which each of the q >= 1 query edges has a candidate,
    are a well-formed input of the Join kernel: every segment of the
    offset table is non-empty and the table fits unsigned long long; and
    for every tuple index below the product of the segment lengths, the
    data edge that Join decodes for query edge k is the data-edge id
    (entry modulo edges_data) of an entry that carried the tag k. *)
Theorem Update_result_is_well_formed_Join_input (VertexId SizeT : int_type)
    (edges_data q : Z) (g : global) (intersect froms tos : mem)
    (fuel : nat) :
  0 < edges_data <= 2 ^ 64 ->
  1 <= q ->
  0 <= pos g 0 < 2 ^ 32 ->
  (forall x, 0 <= x < pos g 0 -> 0 <= indices g x) ->
  (forall x y, 0 <= x <= y -> y < pos g 0 ->
     tag_of edges_data (indices g x) <= tag_of edges_data (indices g y)) ->
  (forall i, 0 <= i < q ->
     exists x, 0 <= x < pos g 0 /\ tag_of edges_data (indices g x) = i) ->
  pos g 0 <= Z.of_nat fuel ->
  exists g',
    Update fuel sequential edges_data g = Done g' /\
    let a := Join_input VertexId SizeT edges_data q g' intersect froms tos in
    JoinKernel.wf_pos a /\
    (forall x k,
       0 <= x < JoinKernel.space_size a -> 0 <= k < q ->
       exists s,
         0 <= s < pos g 0 /\
         tag_of edges_data (indices g s) = k /\
         JoinKernel.Join_tuple a x k = indices g s mod edges_data).
Proof.
  intros Hed Hq Hn Hnonneg Hsorted Hocc Hf.
  destruct (Update_segments edges_data q g fuel) as (g' & E & Hi & Hseg);
    try assumption; [lia |].
  exists g'. split; [exact E |]. cbv zeta.
  set (a := Join_input VertexId SizeT edges_data q g' intersect froms tos).
  assert (Hqa : 1 <= JoinKernel.edges_query a) by exact Hq.
  assert (Hwf : JoinKernel.wf_pos a).
  { split.
    - intros k Hk. destruct (Hseg k Hk) as (H1 & _). apply H1.
    - destruct (Hseg (q - 1) ltac:(lia)) as (_ & Hle & _).
      change (pos g' (q - 1) < 2 ^ 64). lia. }
  split; [exact Hwf |].
  intros x k Hx Hk.
  set (s := nth (Z.to_nat k) (JoinKernel.Join_slots a x) 0).
  assert (Hslot : JoinKernel.seg_start a k <= s < JoinKernel.pos a k).
  { unfold s, JoinKernel.Join_slots.
    destruct (Z.eq_dec k 0) as [-> | Hne].
    - change (JoinKernel.seg_start a 0) with 0. change (Z.to_nat 0) with 0%nat.
      rewrite (JoinFacts.space_size_tail a Hqa) in Hx.
      pose proof (JoinFacts.decode_first_slot a Hqa Hwf
                    (Z.to_nat (JoinKernel.edges_query a - 1))
                    (JoinKernel.edges_query a - 1) x (JoinKernel.pos a 0)
                    ltac:(lia) ltac:(lia) Hx) as H.
      destruct (JoinKernel.Join_decode_slots a _ _ x []); exact H.
    - rewrite (JoinFacts.wf_seg_start a) by lia.
      apply (JoinFacts.decode_later_slots a Hqa Hwf);
        [lia | lia | change (1 <= k <= q - 1); lia]. }
  destruct (Hseg k Hk) as (Hlo & Hhi & Hiff).
  change (seg_lower (pos g') k <= s < pos g' k) in Hslot.
  exists s. split; [lia |]. split; [apply Hiff; lia |].
  unfold JoinKernel.Join_tuple. fold s. change (JoinKernel.edges a s) with (indices g' s).
  rewrite Hi by lia. apply ull_small.
  pose proof (Z.mod_pos_bound (indices g s) edges_data ltac:(lia)). lia.
Qed.

(** *** The theorems at sample inputs *)

(** The array [1; 5; 9; 6; 2; 10] over four data edges carries the tags
    0, 1, 2, 1, 0, 2: the only run of the tag 1 that ends at a run end ends
    at position 1, and the tag 3 does not occur. *)
Lemma Update_records_last_run_end_witness :
  4 <> 0 /\
  pos unsorted 0 = 6 /\
  exists g',
    Update 6 sequential 4 unsorted = Done g' /\
    pos g' 1 = 2 /\
    pos g' 3 = 77 /\
    indices g' 2 = 1.
Proof.
  split; [discriminate |]. split; [reflexivity |].
  destruct (Update_records_last_run_end 4 unsorted 6 ltac:(discriminate)
              ltac:(cbn; lia) ltac:(cbn; lia))
    as (g' & E & Hi & _ & Hlast & Hnone).
  change (pos unsorted 0) with 6 in *.
  exists g'. split; [exact E |]. split; [| split].
  - apply (Hlast 1); [lia | right; vm_compute; reflexivity |].
    intros z Hz [He | He].
    + subst z. vm_compute. discriminate.
    + assert (Hc : z = 2 \/ z = 3 \/ z = 4 \/ z = 5) by lia.
      destruct Hc as [-> | [-> | [-> | ->]]]; vm_compute in He |- *;
        discriminate.
  - change 77 with (pos unsorted 3). apply Hnone.
    intros y Hy _.
    assert (Hc : y = 0 \/ y = 1 \/ y = 2 \/ y = 3 \/ y = 4 \/ y = 5) by lia.
    destruct Hc as [-> | [-> | [-> | [-> | [-> | ->]]]]]; vm_compute;
      discriminate.
  - rewrite Hi by lia. reflexivity.
Defined.

(** The sample array and the same array followed by the entry 99. *)
Lemma Update_reads_no_entry_past_the_end_witness :
  indices tagged 6 <> indices tagged_and_more 6 /\
  exists g1' g2',
    Update 6 sequential 4 tagged = Done g1' /\
    Update 6 sequential 4 tagged_and_more = Done g2' /\
    pos g1' = pos g2' /\
    indices g2' 6 = 99.
Proof.
  split; [vm_compute; discriminate |].
  destruct (Update_reads_no_entry_past_the_end 4 tagged tagged_and_more 6
              ltac:(discriminate) eq_refl ltac:(cbn; lia))
    as (g1' & g2' & E1 & E2 & Hp & _ & Ho).
  - intros y Hy. change (pos tagged 0) with 6 in Hy.
    assert (Hc : y = 0 \/ y = 1 \/ y = 2 \/ y = 3 \/ y = 4 \/ y = 5) by lia.
    destruct Hc as [-> | [-> | [-> | [-> | [-> | ->]]]]]; reflexivity.
  - cbn; lia.
  - exists g1', g2'. split; [exact E1 |]. split; [exact E2 |].
    split; [exact Hp |].
    destruct (Ho 6 ltac:(change (pos tagged 0) with 6; lia)) as (_ & H).
    rewrite H. reflexivity.
Defined.

Lemma Update_twice_is_Update_once_witness :
  4 <> 0 /\
  exists g' g'',
    Update 6 sequential 4 tagged = Done g' /\
    Update 6 sequential 4 g' = Done g'' /\
    pos g'' 0 = pos g' 0 /\
    indices g'' 1 = indices g' 1.
Proof.
  split; [discriminate |].
  destruct (Update_twice_is_Update_once 4 tagged 6 ltac:(discriminate)
              ltac:(cbn; lia) ltac:(cbn; lia))
    as (g' & g'' & E1 & E2 & Hp & Hi).
  exists g', g''. split; [exact E1 |]. split; [exact E2 |].
  split; [apply Hp | apply Hi].
Defined.

Lemma tagged_nonneg x : 0 <= x < pos tagged 0 -> 0 <= indices tagged x.
Proof.
  intros Hx. apply Z.leb_le.
  exact (forallb_Zrange (fun x => 0 <=? indices tagged x) 6 eq_refl x Hx).
Qed.

Lemma tagged_sorted x y :
  0 <= x <= y -> y < pos tagged 0 ->
  tag_of 4 (indices tagged x) <= tag_of 4 (indices tagged y).
Proof.
  intros Hx Hy. change (pos tagged 0) with 6 in Hy.
  pose proof (forallb_Zrange
    (fun x => forallb (fun y => negb (x <=? y)
                                || (tag_of 4 (indices tagged x)
                                    <=? tag_of 4 (indices tagged y)))
                (Zrange 6)) 6 eq_refl x ltac:(lia)) as H.
  pose proof (forallb_Zrange _ 6 H y ltac:(lia)) as H'. cbv beta in H'.
  apply orb_true_iff in H'. destruct H' as [H' | H'].
  - apply negb_true_iff, Z.leb_gt in H'. lia.
  - apply Z.leb_le. exact H'.
Qed.

Lemma tagged_occupied i :
  0 <= i < 3 ->
  exists x, 0 <= x < pos tagged 0 /\ tag_of 4 (indices tagged x) = i.
Proof.
  intros Hi. assert (Hc : i = 0 \/ i = 1 \/ i = 2) by lia.
  destruct Hc as [-> | [-> | ->]];
    [exists 0 | exists 2 | exists 5]; split; try reflexivity;
    change (pos tagged 0) with 6; lia.
Qed.

(** The sample array of six candidates of three query edges: the table
    that [Update] leaves is [2; 5; 6], and the tuple of index 4 is made of
    the data edges 3, 2 and 2, candidates of the query edges 0, 1 and 2. *)
Lemma Update_result_is_well_formed_Join_input_witness :
  0 < 4 <= 2 ^ 64 /\
  1 <= 3 /\
  exists g',
    Update 6 sequential 4 tagged = Done g' /\
    JoinKernel.wf_pos
      (Join_input int32 int32 4 3 g' (of_list []) (of_list []) (of_list [])) /\
    map (JoinKernel.Join_tuple
           (Join_input int32 int32 4 3 g' (of_list []) (of_list []) (of_list [])) 4)
      [0; 1; 2]
    = [3; 2; 2].
Proof.
  split; [lia |]. split; [lia |].
  destruct (Update_result_is_well_formed_Join_input int32 int32 4 3 tagged
              (of_list []) (of_list []) (of_list []) 6
              ltac:(lia) ltac:(lia) ltac:(cbn; lia)
              tagged_nonneg tagged_sorted tagged_occupied ltac:(cbn; lia))
    as (g' & E & Hwf & _).
  exists g'. split; [exact E |]. split; [exact Hwf |].
  assert (Eg : Update 6 sequential 4 tagged = Done g') by exact E.
  vm_compute in Eg. injection Eg as Eg. rewrite <- Eg.
  vm_compute. reflexivity.
Defined.

End UpdateAnyFacts.

(* ------------------------------------------------------------------ *)
(** ** The Label kernel: its marks, its launches *)
(* ------------------------------------------------------------------ *)

Module LabelLaunchFacts.
Import LabelKernel LabelFacts LabelLaunch LaunchFacts.

Section Exact.
Variable a : args.

(** The [for] loop at the data edge [x]: an index is set to 1 when some
    query edge hits it, and keeps its value otherwise. *)
Lemma Label_for_exact x n : forall i label j,
  0 <= i -> i + Z.of_nat n = edges_query a ->
  ((exists k, i <= k /\ hits a x k j) /\ Label_for a n i x label j = 1)
  \/ ((forall k, i <= k -> ~ hits a x k j) /\ Label_for a n i x label j = label j).
Proof.
  induction n as [| n IH]; intros i label j Hi Hn.
  - right. split; [| reflexivity].
    intros k Hk (Hr & _). lia.
  - cbn [Label_for].
    set (label1 := if Label_test a x (froms_query a i) (tos_query a i)
                   then store label (x + Z.quot (i * edges_data a) 2) 1
                   else label).
    destruct (IH (i + 1) label1 j) as [((k & Hk & Hh) & E) | (Hno & E)];
      [lia | lia | |].
    + left. split; [| exact E]. exists k. split; [lia | exact Hh].
    + rewrite E. unfold label1.
      destruct (Label_test a x (froms_query a i) (tos_query a i)) eqn:Et.
      * destruct (Z.eq_dec j (label_index a x i)) as [Ej | Ej].
        -- left. split.
           ++ exists i. split; [lia |]. split; [lia |]. split; assumption.
           ++ rewrite Ej. apply store_same.
        -- right. split.
           ++ intros k Hk Hh. destruct (Z.eq_dec k i) as [-> | Hne].
              ** destruct Hh as (_ & _ & Hj). contradiction.
              ** apply (Hno k); [lia | exact Hh].
           ++ apply store_other. exact Ej.
      * right. split; [| reflexivity].
        intros k Hk Hh. destruct (Z.eq_dec k i) as [-> | Hne].
        -- destruct Hh as (_ & Ht & _). congruence.
        -- apply (Hno k); [lia | exact Hh].
Qed.

Lemma Label_for_hits x label j :
  ((exists k, hits a x k j)
   /\ Label_for a (Z.to_nat (edges_query a)) 0 x label j = 1)
  \/ ((forall k, ~ hits a x k j)
      /\ Label_for a (Z.to_nat (edges_query a)) 0 x label j = label j).
Proof.
  destruct (Z_le_gt_dec 0 (edges_query a)) as [Hq | Hq].
  - destruct (Label_for_exact x (Z.to_nat (edges_query a)) 0 label j)
      as [((k & _ & Hh) & E) | (Hno & E)]; [lia | lia | |].
    + left. split; [exists k; exact Hh | exact E].
    + right. split; [| exact E]. intros k Hh.
      apply (Hno k); [destruct Hh; lia | exact Hh].
  - right. replace (Z.to_nat (edges_query a)) with 0%nat by lia.
    split; [| reflexivity]. intros k (Hr & _). lia.
Qed.

Variable S : Z.
Hypothesis HS : 1 <= S.

Local Abbreviation size := (d_query_row a 0).

(** The loop of a thread of stride [S] from [x]. *)
Lemma Label_while_exact fuel : forall x label,
  size - x <= Z.of_nat fuel ->
  exists label',
    Label_while a fuel S size x label = Done label' /\
    forall j,
      (marks a x S j /\ label' j = 1)
      \/ (~ marks a x S j /\ label' j = label j).
Proof.
  induction fuel as [| fuel IH]; intros x label Hf; cbn [Label_while];
    destruct (Z.ltb_spec x size) as [Hlt | Hge]; try lia;
    try (exists label; split; [reflexivity |]; intros j; right;
         split; [intros (y & i & Hy & _); lia | reflexivity]).
  set (label1 := Label_for a (Z.to_nat (edges_query a)) 0 x label).
  destruct (IH (x + S) label1) as (label' & E & Hj); [lia |].
  exists label'. split; [exact E |]. intros j.
  destruct (Hj j) as [(Hm & E1) | (Hm & E1)].
  - left. split; [| exact E1].
    destruct Hm as (y & i & Hy & Hc & Hh). exists y, i.
    split; [lia |]. split; [| exact Hh].
    replace (y - x) with (y - (x + S) + 1 * S) by ring.
    rewrite Z.mod_add by lia. exact Hc.
  - rewrite E1. unfold label1.
    destruct (Label_for_hits x label j) as [((k & Hh) & E2) | (Hno & E2)].
    + left. split; [| exact E2]. exists x, k.
      split; [lia |]. split; [| exact Hh].
      rewrite Z.sub_diag. apply Z.mod_0_l. lia.
    + right. split; [| exact E2].
      intros (y & i & Hy & Hc & Hh).
      destruct (Z.eq_dec y x) as [-> | Hne]; [apply (Hno i), Hh |].
      apply Hm. exists y, i.
      assert (x + S <= y).
      { apply (same_class_far S x y); [lia | | lia].
        apply Z.mod_divide in Hc; [| lia]. destruct Hc as (c & Hc).
        replace y with (x + c * S) by lia. rewrite Z.mod_add by lia.
        reflexivity. }
      split; [lia |]. split; [| exact Hh].
      replace (y - (x + S)) with (y - x + (-1) * S) by ring.
      rewrite Z.mod_add by lia. exact Hc.
Qed.

End Exact.

Lemma marks_sequential a j : marks a 0 1 j <-> marked a j.
Proof.
  unfold marks, marked. split.
  - intros (y & i & Hy & _ & Hh). exists y, i. split; assumption.
  - intros (y & i & Hy & Hh). exists y, i.
    split; [exact Hy |]. split; [apply Z.mod_1_r | exact Hh].
Qed.

Lemma Label_sequential_exact a label fuel :
  d_query_row a 0 <= Z.of_nat fuel ->
  exists label',
    Label fuel sequential a label = Done label' /\
    forall j,
      (marked a j /\ label' j = 1) \/ (~ marked a j /\ label' j = label j).
Proof.
  intros Hf.
  destruct (Label_while_exact a 1 ltac:(lia) fuel 0 label) as (label' & E & Hj);
    [lia |].
  exists label'. rewrite Label_sequential. split; [exact E |]. intros j.
  destruct (Hj j) as [(Hm & E1) | (Hm & E1)]; [left | right];
    (split; [| exact E1]); rewrite <- marks_sequential; exact Hm.
Qed.


Section LaunchLabel.
Variable a : args.
Variables (G B : Z).
Hypothesis HG : 1 <= G.
Hypothesis HB : 1 <= B.
Hypothesis HN : G * B < 2 ^ 32.
Hypothesis HS : fits (SizeT a) (G * B).
Hypothesis Hsize : 0 <= d_query_row a 0.
Hypothesis Hsum : d_query_row a 0 + G * B <= max_value (VertexId a) + 1.

Lemma Label_thread_exact fuel t label :
  Grid.in_launch G B t ->
  d_query_row a 0 <= Z.of_nat fuel ->
  exists label',
    Label fuel t a label = Done label' /\
    forall j,
      (marks a (thread_x t) (G * B) j /\ label' j = 1)
      \/ (~ marks a (thread_x t) (G * B) j /\ label' j = label j).
Proof.
  intros Ht Hf. unfold Label.
  rewrite (in_launch_STRIDE G B HG HB HN t Ht).
  destruct (in_launch_x G B HB HN t Ht) as (_ & Hx).
  rewrite (convert_small _ _ HS).
  rewrite (convert_small (VertexId a) (thread_x t)).
  - apply Label_while_exact; [nia | lia].
  - unfold fits. pose proof (min_value_nonpos (VertexId a)). lia.
Qed.

Lemma Label_threads_exact fuel : forall ts label,
  (forall t, In t ts -> Grid.in_launch G B t) ->
  d_query_row a 0 <= Z.of_nat fuel ->
  exists label',
    Label_threads fuel ts a label = Done label' /\
    forall j,
      ((exists t, In t ts /\ marks a (thread_x t) (G * B) j) /\ label' j = 1)
      \/ ((forall t, In t ts -> ~ marks a (thread_x t) (G * B) j)
          /\ label' j = label j).
Proof.
  induction ts as [| t ts IH]; intros label Hts Hf.
  - exists label. split; [reflexivity |]. intros j. right.
    split; [intros t [] | reflexivity].
  - destruct (Label_thread_exact fuel t label) as (label1 & E1 & H1);
      [apply Hts; left; reflexivity | exact Hf |].
    destruct (IH label1) as (label' & E' & H');
      [intros u Hu; apply Hts; right; exact Hu | exact Hf |].
    exists label'. cbn [Label_threads]. rewrite E1. cbn [bind].
    split; [exact E' |]. intros j.
    destruct (H' j) as [((u & Hu & Hm) & E2) | (Hno & E2)].
    + left. split; [| exact E2]. exists u. split; [right; exact Hu | exact Hm].
    + rewrite E2. destruct (H1 j) as [(Hm & E3) | (Hm & E3)].
      * left. split; [| exact E3]. exists t. split; [left; reflexivity | exact Hm].
      * right. split; [| exact E3].
        intros u [<- | Hu]; [exact Hm | apply Hno, Hu].
Qed.

(** Every data edge below the loop bound is visited by the thread whose
    index is its residue. *)
Lemma marked_by_some_thread j :
  marked a j <->
  exists t, Grid.in_launch G B t /\ marks a (thread_x t) (G * B) j.
Proof.
  split.
  - intros (y & i & Hy & Hh).
    pose proof (Z.mod_pos_bound y (G * B) ltac:(nia)) as Hr.
    exists (Grid.thread_of G B (y mod (G * B))).
    split; [apply thread_of_in_launch; [exact HB | exact Hr] |].
    rewrite (thread_of_x G B HB HN) by exact Hr.
    exists y, i. split.
    + pose proof (Z.mod_le y (G * B) ltac:(lia) ltac:(nia)). lia.
    + split; [| exact Hh].
      rewrite Zminus_mod_idemp_r, Z.sub_diag. apply Z.mod_0_l. nia.
  - intros (t & Ht & y & i & Hy & _ & Hh).
    destruct (in_launch_x G B HB HN t Ht) as (_ & Hx).
    exists y, i. split; [lia | exact Hh].
Qed.

End LaunchLabel.

(** X12: let the threads of a launch <<<G, B>>> run the Label kernel one
    after another, each to completion, in any order and any number of
    times each, where the number of threads G * B is below 2^32 and is a
    value of SizeT (the type of STRIDE), the loop bound d_query_row[0] is
    not negative and is a value of SizeT (the type of size), and
    d_query_row[0] + G * B does not exceed the greatest VertexId plus one
    (x is a VertexId: no thread index is changed by the conversion and no
    x += STRIDE overflows).  The labels that result are, entry for entry,
    those of the sequential launch <<<1, 1>>>. *)
Theorem Label_result_independent_of_launch (a : args) (G B : Z)
    (ts : list thread) (label : mem) (fuel : nat) :
  1 <= G -> 1 <= B -> G * B < 2 ^ 32 ->
  fits (SizeT a) (G * B) ->
  0 <= d_query_row a 0 ->
  fits (SizeT a) (d_query_row a 0) ->
  d_query_row a 0 + G * B <= max_value (VertexId a) + 1 ->
  (forall t, In t ts <-> Grid.in_launch G B t) ->
  d_query_row a 0 <= Z.of_nat fuel ->
  exists label_launch label_one,
    Label_threads fuel ts a label = Done label_launch /\
    Label fuel sequential a label = Done label_one /\
    forall j, label_launch j = label_one j.
Proof.
  intros HG HB HN HS Hsize _ Hsum Hts Hf.
  destruct (Label_threads_exact a G B HG HB HN HS Hsize Hsum fuel ts label)
    as (l1 & E1 & H1); [intros t Ht; apply Hts, Ht | exact Hf |].
  destruct (Label_sequential_exact a label fuel Hf) as (l2 & E2 & H2).
  exists l1, l2. split; [exact E1 |]. split; [exact E2 |]. intros j.
  pose proof (marked_by_some_thread a G B HG HB HN j) as Hiff.
  destruct (H1 j) as [((t & Ht & Hm) & F1) | (Hno & F1)];
    destruct (H2 j) as [(Hm2 & F2) | (Hn2 & F2)]; try congruence.
  - exfalso. apply Hn2. apply Hiff. exists t. split; [apply Hts, Ht | exact Hm].
  - exfalso. apply Hiff in Hm2. destruct Hm2 as (t & Ht & Hm).
    apply (Hno t); [apply Hts, Ht | exact Hm].
Qed.

Lemma Label_while_stride_zero a fuel : forall size x label,
  x < size -> Label_while a fuel 0 size x label = OutOfFuel.
Proof.
  induction fuel as [| fuel IH]; intros size x label Hlt;
    cbn [Label_while]; destruct (Z.ltb_spec x size); try lia; [reflexivity |].
  rewrite Z.add_0_r. apply IH. exact Hlt.
Qed.

(** *** The theorems at sample inputs *)




(** The same data under the launch [<<<1, 2>>>], the second thread first. *)
Lemma Label_result_independent_of_launch_witness :
  1 <= 1 /\ 1 <= 2 /\ 1 * 2 < 2 ^ 32 /\
  fits (SizeT three_edges) (1 * 2) /\
  fits (SizeT three_edges) (d_query_row three_edges 0) /\
  d_query_row three_edges 0 + 1 * 2 <= max_value (VertexId three_edges) + 1 /\
  exists label_launch label_one,
    Label_threads 3 (rev (Grid.launch 1 2)) three_edges unmarked
    = Done label_launch /\
    Label 3 sequential three_edges unmarked = Done label_one /\
    label_launch 1 = label_one 1.
Proof.
  assert (H1 : fits (SizeT three_edges) (1 * 2))
    by (vm_compute; split; discriminate).
  assert (H2 : fits (SizeT three_edges) (d_query_row three_edges 0))
    by (vm_compute; split; discriminate).
  assert (H3 : d_query_row three_edges 0 + 1 * 2
               <= max_value (VertexId three_edges) + 1)
    by (vm_compute; discriminate).
  split; [lia |]. split; [lia |]. split; [lia |].
  split; [exact H1 |]. split; [exact H2 |]. split; [exact H3 |].
  destruct (Label_result_independent_of_launch three_edges 1 2
              (rev (Grid.launch 1 2)) unmarked 3
              ltac:(lia) ltac:(lia) ltac:(lia) H1 ltac:(cbn; lia) H2 H3)
    as (l1 & l2 & E1 & E2 & Hj).
  - intros t. rewrite <- in_rev. apply In_launch; lia.
  - cbn; lia.
  - exists l1, l2. split; [exact E1 |]. split; [exact E2 |]. apply Hj.
Defined.

End LabelLaunchFacts.

(* ------------------------------------------------------------------ *)
(** ** The debug kernel *)
(* ------------------------------------------------------------------ *)

Module DebugFacts.
Import DebugKernel LaunchFacts.

Lemma flat_map_nil {A B : Type} (f : A -> list B) l :
  (forall x, In x l -> f x = []) -> flat_map f l = [].
Proof.
  induction l as [| x l IH]; intros H; [reflexivity |].
  cbn [flat_map]. rewrite (H x) by (left; reflexivity).
  apply IH. intros y Hy. apply H. right. exact Hy.
Qed.

Section Launch.
Variables (G B : Z).
Hypothesis HG : 1 <= G.
Hypothesis HB : 1 <= B.
Hypothesis HN : G * B < 2 ^ 32.

Lemma debug_in_launch t counts :
  Grid.in_launch G B t ->
  debug t counts
  = if (blockIdx_x t =? 0) && (threadIdx_x t =? 0) then [counts 0] else [].
Proof.
  intros Ht. destruct (in_launch_x G B HB HN t Ht) as (Ex & _).
  destruct Ht as (_ & _ & Hb & Hth). unfold debug. cbv zeta. rewrite Ex.
  destruct (Z.eqb_spec (blockIdx_x t) 0) as [E1 | E1],
           (Z.eqb_spec (threadIdx_x t) 0) as [E2 | E2]; cbn [andb].
  - rewrite E1, E2. reflexivity.
  - destruct (Z.eqb_spec (blockIdx_x t * B + threadIdx_x t) 0); [nia | reflexivity].
  - destruct (Z.eqb_spec (blockIdx_x t * B + threadIdx_x t) 0); [nia | reflexivity].
  - destruct (Z.eqb_spec (blockIdx_x t * B + threadIdx_x t) 0); [nia | reflexivity].
Qed.

Lemma debug_launch counts :
  debug_threads (Grid.launch G B) counts = [counts 0].
Proof.
  unfold debug_threads, Grid.launch, Zrange.
  replace (Z.to_nat (G * B)) with (S (Z.to_nat (G * B - 1))) by nia.
  cbn [Zseq map flat_map].
  rewrite flat_map_nil.
  - unfold debug. cbv zeta. rewrite (thread_of_x G B HB HN) by nia.
    reflexivity.
  - intros t Ht. apply in_map_iff in Ht. destruct Ht as (i & <- & Hi).
    apply Zseq_In in Hi. unfold debug. cbv zeta.
    rewrite (thread_of_x G B HB HN) by lia.
    destruct (Z.eqb_spec i 0); [lia | reflexivity].
Qed.

End Launch.

(** X13: in a launch <<<G, B>>> of fewer than 2^32 threads the debug kernel
    hands counts[0] to printf exactly once, whatever the order of the
    threads: the thread 0 of the block 0 does, no other thread prints. *)
Theorem debug_prints_once_per_launch (G B : Z) (ts : list thread)
    (counts : mem) :
  1 <= G -> 1 <= B -> G * B < 2 ^ 32 ->
  Permutation ts (Grid.launch G B) ->
  debug_threads ts counts = [counts 0] /\
  (forall t, In t ts ->
     debug t counts
     = if (blockIdx_x t =? 0) && (threadIdx_x t =? 0) then [counts 0]
       else []).
Proof.
  intros HG HB HN Hperm. split.
  - apply Permutation_length_1_inv.
    rewrite <- (debug_launch G B HG HB HN counts).
    apply Permutation_sym. unfold debug_threads.
    apply Permutation_flat_map. exact Hperm.
  - intros t Ht. apply (debug_in_launch G B HB HN).
    apply (In_launch G B HB HN). apply (Permutation_in _ Hperm). exact Ht.
Qed.

(** The launch [<<<2, 3>>>], the last thread first, with a count of 42. *)
Lemma debug_prints_once_per_launch_witness :
  1 <= 2 /\ 1 <= 3 /\ 2 * 3 < 2 ^ 32 /\
  debug_threads (rev (Grid.launch 2 3)) (of_list [42]) = [42].
Proof.
  split; [lia |]. split; [lia |]. split; [lia |].
  destruct (debug_prints_once_per_launch 2 3 (rev (Grid.launch 2 3))
              (of_list [42]) ltac:(lia) ltac:(lia) ltac:(lia))
    as (E & _).
  - apply Permutation_sym, Permutation_rev.
  - exact E.
Defined.

End DebugFacts.

(* ------------------------------------------------------------------ *)
(** ** The stride of the three loops *)
(* ------------------------------------------------------------------ *)

Module StrideFacts.
Import JoinLaunchFacts UpdateAnyFacts LabelLaunchFacts.

(** X14: when gridDim.x * blockDim.x is 0 in unsigned int (the launch has
    a multiple of 2^32 threads), STRIDE is 0 and a thread whose index is
    below the loop bound never leaves the while loop of Update, of Join
    (1 <= edges_query <= 3) or of Label: no fuel is enough. *)
Theorem zero_stride_never_leaves_the_loop (t : thread) :
  thread_STRIDE t = 0 ->
  (forall fuel edges_data g,
     thread_x t < UpdateKernel.pos g 0 ->
     UpdateKernel.Update fuel t edges_data g = OutOfFuel) /\
  (forall fuel a g buf,
     1 <= JoinKernel.edges_query a <= 3 ->
     thread_x t < JoinKernel.Join_size a ->
     JoinKernel.Join fuel t a g buf = OutOfFuel) /\
  (forall fuel a label,
     thread_x t < LabelKernel.d_query_row a 0 ->
     LabelKernel.Label fuel t a label = OutOfFuel).
Proof.
  intros HS. pose proof (thread_x_range t) as Hx. split; [| split].
  - intros fuel edges_data g Hlt. unfold UpdateKernel.Update. rewrite HS.
    apply Update_while_stride_zero; [exact Hx | exact Hlt].
  - intros fuel a g buf Hq Hlt. unfold JoinKernel.Join.
    rewrite HS, convert_0.
    apply Join_while_stride_zero; [exact Hq | lia | exact Hlt].
  - intros fuel a label Hlt. unfold LabelKernel.Label.
    rewrite HS, convert_0.
    apply Label_while_stride_zero.
    pose proof (convert_le (LabelKernel.VertexId a) (thread_x t)
                  ltac:(lia)).
    lia.
Qed.

(** A launch of [4194304] blocks of [1024] threads has [2 ^ 32] threads:
    its stride is 0. *)
Lemma zero_stride_never_leaves_the_loop_witness :
  thread_STRIDE JoinLaunch.overfull = 0 /\
  thread_x JoinLaunch.overfull < JoinKernel.Join_size JoinKernel.triangle /\
  JoinKernel.Join 1000 JoinLaunch.overfull JoinKernel.triangle
    JoinKernel.g0 JoinKernel.buf0 = OutOfFuel /\
  UpdateKernel.Update 1000 JoinLaunch.overfull 4 UpdateKernel.tagged
  = OutOfFuel /\
  LabelKernel.Label 1000 JoinLaunch.overfull LabelKernel.with_count
    LabelKernel.unmarked = OutOfFuel.
Proof.
  assert (HS : thread_STRIDE JoinLaunch.overfull = 0) by reflexivity.
  destruct (zero_stride_never_leaves_the_loop JoinLaunch.overfull HS)
    as (HU & HJ & HL).
  split; [exact HS |]. split; [vm_compute; reflexivity |].
  split; [| split].
  - apply HJ; [cbn; lia | vm_compute; reflexivity].
  - apply HU. vm_compute. reflexivity.
  - apply HL. vm_compute. reflexivity.
Defined.

End StrideFacts.

(* ------------------------------------------------------------------ *)
(** ** SMProblem::Init and SMProblem::Extract, continued *)
(* ------------------------------------------------------------------ *)

Module SMProblemCallsFacts.
Import SMProblem SMProblemFacts SMProblemCalls.

(** What an action leaves in [d_c_set] on the device, when its call
    succeeds or is not tested. *)
Lemma effect_device_c_set d o w :
  checked o = false \/ status d o = cudaSuccess ->
  device_c_set (effect d o w) = device_c_set_after d (device_c_set w) o.
Proof.
  intros Hs. unfold effect, device_c_set_after.
  destruct o as [| | | | | | | | | |s arr k|s arr k| |
                 |s arr source target| | | |]; try reflexivity.
  - destruct arr; try reflexivity.
    destruct Hs as [Hs | Hs]; [discriminate |]. rewrite Hs. reflexivity.
  - destruct arr; reflexivity.
  - destruct arr, source, target; try reflexivity.
    destruct (status d _ =? cudaSuccess); reflexivity.
Qed.

(** Only a transfer of [d_c_set] from the device reaches the host buffer. *)
Lemma effect_host_c_set d o w :
  (forall s, o <> Move s d_c_set DEVICE HOST) ->
  host_c_set (effect d o w) = host_c_set w.
Proof.
  intros Ho. unfold effect.
  destruct o as [| | | | | | | | | |s arr k|s arr k| |
                 |s arr source target| | | |]; try reflexivity.
  - destruct arr; try reflexivity.
    destruct (status d _ =? cudaSuccess); reflexivity.
  - destruct arr; reflexivity.
  - destruct arr, source, target; try reflexivity.
    exfalso. apply (Ho s). reflexivity.
Qed.

Lemma run_steps_app d l1 : forall l2 w,
  run_steps d (l1 ++ l2) w
  = match run_steps d l1 w with
    | (inl r, w') => (inl r, w')
    | (inr _, w') => run_steps d l2 w'
    end.
Proof.
  induction l1 as [| s l1 IH]; intros l2 w; [reflexivity |].
  cbn [app run_steps]. unfold seq_host.
  destruct (do_step d s w) as [[r | []] w']; [reflexivity | apply IH].
Qed.

(** One step: the run leaves the function at an undefined action, or
    returns the status of a tested call that fails, or goes on. *)
Lemma do_step_cases d s w :
  (exists o c, s = Call o /\ undefined_at (this w) o = Some c /\
     do_step d s w = (inl (retval w), set_aborted c w))
  \/ (exists o, s = Call o /\ undefined_at (this w) o = None /\
        checked o = true /\ status d o <> cudaSuccess /\
        do_step d s w
        = (inl (status d o), set_retval (status d o) (effect d o (log o w))))
  \/ (exists w', do_step d s w = (inr tt, w') /\
        (forall o, s = Call o ->
           undefined_at (this w) o = None /\
           (checked o = true -> status d o = cudaSuccess) /\
           w' = (if checked o then set_retval cudaSuccess (effect d o (log o w))
                 else effect d o (log o w))) /\
        (forall f, s = Assign f -> w' = set_this f w) /\
        (s = InitRetval -> w' = set_retval cudaSuccess w)).
Proof.
  destruct s as [o | f |].
  - destruct (undefined_at (this w) o) as [c |] eqn:Eu.
    + left. exists o, c. rewrite (do_step_undefined d o w c Eu). auto.
    + right. rewrite (do_step_defined d o w Eu).
      destruct (checked o) eqn:Ec.
      * destruct (Z.eq_dec (status d o) cudaSuccess) as [E | E].
        -- right. rewrite check_ok by exact E. eexists.
           split; [reflexivity |].
           split; [| split]; try discriminate.
           intros o' [= <-]. rewrite Ec.
           split; [exact Eu |]. split; [intros _; exact E | reflexivity].
        -- left. exists o. rewrite check_fail by exact E. auto.
      * right. eexists. split; [reflexivity |].
        split; [| split]; try discriminate.
        intros o' [= <-]. rewrite Ec.
        split; [exact Eu |]. split; [discriminate | reflexivity].
  - right. right. eexists. split; [reflexivity |].
    split; [| split]; try discriminate. intros f' [= <-]. reflexivity.
  - right. right. eexists. split; [reflexivity |].
    split; [| split]; try discriminate. reflexivity.
Qed.

(** A straight-line function that is left before its end either returns
    the nonzero status of a tested call, or is left at an undefined
    action. *)
Lemma run_steps_early d l : forall w r w',
  run_steps d l w = (inl r, w') ->
  (r <> cudaSuccess /\ retval w' = r /\ aborted w' = aborted w)
  \/ exists c, aborted w' = Some c.
Proof.
  induction l as [| s l IH]; intros w r w' E; [discriminate |].
  cbn [run_steps] in E. unfold seq_host in E.
  destruct (do_step_cases d s w)
    as [(o & c & -> & Eu & Es) | [(o & -> & Eu & Hc & Hf & Es)
                                 | (w1 & Es & Ho & Ha & Hi)]];
    rewrite Es in E.
  - injection E as <- <-. right. exists c. reflexivity.
  - injection E as <- <-. left. split; [exact Hf |].
    split; [reflexivity |]. cbn. rewrite effect_aborted. reflexivity.
  - destruct (IH _ _ _ E) as [(H1 & H2 & H3) | H]; [left | right; exact H].
    split; [exact H1 |]. split; [exact H2 |]. rewrite H3.
    destruct s as [o | f |].
    + destruct (Ho o eq_refl) as (_ & _ & ->).
      destruct (checked o); cbn; rewrite effect_aborted; reflexivity.
    + rewrite (Ha f eq_refl). reflexivity.
    + rewrite (Hi eq_refl). reflexivity.
Qed.

(** A straight-line function that falls through after [retval] was
    initialised leaves [retval] at [cudaSuccess]; it has not been left at
    an undefined action. *)
Lemma run_steps_through d l : forall w w',
  run_steps d l w = (inr tt, w') ->
  aborted w' = aborted w /\
  (retval w = cudaSuccess \/ In InitRetval l -> retval w' = cudaSuccess).
Proof.
  induction l as [| s l IH]; intros w w' E.
  - injection E as <-. split; [reflexivity |]. intros [Hr | []]. exact Hr.
  - cbn [run_steps] in E. unfold seq_host in E.
    destruct (do_step_cases d s w)
      as [(o & c & -> & Eu & Es) | [(o & -> & Eu & Hc & Hf & Es)
                                   | (w1 & Es & Ho & Ha & Hi)]];
      rewrite Es in E; try discriminate.
    destruct (IH _ _ E) as (Hab & Hret). destruct s as [o | f |].
    + destruct (Ho o eq_refl) as (_ & _ & ->). split.
      * rewrite Hab. destruct (checked o); cbn; rewrite effect_aborted; reflexivity.
      * intros Hr. apply Hret.
        destruct Hr as [Hr | [Hr | Hr]]; [| discriminate | right; exact Hr].
        left. destruct (checked o); [reflexivity |].
        rewrite effect_retval. exact Hr.
    + rewrite (Ha f eq_refl) in *. split; [exact Hab |].
      intros Hr. apply Hret.
      destruct Hr as [Hr | [Hr | Hr]];
        [left; exact Hr | discriminate | right; exact Hr].
    + rewrite (Hi eq_refl) in *. split; [exact Hab |].
      intros _. apply Hret. left. reflexivity.
Qed.

(** The calls made are an initial part of the calls of the list. *)
Lemma run_steps_trace d l : forall w,
  exists made rest,
    trace (snd (run_steps d l w)) = trace w ++ made /\
    calls l = made ++ rest.
Proof.
  induction l as [| s l IH]; intros w.
  - exists [], []. cbn. rewrite app_nil_r. split; reflexivity.
  - cbn [run_steps]. unfold seq_host.
    destruct (do_step_cases d s w)
      as [(o & c & -> & Eu & Es) | [(o & -> & Eu & Hc & Hf & Es)
                                   | (w1 & Es & Ho & Ha & Hi)]];
      rewrite Es.
    + exists [], (calls (Call o :: l)). cbn. rewrite app_nil_r.
      split; reflexivity.
    + exists [o], (calls l). cbn. rewrite effect_trace. split; reflexivity.
    + destruct (IH w1) as (made & rest & Et & Ec). destruct s as [o | f |].
      * destruct (Ho o eq_refl) as (_ & _ & ->).
        exists (o :: made), rest. split.
        -- rewrite Et. destruct (checked o); cbn; rewrite effect_trace; cbn;
             rewrite <- app_assoc; reflexivity.
        -- change (calls (Call o :: l)) with (o :: calls l).
           rewrite Ec. reflexivity.
      * pose proof (Ha f eq_refl); subst w1. exists made, rest.
        split; [exact Et | exact Ec].
      * pose proof (Hi eq_refl); subst w1. exists made, rest.
        split; [exact Et | exact Ec].
Qed.

(** The host buffer through a straight-line function that makes no
    transfer of [d_c_set] to the host. *)
Lemma run_steps_host d l : forall w,
  (forall s, ~ In (Move s d_c_set DEVICE HOST) (calls l)) ->
  host_c_set (snd (run_steps d l w)) = host_c_set w.
Proof.
  induction l as [| s l IH]; intros w Hno; [reflexivity |].
  cbn [run_steps]. unfold seq_host.
  assert (Hl : forall s0, ~ In (Move s0 d_c_set DEVICE HOST) (calls l)).
  { intros s0 Hin. apply (Hno s0). destruct s; cbn; auto. }
  assert (Ho : forall o, s = Call o -> forall s0, o <> Move s0 d_c_set DEVICE HOST).
  { intros o -> s0 ->. apply (Hno s0). left. reflexivity. }
  destruct (do_step_cases d s w)
    as [(o & c & -> & Eu & Es) | [(o & -> & Eu & Hc & Hf & Es)
                                 | (w1 & Es & Hs & Ha & Hi)]];
    rewrite Es.
  - reflexivity.
  - cbn. rewrite effect_host_c_set by (apply Ho; reflexivity). reflexivity.
  - rewrite (IH w1 Hl). destruct s as [o | f |].
    + destruct (Hs o eq_refl) as (_ & _ & ->).
      destruct (checked o); cbn;
        rewrite effect_host_c_set by (apply Ho; reflexivity); reflexivity.
    + rewrite (Ha f eq_refl). reflexivity.
    + rewrite (Hi eq_refl). reflexivity.
Qed.

(** A straight-line function that falls through has made every call and
    every assignment of the list; every action was defined and every
    tested call succeeded. *)
Lemma run_steps_all d l : forall w w',
  run_steps d l w = (inr tt, w') ->
  trace w' = trace w ++ calls l /\
  this w' = assigned l (this w) /\
  device_c_set w'
  = fold_left (device_c_set_after d) (calls l) (device_c_set w) /\
  (forall o, In o (calls l) -> checked o = true -> status d o = cudaSuccess).
Proof.
  induction l as [| s l IH]; intros w w' E.
  - injection E as <-. cbn. rewrite app_nil_r.
    repeat split; try reflexivity. intros o [].
  - cbn [run_steps] in E. unfold seq_host in E.
    destruct (do_step_cases d s w)
      as [(o & c & -> & Eu & Es) | [(o & -> & Eu & Hc & Hf & Es)
                                   | (w1 & Es & Ho & Ha & Hi)]];
      rewrite Es in E; try discriminate.
    destruct (IH _ _ E) as (Et & Eth & Ed & Hok). destruct s as [o | f |].
    + destruct (Ho o eq_refl) as (_ & Hs & ->).
      change (calls (Call o :: l)) with (o :: calls l).
      split; [| split; [| split]].
      * rewrite Et. destruct (checked o); cbn; rewrite effect_trace; cbn;
          rewrite <- app_assoc; reflexivity.
      * rewrite Eth. destruct (checked o); cbn; rewrite effect_this;
          reflexivity.
      * rewrite Ed. cbn [fold_left]. f_equal.
        destruct (checked o) eqn:Ec; cbn [device_c_set set_retval];
          rewrite effect_device_c_set; try reflexivity.
        -- right. apply Hs. reflexivity.
        -- left. exact Ec.
      * intros o' [<- | Hin]; [exact Hs | apply Hok, Hin].
    + pose proof (Ha f eq_refl); subst w1.
      split; [exact Et |]. split; [exact Eth |]. split; [exact Ed | exact Hok].
    + pose proof (Hi eq_refl); subst w1.
      split; [exact Et |]. split; [exact Eth |]. split; [exact Ed | exact Hok].
Qed.

(** When every action of the list is defined, the function is not left at
    an undefined action. *)
Lemma run_steps_defined d l : forall w,
  all_defined l (this w) = true ->
  aborted (snd (run_steps d l w)) = aborted w.
Proof.
  induction l as [| s l IH]; intros w Hdef; [reflexivity |].
  cbn [run_steps all_defined] in *. unfold seq_host.
  destruct (do_step_cases d s w)
    as [(o & c & -> & Eu & Es) | [(o & -> & Eu & Hc & Hf & Es)
                                 | (w1 & Es & Ho & Ha & Hi)]];
    rewrite Es.
  - rewrite Eu in Hdef. discriminate.
  - cbn. rewrite effect_aborted. reflexivity.
  - destruct s as [o | f |].
    + destruct (Ho o eq_refl) as (Eu & _ & ->). rewrite Eu in Hdef.
      rewrite IH.
      * destruct (checked o); cbn; rewrite effect_aborted; reflexivity.
      * destruct (checked o); cbn; rewrite effect_this; exact Hdef.
    + rewrite (Ha f eq_refl). rewrite IH; [reflexivity | exact Hdef].
    + rewrite (Hi eq_refl). rewrite IH; [reflexivity | exact Hdef].
Qed.

(** When every action of the list is defined, a return before its end is
    the return of the nonzero status of a tested call. *)
Lemma run_steps_early_defined d l : forall w r w',
  all_defined l (this w) = true ->
  run_steps d l w = (inl r, w') ->
  r <> cudaSuccess /\ retval w' = r.
Proof.
  induction l as [| s l IH]; intros w r w' Hdef E; [discriminate |].
  cbn [run_steps all_defined] in *. unfold seq_host in E.
  destruct (do_step_cases d s w)
    as [(o & c & -> & Eu & Es) | [(o & -> & Eu & Hc & Hf & Es)
                                 | (w1 & Es & Ho & Ha & Hi)]];
    rewrite Es in E.
  - rewrite Eu in Hdef. discriminate.
  - injection E as <- <-. split; [exact Hf | reflexivity].
  - refine (IH _ _ _ _ E).
    destruct s as [o | f |].
    + destruct (Ho o eq_refl) as (Eu & _ & ->). rewrite Eu in Hdef.
      destruct (checked o); cbn; rewrite effect_this; exact Hdef.
    + rewrite (Ha f eq_refl). exact Hdef.
    + rewrite (Hi eq_refl). exact Hdef.
Qed.

Section InitFacts.
Variables (d : device) (pf : platform) (sfh : bool) (gq gd : Csr).
Variables (l1 l2 l3 : list Z) (n : Z) (w : world).

Local Abbreviation result := (run (Init d pf sfh gq gd l1 l2 l3 n) w).
Local Abbreviation steps := (Init_steps (current_gpu d) pf gq gd n).

(** However [Init] is left, the sizes of the object are those of the two
    graphs, and the count of matches is as it was. *)
Lemma Init_object_sizes :
  nodes_query (this (snd result)) = nodes gq /\
  edges_query (this (snd result)) = edges gq /\
  nodes_data (this (snd result)) = nodes gd /\
  edges_data (this (snd result)) = edges gd /\
  num_gpus (this (snd result)) = n /\
  num_matches (this (snd result)) = num_matches (this w).
Proof.
  rewrite Init_this. unfold Init_steps, Init_entry_steps. cbn [app].
  match goal with
  | |- context [run_steps d (?s :: ?l)] => remember l as rest eqn:Er
  end.
  cbn [run_steps do_step]. rewrite seq_modify.
  apply (run_steps_this
           (fun p => nodes_query p = nodes gq /\ edges_query p = edges gq /\
                     nodes_data p = nodes gd /\ edges_data p = edges gd /\
                     num_gpus p = n /\ num_matches p = num_matches (this w)));
    [| cbn; repeat split; reflexivity].
  subst rest. destruct (n <=? 1); unfold Init_slice_steps;
    repeat (apply Forall_cons; [try exact I; intros p Hp; exact Hp |]);
    apply Forall_nil.
Qed.

Lemma Init_result :
  result = match run_steps d steps w with
           | (inl r, w') => (r, w')
           | (inr _, w') => (retval w', w')
           end.
Proof. apply run_Init. Qed.

(** The calls that [Init] makes are an initial part of its list of calls. *)
Lemma Init_trace :
  exists made rest,
    trace (snd result) = trace w ++ made /\ calls steps = made ++ rest.
Proof.
  destruct (run_steps_trace d steps w) as (made & rest & Et & Ec).
  exists made, rest. split; [| exact Ec].
  rewrite Init_result. destruct (run_steps d steps w) as [[r | []] w'];
    exact Et.
Qed.


(** When all its actions are defined, [Init] is not left at one of them,
    and it returns [cudaSuccess] exactly when it runs to its end. *)
Lemma Init_defined :
  all_defined steps (this w) = true ->
  aborted (snd result) = aborted w /\
  (fst result = cudaSuccess <->
   exists w', run_steps d steps w = (inr tt, w') /\ snd result = w').
Proof.
  intros Hdef. pose proof (run_steps_defined d steps w Hdef) as Ha.
  rewrite Init_result.
  destruct (run_steps d steps w) as [[r | []] w'] eqn:E.
  - split; [exact Ha |].
    destruct (run_steps_early_defined d _ _ _ _ Hdef E) as (Hr & _). cbn.
    split.
    + intros H. contradiction.
    + intros (w2 & H & _). discriminate.
  - split; [exact Ha |]. cbn.
    split; [intros _; exists w'; split; reflexivity |].
    intros _. apply (run_steps_through d _ _ _ E). right.
    apply Init_steps_Reset.
Qed.

End InitFacts.

(** The entry of [Init], when it is called for at least one GPU: the
    object gets its sizes and two new arrays of [n] indeterminate
    pointers. *)
Lemma Init_entry d pf gq gd n w :
  1 <= n ->
  exists w1,
    run_steps d (Init_entry_steps pf gq gd n) w = (inr tt, w1) /\
    this w1
    = set_d_data_slices n
        (set_data_slices (repeat None (Z.to_nat n))
           (Init_sizes pf gq gd n (this w))) /\
    trace w1
    = trace w ++ [ProblemBase_Init gq; ProblemBase_Init gd;
                  new_data_slices n; new_d_data_slices n; new_streams n;
                  assign_streams_0 n] /\
    retval w1 = cudaSuccess /\
    device_c_set w1 = device_c_set w /\
    host_c_set w1 = host_c_set w /\
    aborted w1 = aborted w.
Proof.
  intros Hn. eexists.
  unfold Init_entry_steps.
  cbn [run_steps do_step checked]. unfold seq_host, modify, do_exec, defined.
  cbn [this set_this set_retval effect log exec undefined_at slice_of
       num_gpus Init_sizes set_data_slices set_d_data_slices].
  destruct (Z.ltb_spec n 0) as [H0 | H0]; [lia |].
  destruct (Z.ltb_spec 0 n) as [H1 | H1]; [| lia].
  split; [reflexivity |]. cbn. rewrite <- !app_assoc.
  repeat split; reflexivity.
Qed.

Lemma slice_at_repeat_None p s k :
  data_slices p = repeat None k -> slice_at p s = None.
Proof.
  intros E. unfold slice_at. rewrite E.
  destruct (s <? 0); [reflexivity |].
  destruct (nth_error (repeat None k) (Z.to_nat s)) as [[v |] |] eqn:En;
    try reflexivity.
  apply nth_error_In, repeat_spec in En. discriminate.
Qed.

(** X15: called with more than one GPU (and without streams), Init
    assigns the sizes, makes the two calls of the base class, creates the
    arrays data_slices and d_data_slices of _num_gpus pointers and the
    array of streams, stores 0 in streams[0] and returns cudaSuccess,
    whatever the device answers: it makes no other call and allocates
    nothing on the device; no element of data_slices points to a slice;
    gpu_idx and the two buffers of the bitmask are as they were. *)
Theorem Init_on_several_gpus_sets_nothing_up (d : device) (pf : platform)
    (stream_from_host : bool) (graph_query graph_data : Csr)
    (h_query_labels h_data_labels h_vertex_cover : list Z) (_num_gpus : Z)
    (w : world) :
  1 < _num_gpus ->
  let result :=
    run (Init d pf stream_from_host graph_query graph_data
           h_query_labels h_data_labels h_vertex_cover _num_gpus) w in
  fst result = cudaSuccess /\
  trace (snd result)
  = trace w ++ [ProblemBase_Init graph_query; ProblemBase_Init graph_data;
                new_data_slices _num_gpus; new_d_data_slices _num_gpus;
                new_streams _num_gpus; assign_streams_0 _num_gpus] /\
  this (snd result)
  = set_d_data_slices _num_gpus
      (set_data_slices (repeat None (Z.to_nat _num_gpus))
         (Init_sizes pf graph_query graph_data _num_gpus (this w))) /\
  (forall s, slice_at (this (snd result)) s = None) /\
  device_c_set (snd result) = device_c_set w /\
  host_c_set (snd result) = host_c_set w /\
  aborted (snd result) = aborted w.
Proof.
  intros Hn result. subst result. rewrite run_Init. unfold Init_steps.
  destruct (Z.leb_spec _num_gpus 1) as [| _]; [lia |]. rewrite app_nil_r.
  destruct (Init_entry d pf graph_query graph_data _num_gpus w)
    as (w1 & E & Eth & Et & Er & Ed & Eh & Ea); [lia |].
  rewrite E. cbn [fst snd].
  split; [exact Er |]. split; [exact Et |]. split; [exact Eth |].
  split; [| split; [exact Ed |]; split; [exact Eh | exact Ea]].
  intros s. apply (slice_at_repeat_None _ s (Z.to_nat _num_gpus)).
  rewrite Eth. reflexivity.
Qed.

Section InitSingle.
Variables (d : device) (pf : platform) (sfh : bool) (gq gd : Csr).
Variables (l1 l2 l3 : list Z) (w : world).
Hypothesis Hgpu : current_gpu d = 0.

Local Abbreviation result := (run (Init d pf sfh gq gd l1 l2 l3 1) w).
Local Abbreviation steps := (Init_steps (current_gpu d) pf gq gd 1).

Lemma Init_single_defined : all_defined steps (this w) = true.
Proof. apply Init_all_defined; [lia | intros _; exact Hgpu]. Qed.

Lemma Init_published :
  fst result = cudaSuccess ->
  gpu_idx (this (snd result)) = 0 /\
  data_slices (this (snd result)) = [Some (published pf gq gd)] /\
  device_c_set (snd result)
  = cleared (nodes gq * nodes gd)
      (map (uninitialised d) (Zrange (nodes gq * nodes gd))).
Proof.
  intros Hs.
  apply (proj2 (Init_defined d pf sfh gq gd l1 l2 l3 1 w Init_single_defined))
    in Hs.
  destruct Hs as (w' & E & ->).
  destruct (run_steps_all d _ _ _ E) as (_ & -> & -> & _).
  rewrite Hgpu. split; [reflexivity |]. split; reflexivity.
Qed.

Lemma Init_slice_steps_last gpu :
  Init_slice_steps gpu gq gd
  = firstn 44 (Init_slice_steps gpu gq gd)
    ++ [Assign (fun p => set_slice gpu (slice_sizes gpu p) p);
        Call delete_host_arrays].
Proof. reflexivity. Qed.

Lemma Init_not_published :
  fst result <> cudaSuccess ->
  data_slices (this (snd result)) = [None]
  \/ data_slices (this (snd result)) = [Some DataSlice_new].
Proof.
  intros Hf. rewrite Init_result in *. unfold Init_steps in *.
  cbn [Z.leb Z.compare Pos.compare Pos.compare_cont] in *.
  rewrite run_steps_app in *.
  destruct (Init_entry d pf gq gd 1 w)
    as (w1 & E & Eth & _ & Er & _); [lia |].
  rewrite E in *. rewrite Init_slice_steps_last in *.
  rewrite run_steps_app in *.
  set (body := firstn 44 (Init_slice_steps (current_gpu d) gq gd)) in *.
  assert (Hinv : data_slices (this (snd (run_steps d body w1))) = [None]
                 \/ data_slices (this (snd (run_steps d body w1)))
                    = [Some DataSlice_new]).
  { apply (run_steps_this
             (fun p => data_slices p = [None]
                       \/ data_slices p = [Some DataSlice_new]));
      [| left; rewrite Eth; reflexivity].
    subst body. unfold Init_slice_steps. cbn [firstn].
    repeat (apply Forall_cons;
            [try exact I; intros p Hp; try exact Hp;
             right; destruct Hp as [Hp | Hp]; unfold set_slice;
             cbn [data_slices set_data_slices]; rewrite Hp; reflexivity |]).
    apply Forall_nil. }
  destruct (run_steps d body w1) as [[r | []] w2] eqn:E2.
  - exact Hinv.
  - exfalso. apply Hf.
    destruct (run_steps_through d _ _ _ E2) as (_ & Hr).
    cbn [run_steps do_step checked]. unfold seq_host, modify, do_exec, defined.
    cbn [undefined_at slice_of exec fst snd retval effect log set_this].
    apply Hr. left. exact Er.
Qed.

End InitSingle.

(** X16: called for one GPU when the current device is number 0, Init
    always leaves the object with the sizes of the two graphs and with its
    count of matches unchanged, and it returns.  When it returns
    cudaSuccess, gpu_idx is 0 and data_slices[0] points to a slice that
    holds the sizes of the graphs; when it returns a failure,
    data_slices[0] is still indeterminate or points to a freshly
    constructed slice, which was not given the sizes. *)
Theorem Init_publishes_sizes_only_on_success (d : device) (pf : platform)
    (stream_from_host : bool) (graph_query graph_data : Csr)
    (h_query_labels h_data_labels h_vertex_cover : list Z) (w : world) :
  current_gpu d = 0 ->
  let result :=
    run (Init d pf stream_from_host graph_query graph_data
           h_query_labels h_data_labels h_vertex_cover 1) w in
  let p' := this (snd result) in
  (nodes_query p' = nodes graph_query /\
   edges_query p' = edges graph_query /\
   nodes_data p' = nodes graph_data /\
   edges_data p' = edges graph_data /\
   num_gpus p' = 1 /\
   num_matches p' = num_matches (this w)) /\
  aborted (snd result) = aborted w /\
  (fst result = cudaSuccess ->
   gpu_idx p' = 0 /\
   data_slices p' = [Some (published pf graph_query graph_data)]) /\
  (fst result <> cudaSuccess ->
   data_slices p' = [None] \/ data_slices p' = [Some DataSlice_new]).
Proof.
  intros Hgpu result p'. subst result p'.
  split; [apply Init_object_sizes |]. split; [| split].
  - apply Init_defined. apply Init_single_defined. exact Hgpu.
  - intros Hs.
    destruct (Init_published d pf stream_from_host graph_query graph_data
                h_query_labels h_data_labels h_vertex_cover w Hgpu Hs)
      as (H1 & H2 & _).
    split; [exact H1 | exact H2].
  - apply Init_not_published.
Qed.

(** *** The slice that [Init] creates and the slice that it fills *)

Lemma slice_at_other p v s :
  data_slices p = [v] -> s <> 0 -> slice_at p s = None.
Proof.
  intros E Hs. unfold slice_at. rewrite E.
  destruct (Z.ltb_spec s 0) as [| H0]; [reflexivity |].
  destruct (Z.to_nat s) as [| k] eqn:Ek; [lia |].
  cbn [nth_error]. destruct k; reflexivity.
Qed.

Lemma Init_slice_steps_creation gpu gq gd :
  Init_slice_steps gpu gq gd
  = firstn 8 (Init_slice_steps gpu gq gd)
    ++ Call (Allocate gpu labels (nodes gq))
       :: skipn 9 (Init_slice_steps gpu gq gd).
Proof. reflexivity. Qed.

(** X17: called for one GPU, Init creates the slice data_slices[0] (lines
    308-325) and fills the slice data_slices[gpu], gpu being the current
    device (lines 336-436).  When the current device is number 0 the
    operands of every action of Init are defined.  When it is another
    device and cudaGetDevice and the cudaMalloc of line 310 succeed, Init
    makes the actions up to the second call of the base class of the
    slice, records the device in gpu_idx, and the first allocation then
    dereferences data_slices[gpu], which is not an element of the array of
    one pointer: the run leaves the function there, with data_slices[0]
    freshly constructed, no array allocated and the two buffers of the
    bitmask as they were. *)
Theorem Init_creates_slice_zero_and_fills_slice_of_current_gpu (d : device)
    (pf : platform) (stream_from_host : bool) (graph_query graph_data : Csr)
    (h_query_labels h_data_labels h_vertex_cover : list Z) (w : world) :
  let result :=
    run (Init d pf stream_from_host graph_query graph_data
           h_query_labels h_data_labels h_vertex_cover 1) w in
  (current_gpu d = 0 -> aborted (snd result) = aborted w) /\
  (current_gpu d <> 0 ->
   status d cudaGetDevice = cudaSuccess ->
   status d cudaMalloc_d_data_slices = cudaSuccess ->
   aborted (snd result) = Some (no_slice (current_gpu d)) /\
   trace (snd result) = trace w ++ Init_creation graph_query graph_data /\
   data_slices (this (snd result)) = [Some DataSlice_new] /\
   gpu_idx (this (snd result)) = current_gpu d /\
   device_c_set (snd result) = device_c_set w /\
   host_c_set (snd result) = host_c_set w).
Proof.
  intros result. subst result. split.
  - intros Hgpu. apply Init_defined. apply Init_single_defined. exact Hgpu.
  - intros Hgpu Hget Hmalloc. rewrite Init_result. unfold Init_steps.
    cbn [Z.leb Z.compare Pos.compare Pos.compare_cont].
    rewrite run_steps_app.
    destruct (Init_entry d pf graph_query graph_data 1 w)
      as (w1 & E & Eth & Et & Er & Ed & Eh & Ea); [lia |].
    rewrite E. rewrite Init_slice_steps_creation. rewrite run_steps_app.
    set (body := firstn 8 (Init_slice_steps (current_gpu d) graph_query
                             graph_data)).
    destruct (run_steps_ok d body w1) as (w2 & E2 & Et2 & _ & _ & Ea2).
    { rewrite Eth. reflexivity. }
    { subst body. cbn. intros o H Hc.
      repeat (destruct H as [<- | H];
              [first [discriminate Hc | assumption] |]).
      destruct H. }
    rewrite E2.
    destruct (run_steps_all d _ _ _ E2) as (_ & Eth2 & Ed2 & _).
    rewrite Eth in Eth2.
    assert (Es : data_slices (this w2) = [Some DataSlice_new])
      by (rewrite Eth2; reflexivity).
    assert (Eg : gpu_idx (this w2) = current_gpu d)
      by (rewrite Eth2; reflexivity).
    cbn [run_steps do_step checked]. unfold seq_host, do_check, defined.
    cbn [undefined_at slice_of].
    rewrite (slice_at_other _ _ _ Es Hgpu).
    unfold abort_with. cbn [fst snd aborted set_aborted trace this
                            device_c_set host_c_set].
    split; [reflexivity |]. split.
    { rewrite Et2, Et. subst body. rewrite <- app_assoc. reflexivity. }
    split; [exact Es |]. split; [exact Eg |]. split.
    { rewrite Ed2, <- Ed. reflexivity. }
    pose proof (run_steps_host d body w1) as Hh. rewrite E2 in Hh.
    rewrite <- Eh. apply Hh. subst body. cbn. intros s H.
    repeat (destruct H as [H | H]; [discriminate H |]). exact H.
Qed.

(** *** The bitmask after [Init] *)




(** *** [Init] called for no GPU *)

(** X24: called with _num_gpus < 1 (and without streams), Init does not
    return normally.  With a negative _num_gpus, the array
    new DataSlice*[num_gpus] of line 287 has a negative length: the run
    leaves the function there, after the two calls of the base class.
    With _num_gpus = 0, the three arrays are created with no element and
    the assignment streams[0] = 0 of line 291 is past the end of streams.
    In both cases the object has been given the number of GPUs, and the
    two buffers of the bitmask are as they were. *)
Theorem Init_without_gpu_does_not_return (d : device) (pf : platform)
    (stream_from_host : bool) (graph_query graph_data : Csr)
    (h_query_labels h_data_labels h_vertex_cover : list Z) (_num_gpus : Z)
    (w : world) :
  _num_gpus < 1 ->
  let result :=
    run (Init d pf stream_from_host graph_query graph_data
           h_query_labels h_data_labels h_vertex_cover _num_gpus) w in
  aborted (snd result)
  = Some (if _num_gpus <? 0 then negative_length _num_gpus
          else past_the_end 0 0) /\
  trace (snd result)
  = trace w
    ++ [ProblemBase_Init graph_query; ProblemBase_Init graph_data]
    ++ (if _num_gpus <? 0 then []
        else [new_data_slices 0; new_d_data_slices 0; new_streams 0]) /\
  num_gpus (this (snd result)) = _num_gpus /\
  device_c_set (snd result) = device_c_set w /\
  host_c_set (snd result) = host_c_set w.
Proof.
  intros Hn result. subst result. rewrite Init_result. unfold Init_steps.
  destruct (Z.leb_spec _num_gpus 1) as [_ |]; [| lia].
  rewrite run_steps_app. unfold Init_entry_steps.
  cbn [run_steps do_step checked]. unfold seq_host, modify, do_exec, defined.
  cbn [this set_this set_retval effect log exec undefined_at slice_of].
  destruct (Z.ltb_spec _num_gpus 0) as [H0 | H0].
  - cbn. rewrite <- !app_assoc. repeat split; reflexivity.
  - assert (_num_gpus = 0) by lia. subst _num_gpus.
    cbn. rewrite <- !app_assoc. repeat split; reflexivity.
Qed.

(** *** The order of the calls of [Init] *)

Lemma nth_error_made {A : Type} (made rest : list A) i x :
  nth_error made i = Some x -> nth_error (made ++ rest) i = Some x.
Proof.
  intros H. rewrite nth_error_app1; [exact H |].
  apply nth_error_Some. congruence.
Qed.

Lemma nth_error_earlier {A : Type} (made rest : list A) i j x y :
  (i < j)%nat -> nth_error made j = Some y ->
  nth_error (made ++ rest) i = Some x -> nth_error made i = Some x.
Proof.
  intros Hij Hj Hi. rewrite nth_error_app1 in Hi; [exact Hi |].
  assert (j < length made)%nat by (apply nth_error_Some; congruence). lia.
Qed.

Ltac earlier_call i fuel :=
  lazymatch fuel with
  | O => fail
  | S ?fuel' =>
      first [ exists i; split; [lia | reflexivity]
            | earlier_call (S i) fuel' ]
  end.

Ltac earlier_alloc i fuel :=
  lazymatch fuel with
  | O => fail
  | S ?fuel' =>
      first [ exists i; eexists; split; [lia | reflexivity]
            | earlier_alloc (S i) fuel' ]
  end.

Section InitOrder.
Variables (gpu : Z) (pf : platform) (gq gd : Csr) (n : Z).

Local Abbreviation L := (calls (Init_steps gpu pf gq gd n)).

Lemma Init_calls_MemsetKernel j s arr k :
  nth_error L j = Some (MemsetKernel s arr k) ->
  exists i, (i < j)%nat /\ nth_error L i = Some (Allocate s arr k).
Proof.
  unfold Init_steps, Init_entry_steps, Init_slice_steps.
  destruct (n <=? 1); cbn [calls flat_map app].
  - do 50 (destruct j as [| j];
           [cbn [nth_error]; intros H; try discriminate H;
            injection H as <- <- <-; earlier_call 0%nat 50%nat |]).
    destruct j; discriminate.
  - do 6 (destruct j as [| j]; [discriminate |]). destruct j; discriminate.
Qed.

Lemma Init_calls_MemsetIdxKernel j s arr k :
  nth_error L j = Some (MemsetIdxKernel s arr k) ->
  exists i, (i < j)%nat /\ nth_error L i = Some (Allocate s arr k).
Proof.
  unfold Init_steps, Init_entry_steps, Init_slice_steps.
  destruct (n <=? 1); cbn [calls flat_map app].
  - do 50 (destruct j as [| j];
           [cbn [nth_error]; intros H; try discriminate H;
            injection H as <- <- <-; earlier_call 0%nat 50%nat |]).
    destruct j; discriminate.
  - do 6 (destruct j as [| j]; [discriminate |]). destruct j; discriminate.
Qed.

Lemma Init_calls_Move j s arr :
  nth_error L j = Some (Move s arr HOST DEVICE) ->
  exists i, (i < j)%nat /\ nth_error L i = Some (SetPointer s arr).
Proof.
  unfold Init_steps, Init_entry_steps, Init_slice_steps.
  destruct (n <=? 1); cbn [calls flat_map app].
  - do 50 (destruct j as [| j];
           [cbn [nth_error]; intros H; try discriminate H;
            injection H as <- <-; earlier_call 0%nat 50%nat |]).
    destruct j; discriminate.
  - do 6 (destruct j as [| j]; [discriminate |]). destruct j; discriminate.
Qed.

Lemma Init_calls_SetPointer j s arr :
  nth_error L j = Some (SetPointer s arr) ->
  exists i k, (i < j)%nat /\ nth_error L i = Some (Allocate s arr k).
Proof.
  unfold Init_steps, Init_entry_steps, Init_slice_steps.
  destruct (n <=? 1); cbn [calls flat_map app].
  - do 50 (destruct j as [| j];
           [cbn [nth_error]; intros H; try discriminate H;
            injection H as <- <-; earlier_alloc 0%nat 50%nat |]).
    destruct j; discriminate.
  - do 6 (destruct j as [| j]; [discriminate |]). destruct j; discriminate.
Qed.

End InitOrder.

(** X19: in every run of Init, complete or cut short by a failure, a
    kernel that fills an array is launched only after the allocation of
    that array with the same number of elements, a transfer to the device
    is made only after SetPointer for that array, and SetPointer only
    after the allocation of the array. *)
Theorem Init_allocates_before_it_fills (d : device) (pf : platform)
    (stream_from_host : bool) (graph_query graph_data : Csr)
    (h_query_labels h_data_labels h_vertex_cover : list Z) (_num_gpus : Z)
    (w : world) :
  exists made,
    trace (snd (run (Init d pf stream_from_host graph_query graph_data
                       h_query_labels h_data_labels h_vertex_cover
                       _num_gpus) w))
    = trace w ++ made /\
    (forall s arr k,
       In (MemsetKernel s arr k) made ->
       before (Allocate s arr k) (MemsetKernel s arr k) made) /\
    (forall s arr k,
       In (MemsetIdxKernel s arr k) made ->
       before (Allocate s arr k) (MemsetIdxKernel s arr k) made) /\
    (forall s arr,
       In (Move s arr HOST DEVICE) made ->
       before (SetPointer s arr) (Move s arr HOST DEVICE) made) /\
    (forall s arr,
       In (SetPointer s arr) made ->
       exists k, before (Allocate s arr k) (SetPointer s arr) made).
Proof.
  destruct (Init_trace d pf stream_from_host graph_query graph_data
              h_query_labels h_data_labels h_vertex_cover _num_gpus w)
    as (made & rest & Et & Ec).
  exists made. split; [exact Et |].
  split; [| split; [| split]].
  - intros s arr k Hin. apply In_nth_error in Hin. destruct Hin as (j & Hj).
    destruct (Init_calls_MemsetKernel (current_gpu d) pf graph_query
                graph_data _num_gpus j s arr k) as (i & Hij & Hi).
    { rewrite Ec. apply nth_error_made, Hj. }
    exists i, j. split; [exact Hij |]. split; [| exact Hj].
    rewrite Ec in Hi. apply (nth_error_earlier made rest i j _ _ Hij Hj Hi).
  - intros s arr k Hin. apply In_nth_error in Hin. destruct Hin as (j & Hj).
    destruct (Init_calls_MemsetIdxKernel (current_gpu d) pf graph_query
                graph_data _num_gpus j s arr k) as (i & Hij & Hi).
    { rewrite Ec. apply nth_error_made, Hj. }
    exists i, j. split; [exact Hij |]. split; [| exact Hj].
    rewrite Ec in Hi. apply (nth_error_earlier made rest i j _ _ Hij Hj Hi).
  - intros s arr Hin. apply In_nth_error in Hin. destruct Hin as (j & Hj).
    destruct (Init_calls_Move (current_gpu d) pf graph_query
                graph_data _num_gpus j s arr) as (i & Hij & Hi).
    { rewrite Ec. apply nth_error_made, Hj. }
    exists i, j. split; [exact Hij |]. split; [| exact Hj].
    rewrite Ec in Hi. apply (nth_error_earlier made rest i j _ _ Hij Hj Hi).
  - intros s arr Hin. apply In_nth_error in Hin. destruct Hin as (j & Hj).
    destruct (Init_calls_SetPointer (current_gpu d) pf graph_query
                graph_data _num_gpus j s arr) as (i & k & Hij & Hi).
    { rewrite Ec. apply nth_error_made, Hj. }
    exists k, i, j. split; [exact Hij |]. split; [| exact Hj].
    rewrite Ec in Hi. apply (nth_error_earlier made rest i j _ _ Hij Hj Hi).
Qed.

(** *** The theorems at sample inputs *)

(** Two GPUs, on a device that is out of memory: the two arrays of two
    pointers are created, no slice and no allocation. *)
Lemma Init_on_several_gpus_sets_nothing_up_witness :
  1 < 2 /\
  run (Init out_of_memory lp64_int32 true query_graph data_graph
         [0; 1] [0; 1; 0] [0] 2) start
  = (cudaSuccess,
     {| this := set_d_data_slices 2
                  (set_data_slices [None; None]
                     (Init_sizes lp64_int32 query_graph data_graph 2 blank));
        retval := cudaSuccess;
        trace := [ProblemBase_Init query_graph; ProblemBase_Init data_graph;
                  new_data_slices 2; new_d_data_slices 2; new_streams 2;
                  assign_streams_0 2];
        device_c_set := []; host_c_set := []; aborted := None |}) /\
  slice_at (this (snd (run (Init out_of_memory lp64_int32 true query_graph
                              data_graph [0; 1] [0; 1; 0] [0] 2) start))) 0
  = None.
Proof.
  assert (Hn : 1 < 2) by lia.
  split; [exact Hn |]. split; [reflexivity |].
  destruct (Init_on_several_gpus_sets_nothing_up out_of_memory lp64_int32 true
              query_graph data_graph [0; 1] [0; 1; 0] [0] 2 start Hn)
    as (_ & _ & _ & E & _).
  apply E.
Defined.

(** One GPU that runs out of memory at [d_c_set]: the object has the sizes
    of the graphs, the data slice has none. *)
Lemma Init_publishes_sizes_only_on_success_witness :
  current_gpu out_of_memory = 0 /\
  fst (run (Init out_of_memory lp64_int32 true query_graph data_graph
              [0; 1] [0; 1; 0] [0] 1) start) = 2 /\
  nodes_data (this (snd (run (Init out_of_memory lp64_int32 true query_graph
                                data_graph [0; 1] [0; 1; 0] [0] 1) start)))
  = 3 /\
  data_slices (this (snd (run (Init out_of_memory lp64_int32 true
                                 query_graph data_graph [0; 1] [0; 1; 0] [0]
                                 1) start)))
  = [Some DataSlice_new] /\
  data_slices (this (snd (run (Init healthy lp64_int32 true query_graph
                                 data_graph [0; 1] [0; 1; 0] [0] 1) start)))
  = [Some (published lp64_int32 query_graph data_graph)].
Proof.
  assert (Hg : current_gpu out_of_memory = 0) by reflexivity.
  split; [exact Hg |]. split; [reflexivity |].
  destruct (Init_publishes_sizes_only_on_success out_of_memory lp64_int32 true
              query_graph data_graph [0; 1] [0; 1; 0] [0] start Hg)
    as ((_ & _ & E & _) & _ & _ & Hf).
  split; [exact E |]. split.
  - destruct Hf as [Hf | Hf]; [discriminate | | exact Hf].
    vm_compute in Hf. discriminate.
  - destruct (Init_publishes_sizes_only_on_success healthy lp64_int32 true
                query_graph data_graph [0; 1] [0; 1; 0] [0] start eq_refl)
      as (_ & _ & Hs & _).
    apply Hs. reflexivity.
Defined.

(** The current device is number 1: the slice of index 0 is created, the
    slice of index 1 is used. *)
Lemma Init_creates_slice_zero_and_fills_slice_of_current_gpu_witness :
  current_gpu second_gpu = 1 /\
  aborted (snd (run (Init second_gpu lp64_int32 true query_graph data_graph
                       [0; 1] [0; 1; 0] [0] 1) start))
  = Some (no_slice 1) /\
  gpu_idx (this (snd (run (Init second_gpu lp64_int32 true query_graph
                             data_graph [0; 1] [0; 1; 0] [0] 1) start)))
  = 1.
Proof.
  split; [reflexivity |].
  destruct (Init_creates_slice_zero_and_fills_slice_of_current_gpu second_gpu
              lp64_int32 true query_graph data_graph [0; 1] [0; 1; 0] [0]
              start) as (_ & H).
  destruct H as (Ea & _ & _ & Eg & _);
    [discriminate | reflexivity | reflexivity |].
  split; [exact Ea | exact Eg].
Defined.


(** No GPU, and a negative number of GPUs. *)
Lemma Init_without_gpu_does_not_return_witness :
  0 < 1 /\ -1 < 1 /\
  aborted (snd (run (Init healthy lp64_int32 true query_graph data_graph
                       [0; 1] [0; 1; 0] [0] 0) start))
  = Some (past_the_end 0 0) /\
  aborted (snd (run (Init healthy lp64_int32 true query_graph data_graph
                       [0; 1] [0; 1; 0] [0] (-1)) start))
  = Some (negative_length (-1)) /\
  trace (snd (run (Init healthy lp64_int32 true query_graph data_graph
                     [0; 1] [0; 1; 0] [0] (-1)) start))
  = [ProblemBase_Init query_graph; ProblemBase_Init data_graph].
Proof.
  assert (H0 : 0 < 1) by lia. assert (H1 : -1 < 1) by lia.
  split; [exact H0 |]. split; [exact H1 |].
  destruct (Init_without_gpu_does_not_return healthy lp64_int32 true
              query_graph data_graph [0; 1] [0; 1; 0] [0] 0 start H0)
    as (E0 & _).
  destruct (Init_without_gpu_does_not_return healthy lp64_int32 true
              query_graph data_graph [0; 1] [0; 1; 0] [0] (-1) start H1)
    as (E1 & T1 & _).
  split; [exact E0 |]. split; [exact E1 | exact T1].
Defined.

End SMProblemCallsFacts.

(* ------------------------------------------------------------------ *)
(** ** SMProblem::Reset and the destructors *)
(* ------------------------------------------------------------------ *)

Module SMProblemResetFacts.
Import SMProblem SMProblemFacts SMProblemCalls SMProblemReset SMProblemCallsFacts.

Lemma then_cong {A B : Type} (m m' : act A) (k k' : A -> act B) s :
  (forall s0, m s0 = m' s0) -> (forall v s0, k v s0 = k' v s0) ->
  then_ m k s = then_ m' k' s.
Proof.
  intros Hm Hk. unfold then_. rewrite Hm.
  destruct (m' s) as [[r | v] s']; [reflexivity | apply Hk].
Qed.

Lemma then_skip_r (m : act unit) s : then_ m (fun _ => skip) s = m s.
Proof. unfold then_, skip. destruct (m s) as [[r | []] s']; reflexivity. Qed.

Lemma then_assoc {A B C : Type} (m : act A) (k : A -> act B) (h : B -> act C) s :
  then_ (then_ m k) h s = then_ m (fun v => then_ (k v) h) s.
Proof. unfold then_. destruct (m s) as [[r | v] s']; reflexivity. Qed.

Lemma run_items_app rt a : forall b s,
  run_items rt (a ++ b) s
  = then_ (run_items rt a) (fun _ => run_items rt b) s.
Proof.
  induction a as [| it a IH]; intros b s; [reflexivity |].
  cbn [app run_items]. rewrite then_assoc.
  apply then_cong; [reflexivity |]. intros _ s0. apply IH.
Qed.

Lemma allocate_if_null_items rt gpu arr n s :
  allocate_if_null rt gpu arr n s
  = run_items rt (allocate_item rt gpu arr n) s.
Proof.
  unfold allocate_if_null, allocate_item.
  destruct (device_pointer_is_null rt gpu arr); [| reflexivity].
  cbn [run_items do_item]. symmetry. apply then_skip_r.
Qed.

Lemma Reset_gpu_as_items rt p q gpu s :
  Reset_gpu rt p q gpu s = run_items rt (Reset_gpu_items rt p q gpu) s.
Proof.
  unfold Reset_gpu, Reset_gpu_items. cbn [app run_items do_item].
  apply then_cong; [reflexivity |]. intros _ s1.
  apply then_cong; [reflexivity |]. intros _ s2. clear s s1. revert s2.
  repeat (intros ?; rewrite run_items_app;
          apply then_cong; [apply allocate_if_null_items |]; intros _).
  intros s. cbn [run_items do_item]. symmetry. apply then_skip_r.
Qed.

Lemma Reset_gpus_as_items rt p q gpus : forall s,
  Reset_gpus rt p q gpus s
  = run_items rt (flat_map (Reset_gpu_items rt p q) gpus) s.
Proof.
  induction gpus as [| gpu gpus IH]; intros s; [reflexivity |].
  cbn [Reset_gpus flat_map]. rewrite run_items_app.
  apply then_cong; [apply Reset_gpu_as_items |]. intros _ s0. apply IH.
Qed.

(** [Reset] runs its list of items from a [retval] of [cudaSuccess]. *)
Lemma Reset_as_items rt p q :
  Reset rt p q
  = match run_items rt (Reset_items rt p q) (cudaSuccess, []) with
    | (inl r, s) => (r, snd s)
    | (inr _, s) => (fst s, snd s)
    end.
Proof.
  unfold Reset, Reset_items. rewrite run_items_app.
  unfold then_ at 1. unfold init_retval. cbn [snd].
  unfold then_ at 1 3. rewrite Reset_gpus_as_items.
  destruct (run_items rt _ (cudaSuccess, [])) as [[r | []] s]; [reflexivity |].
  reflexivity.
Qed.

(** A list of items either stops at its first tested call that fails, or
    makes all its calls. *)
Lemma run_items_cases rt its : forall s,
  (exists pre c post,
     its = pre ++ Test c :: post /\
     status_of rt c <> cudaSuccess /\
     (forall c', In (Test c') pre -> status_of rt c' = cudaSuccess) /\
     run_items rt its s
     = (inl (status_of rt c),
        (status_of rt c, snd s ++ map call_of pre ++ [c])))
  \/ ((forall c', In (Test c') its -> status_of rt c' = cudaSuccess) /\
      run_items rt its s
      = (inr tt,
         (if existsb is_test its then cudaSuccess else fst s,
          snd s ++ map call_of its))).
Proof.
  induction its as [| it its IH]; intros s.
  - right. split; [intros c' [] |]. cbn. rewrite app_nil_r.
    destruct s; reflexivity.
  - cbn [run_items]. unfold then_. destruct it as [c | c]; cbn [do_item].
    + unfold test. destruct (Z.eqb_spec (status_of rt c) 0) as [E | E]; cbn [negb].
      * destruct (IH (status_of rt c, snd s ++ [c]))
          as [(pre & c1 & post & -> & Hf & Hpre & Er) | (Hall & Er)].
        -- left. exists (Test c :: pre), c1, post.
           split; [reflexivity |]. split; [exact Hf |]. split.
           ++ intros c' [[= <-] | Hin]; [exact E | apply Hpre, Hin].
           ++ rewrite Er. cbn [snd map call_of app].
              rewrite <- !app_assoc. reflexivity.
        -- right. split.
           ++ intros c' [[= <-] | Hin]; [exact E | apply Hall, Hin].
           ++ rewrite Er. cbn [fst snd map call_of existsb is_test orb].
              rewrite E, <- app_assoc.
              destruct (existsb is_test its); reflexivity.
      * left. exists [], c, its.
        split; [reflexivity |]. split; [exact E |].
        split; [intros c' [] | reflexivity].
    + unfold perform.
      destruct (IH (fst s, snd s ++ [c]))
        as [(pre & c1 & post & -> & Hf & Hpre & Er) | (Hall & Er)].
      * left. exists (Do c :: pre), c1, post.
        split; [reflexivity |]. split; [exact Hf |]. split.
        -- intros c' [H | Hin]; [discriminate | apply Hpre, Hin].
        -- rewrite Er. cbn [snd map call_of app].
           rewrite <- !app_assoc. reflexivity.
      * right. split.
        -- intros c' [H | Hin]; [discriminate | apply Hall, Hin].
        -- rewrite Er. cbn [fst snd map call_of existsb is_test orb].
           rewrite <- app_assoc. reflexivity.
Qed.

Section ResetFacts.
Variables (rt : runtime) (p : problem) (q : pointers).

Lemma In_allocate_item gpu arr n it :
  In it (allocate_item rt gpu arr n) <->
  device_pointer_is_null rt gpu arr = true /\
  it = Test (Shared (Allocate gpu arr n)).
Proof.
  unfold allocate_item. destruct (device_pointer_is_null rt gpu arr); cbn.
  - split; [intros [<- | []]; split; reflexivity | intros (_ & ->); left; reflexivity].
  - split; [intros [] | intros (H & _); discriminate].
Qed.

(** The items of one GPU: the three calls that are always made, and an
    allocation for each array of the table whose device pointer is null. *)
Lemma In_Reset_gpu_items gpu it :
  In it (Reset_gpu_items rt p q gpu) <->
  it = Test (cudaSetDevice (gpu_idx_at p q gpu))
  \/ it = Do (DataSlice_Reset gpu)
  \/ it = Test (cudaMemcpy_data_slice gpu)
  \/ exists arr,
       arr <> d_edge_weights /\
       device_pointer_is_null rt gpu arr = true /\
       it = Test (Shared (Allocate gpu arr (element_count p arr))).
Proof.
  unfold Reset_gpu_items. rewrite !in_app_iff, !In_allocate_item. cbn [In].
  split.
  - intros H.
    repeat (destruct H as [H | H]);
      try (left; symmetry; exact H);
      try (right; left; symmetry; exact H);
      try (right; right; left; symmetry; exact H);
      try contradiction;
      destruct H as (Hn & ->);
      match type of Hn with
      | device_pointer_is_null rt gpu ?a = true =>
          do 3 right; exists a;
          split; [discriminate | split; [exact Hn | reflexivity]]
      end.
  - intros [-> | [-> | [-> | (arr & Ha & Hn & ->)]]].
    + left. left. reflexivity.
    + left. right. left. reflexivity.
    + do 13 right. left. reflexivity.
    + destruct arr; try contradiction; cbn [element_count];
        repeat first [ left; split; [exact Hn | reflexivity] | right ].
Qed.

Lemma In_Reset_items it :
  In it (Reset_items rt p q) <->
  (exists gpu, 0 <= gpu < num_gpus p /\ In it (Reset_gpu_items rt p q gpu))
  \/ it = Do (MemsetIdxKernel_frontier (nodes_data p)).
Proof.
  unfold Reset_items. rewrite in_app_iff, in_flat_map. cbn [In]. split.
  - intros [(gpu & Hg & Hin) | [<- | []]]; [left | right; reflexivity].
    exists gpu. split; [apply Zrange_In, Hg | exact Hin].
  - intros [(gpu & Hg & Hin) | ->]; [left | right; left; reflexivity].
    exists gpu. split; [apply Zrange_In, Hg | exact Hin].
Qed.


End ResetFacts.


(** *** A loop left early *)

Lemma flat_map_split {A B : Type} (f : A -> list B) l : forall pre x post,
  flat_map f l = pre ++ x :: post ->
  exists l1 a l2 pre' post',
    l = l1 ++ a :: l2 /\ f a = pre' ++ x :: post' /\
    pre = flat_map f l1 ++ pre'.
Proof.
  induction l as [| a l IH]; intros pre x post E.
  - destruct pre; discriminate.
  - cbn [flat_map] in E. apply app_eq_app in E.
    destruct E as (l' & [(E1 & E2) | (E1 & E2)]).
    + destruct l' as [| y l'].
      * rewrite app_nil_r in E1. cbn [app] in E2. symmetry in E2.
        destruct (IH [] x post E2) as (l1 & a' & l2 & pre' & post' & -> & Ef & Ep).
        exists (a :: l1), a', l2, pre', post'.
        split; [reflexivity |]. split; [exact Ef |].
        cbn [flat_map]. rewrite <- app_assoc, <- Ep, app_nil_r.
        symmetry. exact E1.
      * cbn [app] in E2. injection E2 as <- ->.
        exists [], a, l, pre, l'. split; [reflexivity |].
        split; [exact E1 | reflexivity].
    + destruct (IH l' x post E2) as (l1 & a' & l2 & pre' & post' & -> & Ef & ->).
      exists (a :: l1), a', l2, pre', post'.
      split; [reflexivity |]. split; [exact Ef |].
      cbn [flat_map]. rewrite <- app_assoc. exact E1.
Qed.

Lemma Zseq_split_at n : forall lo l1 x l2,
  Zseq lo n = l1 ++ x :: l2 ->
  lo <= x < lo + Z.of_nat n /\
  (forall y, In y l1 <-> lo <= y < x) /\
  (forall y, In y l2 -> x < y).
Proof.
  induction n as [| n IH]; intros lo l1 x l2 E.
  - destruct l1; discriminate.
  - cbn [Zseq] in E. destruct l1 as [| z l1]; cbn [app] in E;
      injection E as <- E.
    + split; [lia |]. split; [intros y; split; [intros [] | lia] |].
      intros y Hy. rewrite <- E in Hy. apply Zseq_In in Hy. lia.
    + destruct (IH _ _ _ _ E) as (Hx & H1 & H2).
      split; [lia |]. split; [| exact H2].
      intros y. cbn [In]. rewrite H1. lia.
Qed.

Section ResetLoop.
Variables (rt : runtime) (p : problem) (q : pointers).

(** A tested item is not the launch that follows the loop. *)
Lemma Reset_items_Test pre c post :
  Reset_items rt p q = pre ++ Test c :: post ->
  exists l1 gpu l2 pre' post',
    Zrange (num_gpus p) = l1 ++ gpu :: l2 /\
    Reset_gpu_items rt p q gpu = pre' ++ Test c :: post' /\
    pre = flat_map (Reset_gpu_items rt p q) l1 ++ pre'.
Proof.
  unfold Reset_items. intros E. apply app_eq_app in E.
  destruct E as (l' & [(E1 & E2) | (E1 & E2)]).
  - destruct l' as [| y l']; [discriminate |].
    cbn [app] in E2. injection E2 as <- E2.
    apply (flat_map_split _ _ _ _ _ E1).
  - destruct l' as [| y l']; [discriminate |].
    injection E2 as _ E2. destruct l'; discriminate.
Qed.

Lemma tested_item it :
  In it (Reset_items rt p q) -> tested (call_of it) = is_test it.
Proof.
  intros H. apply In_Reset_items in H.
  destruct H as [(gpu & _ & H) | ->]; [| reflexivity].
  apply In_Reset_gpu_items in H.
  destruct H as [-> | [-> | [-> | (arr & _ & _ & ->)]]]; reflexivity.
Qed.

Lemma Reset_gpu_items_calls gpu c :
  In c (map call_of (Reset_gpu_items rt p q gpu)) ->
  c = cudaSetDevice (gpu_idx_at p q gpu) \/ c = DataSlice_Reset gpu
  \/ c = cudaMemcpy_data_slice gpu
  \/ exists arr k, c = Shared (Allocate gpu arr k).
Proof.
  intros H. apply in_map_iff in H. destruct H as (it & <- & H).
  apply In_Reset_gpu_items in H.
  destruct H as [-> | [-> | [-> | (arr & _ & _ & ->)]]]; cbn; eauto 6.
Qed.

End ResetLoop.

(** X21: when Reset returns a failure, its last call is the tested call
    (cudaSetDevice, Allocate or cudaMemcpy, for some GPU) that returned
    that status, every tested call before it succeeded, the GPUs before
    that one were completed, no later GPU was touched and the kernel that
    follows the loop was not launched.  When Reset returns cudaSuccess,
    every tested call succeeded, every GPU was selected, reset and copied,
    and the last call is the launch of the kernel. *)
Theorem Reset_stops_at_first_failure (rt : runtime) (p : problem)
    (q : pointers) :
  (fst (Reset rt p q) <> cudaSuccess ->
   exists earlier c gpu,
     snd (Reset rt p q) = earlier ++ [c] /\
     status_of rt c = fst (Reset rt p q) /\
     0 <= gpu < num_gpus p /\
     (c = cudaSetDevice (gpu_idx_at p q gpu)
      \/ c = cudaMemcpy_data_slice gpu
      \/ exists arr k, c = Shared (Allocate gpu arr k)) /\
     (forall c', In c' earlier -> tested c' = true ->
        status_of rt c' = cudaSuccess) /\
     (forall gpu', 0 <= gpu' < gpu ->
        In (cudaMemcpy_data_slice gpu') earlier) /\
     (forall gpu', In (DataSlice_Reset gpu') (snd (Reset rt p q)) ->
        gpu' <= gpu) /\
     (forall n, ~ In (MemsetIdxKernel_frontier n) (snd (Reset rt p q)))) /\
  (fst (Reset rt p q) = cudaSuccess ->
   exists earlier,
     snd (Reset rt p q)
     = earlier ++ [MemsetIdxKernel_frontier (nodes_data p)] /\
     (forall c', In c' earlier -> tested c' = true ->
        status_of rt c' = cudaSuccess) /\
     (forall gpu, 0 <= gpu < num_gpus p ->
        In (cudaSetDevice (gpu_idx_at p q gpu)) earlier /\
        In (DataSlice_Reset gpu) earlier /\
        In (cudaMemcpy_data_slice gpu) earlier)).
Proof.
  rewrite Reset_as_items.
  destruct (run_items_cases rt (Reset_items rt p q) (cudaSuccess, []))
    as [(pre & c & post & E & Hf & Hpre & ->) | (Hall & ->)];
    cbn [fst snd app]; (split; [| intros H; try contradiction]);
    try (intros H; exfalso; apply H;
         destruct (existsb is_test (Reset_items rt p q)); reflexivity).
  - intros _.
    destruct (Reset_items_Test rt p q pre c post E)
      as (l1 & gpu & l2 & pre' & post' & Er & Eg & ->).
    destruct (Zseq_split_at _ _ _ _ _ Er) as (Hg & H1 & H2).
    assert (Hc : In (Test c) (Reset_gpu_items rt p q gpu))
      by (rewrite Eg; apply in_or_app; right; left; reflexivity).
    exists (map call_of (flat_map (Reset_gpu_items rt p q) l1 ++ pre')), c, gpu.
    split; [reflexivity |]. split; [reflexivity |]. split; [lia |].
    split; [| split; [| split; [| split]]].
    + apply In_Reset_gpu_items in Hc.
      destruct Hc as [Hc | [Hc | [Hc | (arr & _ & _ & Hc)]]];
        try discriminate; injection Hc as ->; eauto.
    + intros c' Hin Ht. apply in_map_iff in Hin.
      destruct Hin as (it & <- & Hin).
      assert (Hit : In it (Reset_items rt p q))
        by (rewrite E; apply in_or_app; left; exact Hin).
      rewrite (tested_item rt p q it Hit) in Ht.
      destruct it as [c1 | c1]; [| discriminate]. apply Hpre, Hin.
    + intros gpu' Hg'. apply in_map_iff.
      exists (Test (cudaMemcpy_data_slice gpu')). split; [reflexivity |].
      apply in_or_app. left. apply in_flat_map. exists gpu'.
      split; [apply H1; lia |]. apply In_Reset_gpu_items. auto.
    + intros gpu' Hin. apply in_app_or in Hin.
      destruct Hin as [Hin | [Hin | []]].
      * rewrite map_app in Hin. apply in_app_or in Hin.
        destruct Hin as [Hin | Hin].
        -- apply in_map_iff in Hin. destruct Hin as (it & Ec & Hin).
           apply in_flat_map in Hin. destruct Hin as (g & Hg1 & Hin).
           assert (Hcall : In (DataSlice_Reset gpu')
                             (map call_of (Reset_gpu_items rt p q g)))
             by (apply in_map_iff; exists it; split; assumption).
           apply Reset_gpu_items_calls in Hcall.
           destruct Hcall as [Hc1 | [Hc1 | [Hc1 | (a & k & Hc1)]]];
             try discriminate.
           injection Hc1 as ->. apply H1 in Hg1. lia.
        -- assert (Hcall : In (DataSlice_Reset gpu')
                             (map call_of (Reset_gpu_items rt p q gpu))).
           { rewrite Eg, map_app. apply in_or_app. left. exact Hin. }
           apply Reset_gpu_items_calls in Hcall.
           destruct Hcall as [Hc1 | [Hc1 | [Hc1 | (a & k & Hc1)]]];
             try discriminate.
           injection Hc1 as ->. lia.
      * apply In_Reset_gpu_items in Hc. subst c.
        destruct Hc as [Hc | [Hc | [Hc | (arr & _ & _ & Hc)]]];
          discriminate.
    + intros n Hin. apply in_app_or in Hin.
      destruct Hin as [Hin | [Hin | []]].
      * apply in_map_iff in Hin. destruct Hin as (it & Ec & Hin).
        assert (Hg' : exists g, In it (Reset_gpu_items rt p q g)).
        { apply in_app_or in Hin. destruct Hin as [Hin | Hin].
          - apply in_flat_map in Hin. destruct Hin as (g & _ & Hin).
            exists g. exact Hin.
          - exists gpu. rewrite Eg. apply in_or_app. left. exact Hin. }
        destruct Hg' as (g & Hg').
        assert (Hcall : In (MemsetIdxKernel_frontier n)
                          (map call_of (Reset_gpu_items rt p q g)))
          by (apply in_map_iff; exists it; split; assumption).
        apply Reset_gpu_items_calls in Hcall.
        destruct Hcall as [Hc1 | [Hc1 | [Hc1 | (a & k & Hc1)]]]; discriminate.
      * apply In_Reset_gpu_items in Hc. subst c.
        destruct Hc as [Hc | [Hc | [Hc | (arr & _ & _ & Hc)]]]; discriminate.
  - unfold Reset_items at 1. rewrite map_app. cbn [map call_of].
    exists (map call_of (flat_map (Reset_gpu_items rt p q)
                           (Zrange (num_gpus p)))).
    split; [reflexivity |]. split.
    + intros c' Hin Ht. apply in_map_iff in Hin.
      destruct Hin as (it & <- & Hin).
      assert (Hit : In it (Reset_items rt p q))
        by (unfold Reset_items; apply in_or_app; left; exact Hin).
      rewrite (tested_item rt p q it Hit) in Ht.
      destruct it as [c1 | c1]; [| discriminate]. apply Hall, Hit.
    + intros gpu Hg.
      assert (Hin : forall it, In it (Reset_gpu_items rt p q gpu) ->
                In (call_of it)
                  (map call_of (flat_map (Reset_gpu_items rt p q)
                                  (Zrange (num_gpus p))))).
      { intros it Hit. apply in_map. apply in_flat_map. exists gpu.
        split; [apply Zrange_In, Hg | exact Hit]. }
      split; [| split].
      * apply (Hin (Test _)). apply In_Reset_gpu_items. auto.
      * apply (Hin (Do _)). apply In_Reset_gpu_items. auto.
      * apply (Hin (Test _)). apply In_Reset_gpu_items. auto.
Qed.


Section ResetExact.
Variables (rt : runtime) (p : problem) (q : pointers).




End ResetExact.


Section Destructor.
Variables (rt : runtime) (p : problem) (q : pointers).




End Destructor.


(** *** The theorems at sample inputs *)

(** Two GPUs of which the second cannot be selected: [Reset] returns 101
    after the three calls for the first GPU and the failing call; the
    destructor releases the arrays of the first slice only. *)
Example Reset_and_destructor_sample :
  Reset second_unselectable two_gpus all_pointers
  = (101, [cudaSetDevice 0; DataSlice_Reset 0; cudaMemcpy_data_slice 0;
           cudaSetDevice 1]) /\
  SMProblem_destructor second_unselectable two_gpus all_pointers
  = cudaSetDevice 0 :: map (Release 0) released_arrays
    ++ [cudaFree_d_data_slice 0; cudaSetDevice 1;
        delete_d_data_slices; delete_data_slices] /\
  Reset no_c_set five_matches all_pointers
  = (cudaSuccess,
     [cudaSetDevice 0; DataSlice_Reset 0; Shared (Allocate 0 d_c_set 6);
      cudaMemcpy_data_slice 0; MemsetIdxKernel_frontier 3]).
Proof. repeat split; reflexivity. Qed.

End SMProblemResetFacts.
